(** * Shared Governance Tracker: data-override and synchronisation model

    A shallow embedding of the browser-resident logic of the tracker
    (utils.js, auth.js, dashboard.js, admin.js): the localStorage override
    store, credential validation, the submission recorder with its
    attachment policy, the submissions import, meeting-id generation and the
    committee-assignment editor.

    Conventions.
    - A JavaScript string is a [string]; each [ascii] stands for one UTF-16
      code unit in the range 0..255.
    - A Number the code computes with (the suffixes of meeting ids) is a
      [number]: a double that holds an integer, an infinity or NaN, with
      the rounding of doubles.  A number that is only stored or compared
      (a file size, a timestamp) is an integer [Z].
    - [undefined] is the [None] of an [option]; everything JSON can carry is
      a [value].
    - Code that can throw returns a [completion]; code that reads or writes
      localStorage takes the store as an argument and returns the new one. *)

From stdpp Require Import base option list strings gmap sorting pretty.
From Stdlib Require Import Ascii ZArith.

Set Warnings "-register-all".


(* ===================================================================== *)
(** * Part I: the embedding                                               *)
(* ===================================================================== *)

(** ** JavaScript values and completions *)

Module JS.

Inductive error : Type :=
  | SyntaxError
  | TypeError
  | Error (msg : string).

(** The outcome of evaluating a statement list: a value, or a thrown
    exception. *)
Inductive completion (A : Type) : Type :=
  | Normal (a : A)
  | Throw (e : error).
Global Arguments Normal {A} a.
Global Arguments Throw {A} e.

Global Instance completion_ret : MRet completion := λ A a, Normal a.
Global Instance completion_bind : MBind completion := λ A B f c,
  match c with
  | Normal a => f a
  | Throw e => Throw e
  end.
Global Instance completion_fmap : FMap completion := λ A B f c,
  match c with
  | Normal a => Normal (f a)
  | Throw e => Throw e
  end.

(** [try { c } catch (e) { h e }] *)
Definition try_catch {A} (c : completion A) (h : error → completion A)
  : completion A :=
  match c with
  | Normal a => Normal a
  | Throw e => h e
  end.

(** Everything [JSON.parse] can return. *)
Inductive value : Type :=
  | VNull
  | VBool (b : bool)
  | VNum (n : Z)
  | VStr (s : string)
  | VArr (l : list value)
  | VObj (o : gmap string value).

(** [ToBoolean]; [None] is [undefined]. *)
Definition truthy (v : option value) : bool :=
  match v with
  | None | Some VNull => false
  | Some (VBool b) => b
  | Some (VNum n) => negb (n =? 0)%Z
  | Some (VStr s) => negb (String.eqb s "")
  | Some (VArr _) | Some (VObj _) => true
  end.

Definition string_truthy (s : string) : bool := negb (String.eqb s "").

(** [a === b] for two values read out of parsed JSON documents.  Primitives
    compare by value.  Arrays and objects compare by reference, and
    [JSON.parse] builds a tree without sharing, so two of them read from
    two different entries are never the same object. *)
Definition strict_equals (a b : option value) : bool :=
  match a, b with
  | None, None => true
  | Some VNull, Some VNull => true
  | Some (VBool x), Some (VBool y) => Bool.eqb x y
  | Some (VNum x), Some (VNum y) => (x =? y)%Z
  | Some (VStr x), Some (VStr y) => String.eqb x y
  | _, _ => false
  end.

(** [v.k] for a property name [k] that no prototype defines (pid,
    meetingName, ...): a TypeError on [null], the own property of an
    object, [undefined] on every other value. *)
Definition get (v : value) (k : string) : completion (option value) :=
  match v with
  | VNull => Throw TypeError
  | VObj o => Normal (o !! k)
  | _ => Normal None
  end.

(** [Array.isArray] *)
Definition isArray (v : value) : bool :=
  match v with VArr _ => true | _ => false end.

(** [arr.push(x)], returning the array after the push; calling [push] on
    anything that is not an array is a TypeError. *)
Definition push (arr x : value) : completion value :=
  match arr with
  | VArr l => Normal (VArr (l ++ [x]))
  | _ => Throw TypeError
  end.

(** [[...v]]: arrays and strings are iterable, the rest is a TypeError. *)
Definition spread (v : value) : completion (list value) :=
  match v with
  | VArr l => Normal l
  | VStr s => Normal ((λ c, VStr (String c "")) <$> String.list_ascii_of_string s)
  | _ => Throw TypeError
  end.

(** WhiteSpace and LineTerminator code units below 256. *)
Definition isWhiteSpace (c : ascii) : bool :=
  match c with
  | "009" | "010" | "011" | "012" | "013" | " " | "160" => true
  | _ => false
  end%char.

Fixpoint trimStart (s : string) : string :=
  match s with
  | String c s' => if isWhiteSpace c then trimStart s' else s
  | "" => ""
  end.

Fixpoint trimEnd (s : string) : string :=
  match s with
  | "" => ""
  | String c s' =>
      match trimEnd s' with
      | "" => if isWhiteSpace c then "" else String c ""
      | t => String c t
      end
  end.

(** [String.prototype.trim] *)
Definition trim (s : string) : string := trimEnd (trimStart s).

(** The value of a decimal digit. *)
Definition digit_value (c : ascii) : option N :=
  let n := N_of_ascii c in
  if (48 <=? n)%N && (n <=? 57)%N then Some (n - 48)%N else None.

Definition isDigit (c : ascii) : bool :=
  bool_decide (is_Some (digit_value c)).

(** The longest run of digits at the head of [s], read to base ten on top
    of [acc], and what follows it. *)
Fixpoint parse_digits (acc : N) (s : string) : N * string :=
  match s with
  | String c s' =>
      match digit_value c with
      | Some d => parse_digits (10 * acc + d) s'
      | None => (acc, s)
      end
  | "" => (acc, "")
  end.

Definition starts_with_digit (s : string) : bool :=
  match s with
  | String c _ => isDigit c
  | "" => false
  end.

(** ** Numbers

    A Number of the code is a double.  The ones met here hold an integer,
    an infinity or NaN; [Finite z] is the double whose value is exactly the
    integer [z]. *)
Inductive number : Type :=
  | NaN
  | Finite (z : Z)
  | PosInfinity
  | NegInfinity.

(** The double nearest to a positive integer, ties going to the even
    significand.  Integers below 2^53 are doubles themselves; from there on
    a double has 53 significant bits. *)
Definition nearest_double (z : Z) : Z :=
  if (z <? 2 ^ 53)%Z then z
  else
    let e := (Z.log2 z - 52)%Z in
    let q := (z / 2 ^ e)%Z in
    let r := (z mod 2 ^ e)%Z in
    let half := (2 ^ (e - 1))%Z in
    let q' := if (r <? half)%Z then q
              else if (half <? r)%Z then (q + 1)%Z
              else if Z.even q then q else (q + 1)%Z in
    (q' * 2 ^ e)%Z.

(** The Number value of an integer: what is nearer to 2^1024 than to the
    largest double is an infinity. *)
Definition to_Number (z : Z) : number :=
  let m := nearest_double (Z.abs z) in
  if (2 ^ 1024 <=? m)%Z
  then if (z <? 0)%Z then NegInfinity else PosInfinity
  else Finite (Z.sgn z * m).

(** The sign and the digits of [parseInt(s, 10)] as an integer: blanks are
    skipped, a sign is read, then the longest run of digits; [None] when no
    digit is there. *)
Definition parseInt_mathInt (s : string) : option Z :=
  let digits (t : string) : option Z :=
    if starts_with_digit t then Some (Z.of_N (parse_digits 0 t).1)
    else None in
  match trimStart s with
  | String c t =>
      if Ascii.eqb c "-" then Z.opp <$> digits t
      else if Ascii.eqb c "+" then digits t
      else digits (String c t)
  | "" => None
  end.

(** [parseInt(s, 10)]: NaN without a digit, else the Number value of the
    integer read.  (Past twenty significant digits the standard allows an
    engine a less exact result; this is the exact one.) *)
Definition parseInt (s : string) : number :=
  match parseInt_mathInt s with
  | Some z => to_Number z
  | None => NaN
  end.

(** [s.replace(/\D/g, '')] *)
Fixpoint strip_non_digits (s : string) : string :=
  match s with
  | String c s' =>
      if isDigit c then String c (strip_non_digits s')
      else strip_non_digits s'
  | "" => ""
  end.

(** [Boolean(n)] for a number: NaN and zero are falsy. *)
Definition Boolean_number (n : number) : bool :=
  match n with
  | NaN => false
  | Finite z => negb (z =? 0)%Z
  | PosInfinity | NegInfinity => true
  end.

Definition number_max (a b : number) : number :=
  match a, b with
  | NaN, _ | _, NaN => NaN
  | PosInfinity, _ | _, PosInfinity => PosInfinity
  | NegInfinity, x | x, NegInfinity => x
  | Finite x, Finite y => Finite (Z.max x y)
  end.

(** [Math.max(...l)]; it is -Infinity without arguments. *)
Definition Math_max (l : list number) : number :=
  foldr number_max NegInfinity l.

(** [a + b]: the exact sum, rounded to a double. *)
Definition number_add (a b : number) : number :=
  match a, b with
  | NaN, _ | _, NaN => NaN
  | PosInfinity, NegInfinity | NegInfinity, PosInfinity => NaN
  | PosInfinity, _ | _, PosInfinity => PosInfinity
  | NegInfinity, _ | _, NegInfinity => NegInfinity
  | Finite x, Finite y => to_Number (x + y)
  end.

(** For [k] digits and the double [z] of [dz] decimal digits: the integer
    [s] of [k] digits, with its decimal exponent [n], for which [s] times
    [10^(n-k)] is nearest to [z] and still has [z] as its nearest double,
    when there is one. *)
Definition digits_candidate (z dz k : Z) : option (Z * Z) :=
  let p := (10 ^ (dz - k))%Z in
  let s0 := (z / p)%Z in
  let lo := (nearest_double (s0 * p) =? z)%Z in
  let hi := ((s0 + 1 <? 10 ^ k) && (nearest_double ((s0 + 1) * p) =? z))%Z in
  if lo && hi then
    let dlo := (z - s0 * p)%Z in
    let dhi := ((s0 + 1) * p - z)%Z in
    if (dlo <? dhi)%Z then Some (s0, dz)
    else if (dhi <? dlo)%Z then Some ((s0 + 1)%Z, dz)
    else if Z.even s0 then Some (s0, dz) else Some ((s0 + 1)%Z, dz)
  else if lo then Some (s0, dz)
  else if hi then Some ((s0 + 1)%Z, dz)
  else if ((k =? 1) && (nearest_double (10 ^ dz) =? z))%Z
       then Some (1%Z, (dz + 1)%Z)
  else None.

(** The digits [s], their number [k] and the exponent [n] that
    Number::toString prints for a double above 2^53: the fewest digits
    that still identify the double (seventeen always do). *)
Definition shortest_digits (z : Z) : Z * Z * Z :=
  let dz := Z.of_nat (String.length (pretty (Z.to_N z))) in
  let found :=
    omap (λ k, if (k <=? dz)%Z
               then (λ sn : Z * Z, (sn.1, k, sn.2)) <$> digits_candidate z dz k
               else None)
         (Z.of_nat <$> seq 1 17) in
  match found with
  | r :: _ => r
  | [] => (z, dz, dz)
  end.

Fixpoint zeros (n : nat) : string :=
  match n with
  | O => ""
  | S n' => String "0" (zeros n')
  end.

(** [`${x}`] for a Number.  An integer up to 2^53 prints as its decimal
    digits; above, the shortest digits that identify the double are
    printed, padded with zeros below 10^21 and in exponent notation from
    there on. *)
Definition Number_toString (x : number) : string :=
  match x with
  | NaN => "NaN"
  | PosInfinity => "Infinity"
  | NegInfinity => "-Infinity"
  | Finite z =>
      let sign := if (z <? 0)%Z then "-" else "" in
      let a := Z.abs z in
      if (a <=? 2 ^ 53)%Z then sign +:+ pretty (Z.to_N a)
      else
        let '(s, k, n) := shortest_digits a in
        let digits := pretty (Z.to_N s) in
        if (n <=? 21)%Z then sign +:+ digits +:+ zeros (Z.to_nat (n - k))
        else
          sign
          +:+ match digits with
              | String d "" => String d ""
              | String d rest => String d ("." +:+ rest)
              | "" => ""
              end
          +:+ "e+" +:+ pretty (Z.to_N (n - 1))
  end.

(** [Number.MAX_SAFE_INTEGER]: below it, integer arithmetic on doubles is
    exact. *)
Definition MAX_SAFE_INTEGER : Z := 2 ^ 53 - 1.

(** [[...new Set(l)]]: first occurrences, in order. *)
Fixpoint Set_values {A} `{EqDecision A} (l : list A) : list A :=
  match l with
  | [] => []
  | x :: l' => x :: filter (λ y, y ≠ x) (Set_values l')
  end.

(** [l.sort()] on strings: ascending in code-unit order. *)
Definition sort (l : list string) : list string := merge_sort String.le l.

End JS.
Export JS.

(** ** auth.js *)

Module User.
Record t : Type := mk { pid : string; password : string; role : string }.
End User.

(** [users.find(u => String(u.pid).trim() === String(pid).trim() &&
    u.password === password) || null]; [String] is the identity on
    strings and a record is truthy, so [|| null] only turns "not found"
    into [null]. *)
Definition validateUser (pid password : string) (users : list User.t)
  : option User.t :=
  find (λ u, String.eqb (trim (User.pid u)) (trim pid)
             && String.eqb (User.password u) password) users.

Definition credentials_match (pid password : string) (u : User.t) : Prop :=
  trim (User.pid u) = trim pid ∧ User.password u = password.

(** The user directory of the README (data/users.json). *)
Definition directory : list User.t :=
  [ User.mk "admin001" "admin123" "admin";
    User.mk "12345678" "senator1" "senator" ].

(** ** The platform: JSON and localStorage *)

(** [JSON.parse] and [JSON.stringify] of the host.  [JSON.parse] throws a
    SyntaxError on text that is not JSON. *)
Class JSON : Type := {
  JSON_parse : string → completion value;
  JSON_stringify : value → string;
}.

(** What the code relies on: a value survives a round trip through text,
    and the text of a value is never the empty string (so it is truthy). *)
Class JSONLaws (J : JSON) : Prop := {
  JSON_parse_stringify v : JSON_parse (JSON_stringify v) = Normal v;
  JSON_stringify_nonempty v : JSON_stringify v ≠ "";
}.

(** localStorage: string keys, string items; [getItem] of a missing key is
    [null].  The store is taken to have room for every item written. *)
Abbreviation localStorage := (gmap string string).

Definition getItem (ls : localStorage) (key : string) : option string :=
  ls !! key.
Definition setItem (ls : localStorage) (key item : string) : localStorage :=
  <[key := item]> ls.
Definition removeItem (ls : localStorage) (key : string) : localStorage :=
  delete key ls.

(** ** utils.js *)

Module GOV_STORAGE_KEYS.
Definition SESSION : string := "vt_gov_session".
Definition SUBMISSIONS : string := "vt_gov_submissions".
Definition MEETINGS_OVERRIDE : string := "vt_gov_meetings_override".
Definition ASSIGNMENTS_OVERRIDE : string := "vt_gov_assignments_override".
End GOV_STORAGE_KEYS.

Section utils.
Context `{J : JSON}.

(** [try { const stored = getItem(SUBMISSIONS);
          return stored ? JSON.parse(stored) : []; } catch { return []; }] *)
Definition getSubmissions (ls : localStorage) : completion value :=
  try_catch
    (match getItem ls GOV_STORAGE_KEYS.SUBMISSIONS with
     | Some stored =>
         if string_truthy stored then JSON_parse stored
         else Normal (VArr [])
     | None => Normal (VArr [])
     end)
    (λ _, Normal (VArr [])).

(** [const submissions = getSubmissions(); submissions.push(submission);
    setItem(SUBMISSIONS, JSON.stringify(submissions));] *)
Definition saveSubmission (submission : value) (ls : localStorage)
  : completion localStorage :=
  submissions ← getSubmissions ls;
  submissions ← push submissions submission;
  Normal (setItem ls GOV_STORAGE_KEYS.SUBMISSIONS
            (JSON_stringify submissions)).

(** The body of the two override readers, which utils.js writes out once
    per key:
    [try { const override = getItem(key);
           if (override) return JSON.parse(override); } catch {}
     return fromFile;] *)
Definition getWithOverride (key : string) (ls : localStorage)
    (fromFile : value) : completion value :=
  override ←
    try_catch
      (match getItem ls key with
       | Some override =>
           if string_truthy override then Some <$> JSON_parse override
           else Normal None
       | None => Normal None
       end)
      (λ _, Normal None);
  Normal (default fromFile override).

Definition getMeetingsWithOverride (ls : localStorage)
    (meetingsFromFile : value) : completion value :=
  getWithOverride GOV_STORAGE_KEYS.MEETINGS_OVERRIDE ls meetingsFromFile.

Definition saveMeetingsOverride (meetings : value) (ls : localStorage)
  : localStorage :=
  setItem ls GOV_STORAGE_KEYS.MEETINGS_OVERRIDE (JSON_stringify meetings).

Definition getAssignmentsWithOverride (ls : localStorage)
    (assignmentsFromFile : value) : completion value :=
  getWithOverride GOV_STORAGE_KEYS.ASSIGNMENTS_OVERRIDE ls
    assignmentsFromFile.

Definition saveAssignmentsOverride (assignments : value)
    (ls : localStorage) : localStorage :=
  setItem ls GOV_STORAGE_KEYS.ASSIGNMENTS_OVERRIDE
    (JSON_stringify assignments).

End utils.

(** No usable override under [key]: nothing was ever written there, or
    what is there makes [JSON.parse] throw. *)
Definition no_usable_override `{J : JSON} (key : string) (ls : localStorage)
  : Prop :=
  getItem ls key = None ∨
  ∃ blob e, getItem ls key = Some blob ∧ JSON_parse blob = Throw e.

(** ** Records of the data files *)

Module Meeting.
Record t : Type := mk {
  id : option string;
  committee : option string;
  name : option string;
  date : option string;
  time : option string;
  location : option string;
}.
End Meeting.

Module Assignment.
Record t : Type := mk { pid : string; committees : option (list string) }.
End Assignment.

Module Session.
Record t : Type := mk { pid : string; role : string; timestamp : Z }.
End Session.

Module File.
Record t : Type := mk { name : string; size : Z }.
End File.

Module Submission.
Record t : Type := mk {
  pid : string;
  committeeName : option string;
  meetingName : option string;
  meetingDate : option string;
  meetingId : option string;
  timestamp : string;
  attendanceConfirmed : bool;
  notes : string;
  attachmentName : option string;
  attachmentData : option string;
}.
End Submission.

(** A property that is [undefined] is left out by [JSON.stringify]. *)
Definition set_field (k : string) (v : option value) (o : gmap string value)
  : gmap string value :=
  match v with
  | Some x => <[k := x]> o
  | None => o
  end.

Definition Meeting_to_value (m : Meeting.t) : value :=
  VObj (set_field "id" (VStr <$> Meeting.id m)
       (set_field "committee" (VStr <$> Meeting.committee m)
       (set_field "name" (VStr <$> Meeting.name m)
       (set_field "date" (VStr <$> Meeting.date m)
       (set_field "time" (VStr <$> Meeting.time m)
       (set_field "location" (VStr <$> Meeting.location m) ∅)))))).

Definition Assignment_to_value (a : Assignment.t) : value :=
  VObj (set_field "pid" (Some (VStr (Assignment.pid a)))
       (set_field "committees"
          ((λ cs, VArr (VStr <$> cs)) <$> Assignment.committees a) ∅)).

Definition Submission_fields (s : Submission.t) : gmap string value :=
  set_field "pid" (Some (VStr (Submission.pid s)))
    (set_field "committeeName" (VStr <$> Submission.committeeName s)
    (set_field "meetingName" (VStr <$> Submission.meetingName s)
    (set_field "meetingDate" (VStr <$> Submission.meetingDate s)
    (set_field "meetingId" (VStr <$> Submission.meetingId s)
    (set_field "timestamp" (Some (VStr (Submission.timestamp s)))
    (set_field "attendanceConfirmed"
       (Some (VBool (Submission.attendanceConfirmed s)))
    (set_field "notes" (Some (VStr (Submission.notes s)))
    (set_field "attachmentName" (VStr <$> Submission.attachmentName s)
    (set_field "attachmentData" (VStr <$> Submission.attachmentData s)
       ∅))))))))).

Definition Submission_to_value (s : Submission.t) : value :=
  VObj (Submission_fields s).

(** The identity of a submission for deduplication. *)
Definition Submission_key (s : Submission.t)
  : string * option string * string :=
  (Submission.pid s, Submission.meetingId s, Submission.timestamp s).

(** ** utils.js: generateMeetingId *)

(** [const ids = meetings.map(m => parseInt((m.id || '').replace(/\D/g, ''),
    10)).filter(Boolean);
    const max = ids.length ? Math.max(...ids) : 0;
    return `m${max + 1}`;] *)
Definition meeting_ids (meetings : list Meeting.t) : list number :=
  filter (λ n, Boolean_number n = true)
    ((λ m, parseInt (strip_non_digits (default "" (Meeting.id m))))
     <$> meetings).

Definition generateMeetingId (meetings : list Meeting.t) : string :=
  let ids := meeting_ids meetings in
  let max := match ids with [] => Finite 0 | _ => Math_max ids end in
  "m" +:+ Number_toString (number_add max (Finite 1)).

(** The integer suffixes of the ids: for each meeting the integer that its
    id's digits spell, as it is written and before any rounding; ids
    without a digit and ids that spell zero are left out. *)
Definition id_suffixes (meetings : list Meeting.t) : list Z :=
  omap (λ m,
          z ← parseInt_mathInt (strip_non_digits (default "" (Meeting.id m)));
          if (z =? 0)%Z then None else Some z)
       meetings.

(** The largest of a list of suffixes; 0 for none. *)
Definition max_suffix (l : list Z) : Z :=
  match l with
  | [] => 0
  | x :: l' => foldr Z.max x l'
  end.

(** One plus the largest integer suffix. *)
Definition next_suffix (meetings : list Meeting.t) : Z :=
  (max_suffix (id_suffixes meetings) + 1)%Z.

(** The id with integer suffix [n]. *)
Definition id_of_suffix (n : N) : string := "m" +:+ pretty n.

(** ** dashboard.js: handleSubmission *)

(** Max attachment size: 2MB. *)
Definition MAX_ATTACHMENT_BYTES : Z := 2 * 1024 * 1024.

(** An alert element put at the top of the form and removed again after
    [timeout] milliseconds. *)
Inductive notice : Type :=
  | Notice (className text : string) (timeout : Z).

Definition new_submission (session : Session.t) (meeting : Meeting.t)
    (attendance : bool) (notes now : string) : Submission.t :=
  Submission.mk (Session.pid session) (Meeting.committee meeting)
    (Meeting.name meeting) (Meeting.date meeting) (Meeting.id meeting)
    now attendance notes None None.

(** [submission.attachmentName = file.name;
    submission.attachmentData = reader.result;] *)
Definition with_attachment (submission : Submission.t) (file : File.t)
    (result : string) : Submission.t :=
  Submission.mk (Submission.pid submission)
    (Submission.committeeName submission) (Submission.meetingName submission)
    (Submission.meetingDate submission) (Submission.meetingId submission)
    (Submission.timestamp submission)
    (Submission.attendanceConfirmed submission) (Submission.notes submission)
    (Some (File.name file)) (Some result).

(** What the submit handler leaves behind: the store, the notices it put
    up, and the file read it started (the submission waiting for it). *)
Record submit_outcome : Type := SubmitOutcome {
  out_store : localStorage;
  out_notices : list notice;
  out_reading : option (Submission.t * File.t);
}.

Section dashboard.
Context `{J : JSON}.

Definition saveAndConfirm (submission : value) (ls : localStorage)
  : completion (localStorage * list notice) :=
  ls' ← saveSubmission submission ls;
  Normal (ls',
          [Notice "alert alert-success" "Submission received. Thank you!" 5000]).

(** [file] is [fileInput?.files?.[0]], [now] is
    [new Date().toISOString()]. *)
Definition handleSubmission (session : Session.t) (meeting : Meeting.t)
    (attendance : bool) (notes now : string) (file : option File.t)
    (ls : localStorage) : completion submit_outcome :=
  let submission := new_submission session meeting attendance notes now in
  match file with
  | Some file =>
      if (File.size file >? MAX_ATTACHMENT_BYTES)%Z then
        Normal (SubmitOutcome ls
                  [Notice "alert alert-info"
                     "File too large. Maximum size is 2MB." 4000]
                  None)
      else Normal (SubmitOutcome ls [] (Some (submission, file)))
  | None =>
      '(ls', notices) ← saveAndConfirm (Submission_to_value submission) ls;
      Normal (SubmitOutcome ls' notices None)
  end.

(** [reader.onload] of the read that [handleSubmission] started; [result]
    is the data URL of the file. *)
Definition reader_onload (submission : Submission.t) (file : File.t)
    (result : string) (ls : localStorage)
  : completion (localStorage * list notice) :=
  saveAndConfirm (Submission_to_value (with_attachment submission file result))
    ls.

End dashboard.

(** ** admin.js: importSubmissions *)

(** [m.pid === s.pid && m.meetingId === s.meetingId &&
    m.timestamp === s.timestamp] *)
Definition is_duplicate (s m : value) : completion bool :=
  mp ← get m "pid"; sp ← get s "pid";
  if strict_equals mp sp then
    mi ← get m "meetingId"; si ← get s "meetingId";
    if strict_equals mi si then
      mt ← get m "timestamp"; st ← get s "timestamp";
      Normal (strict_equals mt st)
    else Normal false
  else Normal false.

(** [l.some(f)] *)
Fixpoint Array_some (f : value → completion bool) (l : list value)
  : completion bool :=
  match l with
  | [] => Normal false
  | m :: l' =>
      f m ≫= λ b : bool, if b then Normal true else Array_some f l'
  end.

(** [s.pid && s.meetingName && s.timestamp] as a condition. *)
Definition has_required_fields (s : value) : completion bool :=
  pid ← get s "pid";
  if truthy pid then
    meetingName ← get s "meetingName";
    if truthy meetingName then
      timestamp ← get s "timestamp";
      Normal (truthy timestamp)
    else Normal false
  else Normal false.

(** The body of the [forEach]. *)
Definition import_entry (merged : list value) (s : value)
  : completion (list value) :=
  has_required_fields s ≫= λ ok : bool,
  if ok then
    Array_some (is_duplicate s) merged ≫= λ duplicate : bool,
    Normal (if duplicate then merged else merged ++ [s])
  else Normal merged.

Fixpoint import_entries (merged imported : list value)
  : completion (list value) :=
  match imported with
  | [] => Normal merged
  | s :: rest => merged' ← import_entry merged s; import_entries merged' rest
  end.

Definition import_alert (importedCount totalCount : nat) : string :=
  "Imported " +:+ pretty importedCount +:+ " submissions. Total: "
  +:+ pretty totalCount.

Definition invalid_file_alert : string :=
  "Invalid file. Please select a valid submissions JSON export.".

Section admin_import.
Context `{J : JSON}.

(** The [try] block up to the merge: the parsed file and the merged
    collection. *)
Definition import_merge (result : string) (ls : localStorage)
  : completion (list value * list value) :=
  imported ← JSON_parse result;
  match imported with
  | VArr imported =>
      existing ← getSubmissions ls;
      merged ← spread existing;
      merged ← import_entries merged imported;
      Normal (imported, merged)
  | _ => Throw (Error "Invalid format")
  end.

(** [reader.onload] of [importSubmissions]: the store afterwards and the
    text of the alert. *)
Definition importSubmissions (result : string) (ls : localStorage)
  : localStorage * string :=
  match import_merge result ls with
  | Normal (imported, merged) =>
      (setItem ls GOV_STORAGE_KEYS.SUBMISSIONS
         (JSON_stringify (VArr merged)),
       import_alert (length imported) (length merged))
  | Throw _ => (ls, invalid_file_alert)
  end.

End admin_import.

(** The key fields of an entry are flat: absent, or a primitive. *)
Definition primitive (v : option value) : Prop :=
  match v with
  | Some (VArr _) | Some (VObj _) => False
  | _ => True
  end.

Definition flat_keys (s : value) : Prop :=
  match s with
  | VObj o =>
      primitive (o !! "pid") ∧ primitive (o !! "meetingId")
      ∧ primitive (o !! "timestamp")
  | _ => True
  end.

(** ** admin.js: the assignment editor and the meeting editor *)

Section admin_edit.
Context `{J : JSON}.

(** The click handler of "Add Assignment"; the two strings are the values
    of the input boxes. *)
Definition addAssignment (pidInput committeeInput : string)
    (assignments : list Assignment.t) (ls : localStorage)
  : list Assignment.t * localStorage :=
  let pid := trim pidInput in
  let committee := trim committeeInput in
  if negb (string_truthy pid) || negb (string_truthy committee)
  then (assignments, ls)
  else
    let assignments' :=
      match list_find (λ a : Assignment.t, Assignment.pid a = pid) assignments with
      | Some (idx, a) =>
          let committees := default [] (Assignment.committees a) in
          if bool_decide (committee ∈ committees) then assignments
          else <[idx := Assignment.mk (Assignment.pid a)
                          (Some (sort (committees ++ [committee])))]>
                 assignments
      | None => assignments ++ [Assignment.mk pid (Some [committee])]
      end in
    (assignments',
     saveAssignmentsOverride (VArr (Assignment_to_value <$> assignments')) ls).

(** The click handler of "Remove Assignment". *)
Definition removeAssignment (pidInput committeeInput : string)
    (assignments : list Assignment.t) (ls : localStorage)
  : list Assignment.t * localStorage :=
  let pid := trim pidInput in
  let committee := trim committeeInput in
  if negb (string_truthy pid) || negb (string_truthy committee)
  then (assignments, ls)
  else
    match list_find (λ a : Assignment.t, Assignment.pid a = pid) assignments with
    | Some (idx, a) =>
        let committees :=
          filter (λ c, c ≠ committee) (default [] (Assignment.committees a)) in
        let assignments' :=
          match committees with
          | _ :: _ =>
              <[idx := Assignment.mk (Assignment.pid a) (Some committees)]>
                assignments
          | [] => delete idx assignments
          end in
        (assignments',
         saveAssignmentsOverride
           (VArr (Assignment_to_value <$> assignments')) ls)
    | None => (assignments, ls)
    end.

(** The click handler of "Add New Meeting"; [today] is
    [new Date().toISOString().slice(0, 10)]. *)
Definition addMeeting (today : string) (meetings : list Meeting.t)
    (ls : localStorage) : list Meeting.t * localStorage :=
  let newId := generateMeetingId meetings in
  let committees := Set_values (Meeting.committee <$> meetings) in
  let committee :=
    match committees !! 0 with
    | Some (Some c) => if string_truthy c then c else "New Committee"
    | _ => "New Committee"
    end in
  let meetings' :=
    meetings ++ [Meeting.mk (Some newId) (Some committee) (Some "New Meeting")
                   (Some today) (Some "") (Some "")] in
  (meetings', saveMeetingsOverride (VArr (Meeting_to_value <$> meetings')) ls).

End admin_edit.

(** One record per senator, and no committee twice in a record. *)
Definition assignments_ok (assignments : list Assignment.t) : Prop :=
  NoDup (Assignment.pid <$> assignments) ∧
  Forall (λ a, NoDup (default [] (Assignment.committees a))) assignments.

Definition committees_of (pid : string) (assignments : list Assignment.t)
  : list string :=
  match list_find (λ a : Assignment.t, Assignment.pid a = pid) assignments with
  | Some (_, a) => default [] (Assignment.committees a)
  | None => []
  end.

(** ** auth.js: the base path and the session *)

(** [s.split('/')] *)
Fixpoint split_slash (s : string) : list string :=
  match s with
  | "" => [""]
  | String c s' =>
      if Ascii.eqb c "/" then "" :: split_slash s'
      else match split_slash s' with
           | part :: parts => String c part :: parts
           | [] => [String c ""]
           end
  end.

(** [s.includes('.')] *)
Fixpoint includes_dot (s : string) : bool :=
  match s with
  | "" => false
  | String c s' => Ascii.eqb c "." || includes_dot s'
  end.

(** [const pathParts = pathname.split('/').filter(Boolean);
    const last = pathParts[pathParts.length - 1];
    if (last && last.includes('.')) pathParts.pop();
    return pathParts.length ? '/' + pathParts.join('/') : '';]
    [pathname] is [window.location.pathname]. *)
Definition getBasePath (pathname : string) : string :=
  let pathParts := filter (λ part, string_truthy part = true)
                     (split_slash pathname) in
  let pathParts :=
    match last pathParts with
    | Some l =>
        if string_truthy l && includes_dot l then removelast pathParts
        else pathParts
    | None => pathParts
    end in
  match pathParts with
  | [] => ""
  | _ => "/" +:+ String.concat "/" pathParts
  end.

(** What a guarded page gets: the session, or a new [window.location.href]
    (and [null] for the caller). *)
Inductive auth_result : Type :=
  | Authorized (session : value)
  | Redirected (href : string).

Definition session_of (user : User.t) (now : Z) : value :=
  VObj {[ "pid" := VStr (User.pid user);
          "role" := VStr (User.role user);
          "timestamp" := VNum now ]}.

Section auth_session.
Context `{J : JSON}.

(** [now] is [Date.now()]. *)
Definition createSession (user : User.t) (now : Z) (ls : localStorage)
  : localStorage :=
  setItem ls GOV_STORAGE_KEYS.SESSION (JSON_stringify (session_of user now)).

(** [try { const stored = getItem(SESSION); if (!stored) return null;
          return JSON.parse(stored); } catch { return null; }] *)
Definition getSession (ls : localStorage) : completion value :=
  try_catch
    (match getItem ls GOV_STORAGE_KEYS.SESSION with
     | Some stored =>
         if string_truthy stored then JSON_parse stored else Normal VNull
     | None => Normal VNull
     end)
    (λ _, Normal VNull).

Definition clearSession (ls : localStorage) : localStorage :=
  removeItem ls GOV_STORAGE_KEYS.SESSION.

Definition redirectToLogin (pathname : string) : string :=
  getBasePath pathname +:+ "/index.html".

(** [requiredRole] is [None] for the default [null]. *)
Definition requireAuth (requiredRole : option string) (pathname : string)
    (ls : localStorage) : completion auth_result :=
  session ← getSession ls;
  if negb (truthy (Some session)) then
    Normal (Redirected (redirectToLogin pathname))
  else
    role ← get session "role";
    let mismatch :=
      match requiredRole with
      | Some required =>
          string_truthy required
          && negb (strict_equals role (Some (VStr required)))
      | None => false
      end in
    if mismatch then
      if strict_equals role (Some (VStr "admin"))
      then Normal (Redirected (getBasePath pathname +:+ "/admin.html"))
      else Normal (Redirected (getBasePath pathname +:+ "/dashboard.html"))
    else Normal (Authorized session).

End auth_session.

(** The directory parts [getBasePath] keeps. *)
Definition base_parts (pathname : string) : list string :=
  let pathParts := filter (λ part, string_truthy part = true)
                     (split_slash pathname) in
  match last pathParts with
  | Some l =>
      if string_truthy l && includes_dot l then removelast pathParts
      else pathParts
  | None => pathParts
  end.

(** A path segment: not empty and without a slash. *)
Fixpoint no_slash (s : string) : bool :=
  match s with
  | "" => true
  | String c s' => negb (Ascii.eqb c "/") && no_slash s'
  end.

Definition is_segment (s : string) : Prop :=
  s ≠ "" ∧ no_slash s = true.

(** ** dashboard.js: what a senator sees *)

(** [const assignment = assignments.find(a => String(a.pid) === String(pid));
    return assignment ? (assignment.committees || []) : [];] *)
Definition getAssignedCommittees (pid : string)
    (assignments : list Assignment.t) : list string :=
  match find (λ a, String.eqb (Assignment.pid a) pid) assignments with
  | Some assignment => default [] (Assignment.committees assignment)
  | None => []
  end.

(** [committees.includes(x)]; an [undefined] is in no list of strings. *)
Definition includes (committees : list string) (x : option string) : bool :=
  match x with
  | Some c => bool_decide (c ∈ committees)
  | None => false
  end.

(** [meetings.filter(m => committees.includes(m.committee))] *)
Definition filterMeetingsByCommittees (meetings : list Meeting.t)
    (committees : list string) : list Meeting.t :=
  filter (λ m, includes committees (Meeting.committee m) = true) meetings.

(** ** admin.js: the meeting editor *)

(** The [data-field] of an inline-edit input. *)
Inductive meeting_field : Type :=
  | field_committee
  | field_name
  | field_date
  | field_time
  | field_location.

(** [meeting[field] = value] *)
Definition set_meeting_field (field : meeting_field) (v : string)
    (m : Meeting.t) : Meeting.t :=
  match field with
  | field_committee =>
      Meeting.mk (Meeting.id m) (Some v) (Meeting.name m) (Meeting.date m)
        (Meeting.time m) (Meeting.location m)
  | field_name =>
      Meeting.mk (Meeting.id m) (Meeting.committee m) (Some v)
        (Meeting.date m) (Meeting.time m) (Meeting.location m)
  | field_date =>
      Meeting.mk (Meeting.id m) (Meeting.committee m) (Meeting.name m)
        (Some v) (Meeting.time m) (Meeting.location m)
  | field_time =>
      Meeting.mk (Meeting.id m) (Meeting.committee m) (Meeting.name m)
        (Meeting.date m) (Some v) (Meeting.location m)
  | field_location =>
      Meeting.mk (Meeting.id m) (Meeting.committee m) (Meeting.name m)
        (Meeting.date m) (Meeting.time m) (Some v)
  end.

(** [meeting[field]] *)
Definition get_meeting_field (field : meeting_field) (m : Meeting.t)
  : option string :=
  match field with
  | field_committee => Meeting.committee m
  | field_name => Meeting.name m
  | field_date => Meeting.date m
  | field_time => Meeting.time m
  | field_location => Meeting.location m
  end.

Section admin_meetings.
Context `{J : JSON}.

(** The [change] handler of an inline-edit input; [id] is the
    [data-meeting-id] of its row.
    [const meeting = meetings.find(m => m.id === id);
     if (meeting) { meeting[field] = value; saveMeetingsOverride(meetings); }] *)
Definition editMeeting (id : string) (field : meeting_field) (v : string)
    (meetings : list Meeting.t) (ls : localStorage)
  : list Meeting.t * localStorage :=
  match list_find (λ m : Meeting.t, Meeting.id m = Some id) meetings with
  | Some (idx, meeting) =>
      let meetings' := <[idx := set_meeting_field field v meeting]> meetings in
      (meetings',
       saveMeetingsOverride (VArr (Meeting_to_value <$> meetings')) ls)
  | None => (meetings, ls)
  end.

(** The [click] handler of a row's "Remove" button.
    [const newMeetings = meetings.filter(m => m.id !== id);
     saveMeetingsOverride(newMeetings);] *)
Definition deleteMeeting (id : string) (meetings : list Meeting.t)
    (ls : localStorage) : list Meeting.t * localStorage :=
  let newMeetings :=
    filter (λ m : Meeting.t, Meeting.id m ≠ Some id) meetings in
  (newMeetings,
   saveMeetingsOverride (VArr (Meeting_to_value <$> newMeetings)) ls).

End admin_meetings.

(** ** admin.js: the submissions table *)

(** [toLowerCase] on code units below 256: A-Z and the accented capitals
    of Latin-1 (all of 192..222 but the multiplication sign). *)
Definition toLowerCase_char (c : ascii) : ascii :=
  let n := N_of_ascii c in
  if ((65 <=? n) && (n <=? 90))%N then ascii_of_N (n + 32)
  else if ((192 <=? n) && (n <=? 222) && negb (n =? 215))%N
       then ascii_of_N (n + 32)
  else c.

Fixpoint toLowerCase (s : string) : string :=
  match s with
  | "" => ""
  | String c s' => String (toLowerCase_char c) (toLowerCase s')
  end.

(** [hay.includes(needle)] *)
Fixpoint String_includes (hay needle : string) : bool :=
  String.prefix needle hay
  || match hay with
     | String _ hay' => String_includes hay' needle
     | "" => false
     end.

(** One of the three filter steps:
    [if (f) filtered = filtered.filter(s =>
       String(field(s)).toLowerCase().includes(f.toLowerCase()));] *)
Definition filter_step (f : string) (field : Submission.t → string)
    (filtered : list Submission.t) : list Submission.t :=
  if string_truthy f then
    filter (λ s, String_includes (toLowerCase (field s)) (toLowerCase f)
                 = true) filtered
  else filtered.

(** The rows of [renderSubmissionsTable] for the values of the three
    filter boxes: pid, [committeeName || ''] and [meetingName || '']. *)
Definition filterSubmissions (filterPid filterCommittee filterMeeting : string)
    (submissions : list Submission.t) : list Submission.t :=
  let filtered := submissions in
  let filtered := filter_step filterPid Submission.pid filtered in
  let filtered :=
    filter_step filterCommittee
      (λ s, default "" (Submission.committeeName s)) filtered in
  filter_step filterMeeting
    (λ s, default "" (Submission.meetingName s)) filtered.




(** ** The calendar *)

Definition palette : list string :=
  [ "#861f41"; "#e87722"; "#2a9d8f"; "#457b9d"; "#7b2cbf"; "#ef476f";
    "#118ab2"; "#6a994e"; "#bc6c25"; "#3a86ff"; "#ff6b6b"; "#2b9348" ].

(** [colorMap[committee] = color] on a plain object: the key ["__proto__"]
    is the prototype setter, which ignores a string; every other key
    becomes an own property. *)
Definition set_color (committee color : string) (colorMap : gmap string string)
  : gmap string string :=
  if String.eqb committee "__proto__" then colorMap
  else <[committee := color]> colorMap.

(** [committees.forEach((committee, i) => { colorMap[committee] =
    palette[i % palette.length]; })], from index [i] on. *)
Fixpoint assign_colors (i : nat) (committees : list string)
    (colorMap : gmap string string) : gmap string string :=
  match committees with
  | [] => colorMap
  | committee :: rest =>
      assign_colors (S i) rest
        (set_color committee (default "" (palette !! (i mod length palette)))
           colorMap)
  end.

(** [meetings.map(m => m.committee).filter(Boolean)] *)
Definition committee_names (meetings : list Meeting.t) : list string :=
  omap (λ m, c ← Meeting.committee m;
             if string_truthy c then Some c else None) meetings.

(** [const committees = [...new Set(meetings.map(m => m.committee)
    .filter(Boolean))].sort(); const colorMap = {}; ...; return colorMap;] *)
Definition buildCommitteeColorMap (meetings : list Meeting.t)
  : gmap string string :=
  let committees := sort (Set_values (committee_names meetings)) in
  assign_colors 0 committees ∅.

(** [s.replace(/c/g, by)] for a single character [c]. *)
Fixpoint replace_char (c : ascii) (by_ : string) (s : string) : string :=
  match s with
  | "" => ""
  | String x s' =>
      if Ascii.eqb x c then by_ +:+ replace_char c by_ s'
      else String x (replace_char c by_ s')
  end.

(** [if (!text) return '';
    return String(text).replace(/&/g, '&amp;').replace(/</g, '&lt;')
      .replace(/>/g, '&gt;')] and then the same for the double quote and
    ['&quot;']. *)
Definition calendarEscapeHtml (text : string) : string :=
  if negb (string_truthy text) then ""
  else
    replace_char "034" "&quot;"
      (replace_char ">" "&gt;"
         (replace_char "<" "&lt;" (replace_char "&" "&amp;" text))).

(** What one character becomes. *)
Definition escape_html_char (c : ascii) : string :=
  if Ascii.eqb c "&" then "&amp;"
  else if Ascii.eqb c "<" then "&lt;"
  else if Ascii.eqb c ">" then "&gt;"
  else if Ascii.eqb c "034" then "&quot;"
  else String c "".

(** [c] occurs in [s]. *)
Fixpoint has_char (c : ascii) (s : string) : bool :=
  match s with
  | "" => false
  | String x s' => Ascii.eqb x c || has_char c s'
  end.

(** ** A reference implementation of JSON text

    The printer and the recursive-descent parser of the JSON grammar for the
    values above: integers for numbers, code units below 256 in strings.
    It instantiates the [JSON] interface, so the laws the code relies on
    are not vacuous and the examples below run on real JSON text. *)

Module RefJSON.


Definition quote : ascii := "034"%char.
Definition backslash : ascii := "092"%char.

Definition hex_digit (n : N) : ascii :=
  match n with
  | 0 => "0" | 1 => "1" | 2 => "2" | 3 => "3" | 4 => "4" | 5 => "5"
  | 6 => "6" | 7 => "7" | 8 => "8" | 9 => "9" | 10 => "a" | 11 => "b"
  | 12 => "c" | 13 => "d" | 14 => "e" | _ => "f"
  end%char%N.

Definition hex_value (c : ascii) : option N :=
  let n := N_of_ascii c in
  if (48 <=? n)%N && (n <=? 57)%N then Some (n - 48)%N
  else if (97 <=? n)%N && (n <=? 102)%N then Some (n - 87)%N
  else if (65 <=? n)%N && (n <=? 70)%N then Some (n - 55)%N
  else None.

Definition escape_char (c : ascii) : string :=
  if Ascii.eqb c quote then String backslash (String quote "")
  else if Ascii.eqb c backslash then String backslash (String backslash "")
  else if Ascii.eqb c "008" then String backslash "b"
  else if Ascii.eqb c "009" then String backslash "t"
  else if Ascii.eqb c "010" then String backslash "n"
  else if Ascii.eqb c "012" then String backslash "f"
  else if Ascii.eqb c "013" then String backslash "r"
  else if (N_of_ascii c <? 32)%N
  then String backslash
         (String "u" (String "0" (String "0"
           (String (hex_digit (N_of_ascii c / 16))
             (String (hex_digit (N_of_ascii c mod 16)) "")))))
  else String c "".

Fixpoint escape (s : string) : string :=
  match s with
  | "" => ""
  | String c s' => escape_char c +:+ escape s'
  end.

Definition quoted (s : string) : string :=
  String quote (escape s +:+ String quote "").

(** The character a one-letter escape stands for. *)
Definition unescape (e : ascii) : option ascii :=
  if Ascii.eqb e quote then Some quote
  else if Ascii.eqb e backslash then Some backslash
  else if Ascii.eqb e "/" then Some "/"%char
  else if Ascii.eqb e "b" then Some "008"%char
  else if Ascii.eqb e "t" then Some "009"%char
  else if Ascii.eqb e "n" then Some "010"%char
  else if Ascii.eqb e "f" then Some "012"%char
  else if Ascii.eqb e "r" then Some "013"%char
  else None.

Definition hex4 (h1 h2 h3 h4 : ascii) : option ascii :=
  a ← hex_value h1; b ← hex_value h2; c ← hex_value h3; d ← hex_value h4;
  let n := (((a * 16 + b) * 16 + c) * 16 + d)%N in
  if (n <? 256)%N then Some (ascii_of_N n) else None.

(** The characters after an opening quote, up to the closing one. *)
Fixpoint parse_chars (s : string) : option (string * string) :=
  match s with
  | "" => None
  | String c s' =>
      if Ascii.eqb c quote then Some ("", s')
      else if Ascii.eqb c backslash then
        match s' with
        | String e s'' =>
            if Ascii.eqb e "u" then
              match s'' with
              | String h1 (String h2 (String h3 (String h4 s3))) =>
                  c ← hex4 h1 h2 h3 h4;
                  prod_map (String c) id <$> parse_chars s3
              | _ => None
              end
            else
              c ← unescape e;
              prod_map (String c) id <$> parse_chars s''
        | "" => None
        end
      else if (N_of_ascii c <? 32)%N then None
      else prod_map (String c) id <$> parse_chars s'
  end.


Definition member_text (k text : string) : string :=
  quoted k +:+ ":" +:+ text.

Fixpoint stringify (v : value) : string :=
  match v with
  | VNull => "null"
  | VBool true => "true"
  | VBool false => "false"
  | VNum n => pretty n
  | VStr s => quoted s
  | VArr l => "[" +:+ String.concat "," (stringify <$> l) +:+ "]"
  | VObj o =>
      "{" +:+ String.concat ","
                (map_fold (λ k x acc, member_text k (stringify x) :: acc) [] o)
          +:+ "}"
  end.

Definition is_ws (c : ascii) : bool :=
  Ascii.eqb c " " || Ascii.eqb c "009" || Ascii.eqb c "010"
  || Ascii.eqb c "013".

Fixpoint skip_ws (s : string) : string :=
  match s with
  | String c s' => if is_ws c then skip_ws s' else s
  | "" => ""
  end.

(** int = "0" | digit1-9 digits *)
Definition parse_nat (s : string) : option (N * string) :=
  match s with
  | String c s' =>
      match digit_value c with
      | Some 0%N => if starts_with_digit s' then None else Some (0%N, s')
      | Some d => Some (parse_digits d s')
      | None => None
      end
  | "" => None
  end.

(** A fraction or an exponent is outside the integer fragment. *)
Definition no_fraction (s : string) : bool :=
  match s with
  | String c _ =>
      negb (Ascii.eqb c "." || Ascii.eqb c "e" || Ascii.eqb c "E")
  | "" => true
  end.

Definition parse_number (s : string) : option (Z * string) :=
  '(n, rest) ←
    match s with
    | String c s' =>
        if Ascii.eqb c "-"
        then prod_map (Z.opp ∘ Z.of_N) id <$> parse_nat s'
        else prod_map Z.of_N id <$> parse_nat s
    | "" => None
    end;
  if no_fraction rest then Some (n, rest) else None.

Fixpoint expect (lit : string) (s : string) : option string :=
  match lit, s with
  | "", _ => Some s
  | String a lit', String b s' =>
      if Ascii.eqb a b then expect lit' s' else None
  | String _ _, "" => None
  end.

Definition object_of_members (l : list (string * value)) : value :=
  VObj (list_to_map (reverse l)).

Fixpoint parse_value (fuel : nat) (s : string) : option (value * string) :=
  match fuel with
  | O => None
  | S fuel =>
      match skip_ws s with
      | String c s' =>
          if Ascii.eqb c "n" then pair VNull <$> expect "ull" s'
          else if Ascii.eqb c "t" then pair (VBool true) <$> expect "rue" s'
          else if Ascii.eqb c "f" then pair (VBool false) <$> expect "alse" s'
          else if Ascii.eqb c quote then prod_map VStr id <$> parse_chars s'
          else if Ascii.eqb c "[" then
            match skip_ws s' with
            | String c' r =>
                if Ascii.eqb c' "]" then Some (VArr [], r)
                else prod_map VArr id <$> parse_elements fuel s'
            | "" => None
            end
          else if Ascii.eqb c "{" then
            match skip_ws s' with
            | String c' r =>
                if Ascii.eqb c' "}" then Some (VObj ∅, r)
                else prod_map object_of_members id <$> parse_members fuel s'
            | "" => None
            end
          else prod_map VNum id <$> parse_number (String c s')
      | "" => None
      end
  end
with parse_elements (fuel : nat) (s : string)
  : option (list value * string) :=
  match fuel with
  | O => None
  | S fuel =>
      '(v, r) ← parse_value fuel s;
      match skip_ws r with
      | String c r' =>
          if Ascii.eqb c "," then prod_map (cons v) id <$> parse_elements fuel r'
          else if Ascii.eqb c "]" then Some ([v], r')
          else None
      | "" => None
      end
  end
with parse_members (fuel : nat) (s : string)
  : option (list (string * value) * string) :=
  match fuel with
  | O => None
  | S fuel =>
      match skip_ws s with
      | String c s1 =>
          if Ascii.eqb c quote then
            '(k, r1) ← parse_chars s1;
            match skip_ws r1 with
            | String c2 r2 =>
                if Ascii.eqb c2 ":" then
                  '(v, r3) ← parse_value fuel r2;
                  match skip_ws r3 with
                  | String c4 r4 =>
                      if Ascii.eqb c4 ","
                      then prod_map (cons (k, v)) id <$> parse_members fuel r4
                      else if Ascii.eqb c4 "}" then Some ([(k, v)], r4)
                      else None
                  | "" => None
                  end
                else None
            | "" => None
            end
          else None
      | "" => None
      end
  end.

Definition parse (s : string) : option value :=
  '(v, r) ← parse_value (String.length s) s;
  if String.eqb (skip_ws r) "" then Some v else None.


(** Fuel that [parse_value] needs for the text of a value. *)
Fixpoint vsize (v : value) : nat :=
  match v with
  | VArr l => S (foldr (λ x n, S (vsize x + n)) 0 l)
  | VObj o => S (map_fold (λ _ x n, S (vsize x + n)) 0 o)
  | _ => 1
  end.

(** What may follow a value inside a document. *)
Definition delimited (rest : string) : bool :=
  match rest with
  | "" => true
  | String c _ => Ascii.eqb c "," || Ascii.eqb c "]" || Ascii.eqb c "}"
  end.

Definition number_start (c : ascii) : bool :=
  bool_decide (is_Some (digit_value c)) || Ascii.eqb c "-".

Definition members_text (ms : list (string * value)) : list string :=
  (λ kx, member_text kx.1 (stringify kx.2)) <$> ms.

Definition esize (l : list value) : nat :=
  foldr (λ x n, S (vsize x + n)) 0 l.
Definition msize (ms : list (string * value)) : nat :=
  foldr (λ kx n, S (vsize kx.2 + n)) 0 ms.

End RefJSON.

Definition ref_json : JSON := {|
  JSON_parse s :=
    match RefJSON.parse s with
    | Some v => Normal v
    | None => Throw SyntaxError
    end;
  JSON_stringify := RefJSON.stringify;
|}.

Definition key_triple (o : gmap string value)
  : option value * option value * option value :=
  (o !! "pid", o !! "meetingId", o !! "timestamp").

(** ** Sample data *)

Definition sample_entry : gmap string value :=
  {[ "pid" := VStr "12345678";
     "meetingName" := VStr "Commission on Faculty Affairs Meeting";
     "meetingId" := VStr "m1";
     "timestamp" := VStr "2025-02-27T15:30:00.000Z" ]}.

Definition sample_submission : Submission.t :=
  Submission.mk "12345678" (Some "Commission on Faculty Affairs")
    (Some "Commission on Faculty Affairs Meeting") (Some "2025-02-27")
    (Some "m1") "2025-02-27T15:30:00.000Z" true "Quorum reached." None None.

(** The export of a store that holds [sample_submission] twice. *)
Definition sample_export : string :=
  RefJSON.stringify
    (VArr (Submission_to_value <$> [sample_submission; sample_submission])).

(** An export with the same submission in it twice. *)
Definition sample_file : string :=
  RefJSON.stringify (VArr [VObj sample_entry; VObj sample_entry]).

(** An entry whose pid is null; everything else is in order. *)
Definition no_pid_entry : gmap string value :=
  <["pid" := VNull]> sample_entry.

(** An entry that only lacks meetingId. *)
Definition no_meetingId_entry : gmap string value :=
  delete "meetingId" sample_entry.

Definition sample_session : Session.t :=
  Session.mk "12345678" "senator" 1740670200000.

Definition sample_meeting : Meeting.t :=
  Meeting.mk (Some "m1") (Some "Commission on Faculty Affairs")
    (Some "Commission on Faculty Affairs Meeting") (Some "2025-02-27")
    (Some "10:30 AM - 12:00 PM") (Some "TBD").

(** The assignment list of the README (data/assignments.json). *)
Definition sample_assignments : list Assignment.t :=
  [ Assignment.mk "12345678"
      (Some ["Academic Affairs Committee"; "Student Life Committee"]) ].

(** A store whose meetings override is not JSON. *)
Definition corrupt_store : localStorage :=
  {[ GOV_STORAGE_KEYS.MEETINGS_OVERRIDE := "{oops" ]}.

(* ===================================================================== *)
(** * Part II: properties                                                 *)
(* ===================================================================== *)

(** ** The reference JSON implementation satisfies the laws *)

Module RefJSONFacts.
Import RefJSON.
Lemma string_app_nil_l (t : string) : "" +:+ t = t.
Proof. done. Qed.
Lemma string_app_cons (c : ascii) (s t : string) :
  String c s +:+ t = String c (s +:+ t).
Proof. done. Qed.
Lemma string_app_assoc (s t u : string) : (s +:+ t) +:+ u = s +:+ (t +:+ u).
Proof. induction s as [|c s IH]; [done|]. by rewrite !string_app_cons, IH. Qed.
Lemma string_app_length (s t : string) :
  String.length (s +:+ t) = String.length s + String.length t.
Proof.
  induction s as [|c s IH]; [done|]. rewrite string_app_cons. simpl. by rewrite IH.
Qed.

(** *** Strings *)

Lemma parse_chars_escape_char (c : ascii) (t : string) :
  parse_chars (escape_char c +:+ t)
  = prod_map (String c) id <$> parse_chars t.
Proof. destruct c as [[] [] [] [] [] [] [] []]; reflexivity. Qed.

Lemma parse_chars_escape (s rest : string) :
  parse_chars (escape s +:+ String quote rest) = Some (s, rest).
Proof.
  induction s as [|c s IH]; [done|].
  simpl escape. by rewrite string_app_assoc, parse_chars_escape_char, IH.
Qed.

Lemma quoted_app (s rest : string) :
  quoted s +:+ rest = String quote (escape s +:+ String quote rest).
Proof. unfold quoted. by rewrite string_app_cons, string_app_assoc. Qed.

(** *** Numbers *)

Lemma digit_value_pretty_N_char (d : N) :
  (d < 10)%N → digit_value (pretty_N_char d) = Some d.
Proof.
  intros Hd.
  assert (d = 0 ∨ d = 1 ∨ d = 2 ∨ d = 3 ∨ d = 4 ∨ d = 5 ∨ d = 6 ∨ d = 7
          ∨ d = 8 ∨ d = 9)%N as Hc by lia.
  repeat destruct Hc as [->|Hc]; try reflexivity. by subst.
Qed.

Lemma parse_digits_pretty_N_go (x : N) :
  ∃ k : N, ∀ acc s,
    parse_digits acc (pretty_N_go x s) = parse_digits (acc * 10 ^ k + x) s.
Proof.
  induction (N.lt_wf_0 x) as [x _ IH].
  destruct (decide (x = 0)%N) as [->|Hx].
  { exists 0%N. intros acc s. rewrite pretty_N_go_0. f_equal. lia. }
  destruct (IH (x `div` 10)%N) as [k Hk]; [apply N.div_lt; lia|].
  exists (k + 1)%N. intros acc s.
  rewrite pretty_N_go_step by lia. rewrite Hk. simpl parse_digits.
  rewrite digit_value_pretty_N_char by (apply N.mod_lt; lia).
  f_equal. rewrite N.pow_add_r.
  pose proof (N.div_mod x 10). lia.
Qed.

Lemma pretty_N_go_app (x : N) (s r : string) :
  pretty_N_go x s +:+ r = pretty_N_go x (s +:+ r).
Proof.
  revert s. induction (N.lt_wf_0 x) as [x _ IH]; intros s.
  destruct (decide (x = 0)%N) as [->|Hx]; [by rewrite !pretty_N_go_0|].
  rewrite (pretty_N_go_step x s), (pretty_N_go_step x (s +:+ r)) by lia.
  rewrite IH by (apply N.div_lt; lia). reflexivity.
Qed.

Lemma pretty_N_go_head (x : N) (s : string) :
  (0 < x)%N →
  ∃ c t d, pretty_N_go x s = String c t ∧ digit_value c = Some d ∧ d ≠ 0%N.
Proof.
  revert s. induction (N.lt_wf_0 x) as [x _ IH]; intros s Hx.
  rewrite pretty_N_go_step by done.
  destruct (decide (x `div` 10 = 0)%N) as [Hd|Hd].
  - rewrite Hd, pretty_N_go_0. eexists _, _, _. split; [done|].
    split; [apply digit_value_pretty_N_char, N.mod_lt; lia|].
    pose proof (N.div_mod x 10). lia.
  - apply IH; [apply N.div_lt; lia | by apply N.neq_0_lt_0].  
Qed.

Lemma parse_digits_stop (acc : N) (s : string) :
  starts_with_digit s = false → parse_digits acc s = (acc, s).
Proof.
  destruct s as [|c s]; [done|]. simpl.
  unfold isDigit. destruct (digit_value c); [|done].
  intros H. by rewrite bool_decide_eq_false in H; destruct H.
Qed.

Lemma parse_nat_pretty (x : N) (rest : string) :
  starts_with_digit rest = false →
  parse_nat (pretty x +:+ rest) = Some (x, rest).
Proof.
  intros Hrest. unfold pretty, pretty_N.
  destruct (decide (x = 0)%N) as [->|Hx].
  { rewrite string_app_cons, string_app_nil_l. simpl. by rewrite Hrest. }
  rewrite pretty_N_go_app, string_app_nil_l.
  destruct (pretty_N_go_head x rest) as (c & t & d & Hgo & Hc & Hd); [lia|].
  destruct (parse_digits_pretty_N_go x) as [k Hk].
  specialize (Hk 0%N rest). rewrite Hgo in Hk. simpl in Hk. rewrite Hc in Hk.
  rewrite Hgo. simpl. rewrite Hc.
  replace (10 * 0 + d)%N with d in Hk by lia.
  replace (0 * 10 ^ k + x)%N with x in Hk by lia.
  rewrite (parse_digits_stop _ rest) in Hk by done.
  destruct d; [done|]. by rewrite Hk.
Qed.

Lemma pretty_N_head (x : N) (rest : string) :
  ∃ c t d, pretty x +:+ rest = String c t ∧ digit_value c = Some d.
Proof.
  unfold pretty, pretty_N. destruct (decide (x = 0)%N) as [->|Hx].
  { by exists "0"%char, rest, 0%N. }
  rewrite pretty_N_go_app.
  destruct (pretty_N_go_head x ("" +:+ rest)) as (c & t & d & ? & ? & ?);
    [lia|]. eauto.
Qed.

Lemma digit_not_minus (c : ascii) (d : N) :
  digit_value c = Some d → Ascii.eqb c "-" = false.
Proof. destruct (Ascii.eqb_spec c "-") as [->|]; [done|done]. Qed.

Lemma pretty_Z_app (n : Z) (rest : string) :
  pretty n +:+ rest =
  match n with
  | Z0 => pretty 0%N +:+ rest
  | Zpos p => pretty (Npos p) +:+ rest
  | Zneg p => String "-" (pretty (Npos p) +:+ rest)
  end.
Proof. destruct n; try done. Qed.

Lemma parse_number_pretty (n : Z) (rest : string) :
  starts_with_digit rest = false → no_fraction rest = true →
  parse_number (pretty n +:+ rest) = Some (n, rest).
Proof.
  intros Hd Hf. rewrite pretty_Z_app. unfold parse_number.
  destruct n as [|p|p].
  - destruct (pretty_N_head 0 rest) as (c & t & d & Hh & Hc).
    pose proof (parse_nat_pretty 0 rest Hd) as Hp. rewrite Hh in Hp |- *.
    rewrite (digit_not_minus _ _ Hc), Hp. simpl. by rewrite Hf.
  - destruct (pretty_N_head (Npos p) rest) as (c & t & d & Hh & Hc).
    pose proof (parse_nat_pretty (Npos p) rest Hd) as Hp.
    rewrite Hh in Hp |- *.
    rewrite (digit_not_minus _ _ Hc), Hp. simpl. by rewrite Hf.
  - rewrite Ascii.eqb_refl, (parse_nat_pretty _ _ Hd). simpl. by rewrite Hf.
Qed.

Lemma pretty_Z_head (n : Z) (rest : string) :
  ∃ c t, pretty n +:+ rest = String c t ∧ number_start c = true.
Proof.
  rewrite pretty_Z_app. destruct n as [|p|p].
  - destruct (pretty_N_head 0 rest) as (c & t & d & -> & Hc).
    exists c, t. split; [done|]. unfold number_start. by rewrite Hc.
  - destruct (pretty_N_head (Npos p) rest) as (c & t & d & -> & Hc).
    exists c, t. split; [done|]. unfold number_start. by rewrite Hc.
  - by eexists _, _.
Qed.

(** *** Values *)

Ltac norm_app :=
  repeat (rewrite ?string_app_cons, ?string_app_nil_l, ?string_app_assoc).

Lemma delimited_skip_ws (rest : string) :
  delimited rest = true → skip_ws rest = rest.
Proof.
  destruct rest as [|c r]; [done|]. simpl.
  destruct (Ascii.eqb_spec c ",") as [->|]; [done|].
  destruct (Ascii.eqb_spec c "]") as [->|]; [done|].
  destruct (Ascii.eqb_spec c "}") as [->|]; done.
Qed.

Lemma delimited_no_digit (rest : string) :
  delimited rest = true → starts_with_digit rest = false.
Proof.
  destruct rest as [|c r]; [done|]. simpl.
  destruct (Ascii.eqb_spec c ",") as [->|]; [done|].
  destruct (Ascii.eqb_spec c "]") as [->|]; [done|].
  destruct (Ascii.eqb_spec c "}") as [->|]; done.
Qed.

Lemma delimited_no_fraction (rest : string) :
  delimited rest = true → no_fraction rest = true.
Proof.
  destruct rest as [|c r]; [done|]. simpl.
  destruct (Ascii.eqb_spec c ",") as [->|]; [done|].
  destruct (Ascii.eqb_spec c "]") as [->|]; [done|].
  destruct (Ascii.eqb_spec c "}") as [->|]; done.
Qed.

Lemma number_start_dispatch (c : ascii) :
  number_start c = true →
  is_ws c = false ∧ Ascii.eqb c "n" = false ∧ Ascii.eqb c "t" = false
  ∧ Ascii.eqb c "f" = false ∧ Ascii.eqb c quote = false
  ∧ Ascii.eqb c "[" = false ∧ Ascii.eqb c "{" = false.
Proof.
  destruct c as [[] [] [] [] [] [] [] []]; vm_compute; intros H;
    try discriminate H; by repeat split.
Qed.

Lemma parse_value_Some_head fuel s p :
  parse_value fuel s = Some p →
  ∃ c r, skip_ws s = String c r ∧ Ascii.eqb c "]" = false.
Proof.
  destruct fuel as [|fuel]; [done|]. simpl.
  destruct (skip_ws s) as [|c r]; [done|]. intros H.
  exists c, r. split; [done|].
  destruct (Ascii.eqb_spec c "]") as [->|]; [|done].
  vm_compute in H. discriminate H.
Qed.


Lemma stringify_arr (l : list value) (rest : string) :
  stringify (VArr l) +:+ rest
  = String "[" (String.concat "," (stringify <$> l) +:+ String "]" rest).
Proof. simpl. by norm_app. Qed.

Lemma stringify_obj (o : gmap string value) (rest : string) :
  stringify (VObj o) +:+ rest
  = String "{" (String.concat "," (members_text (map_to_list o))
                +:+ String "}" rest).
Proof.
  simpl. norm_app. do 3 f_equal.
  rewrite map_fold_foldr. unfold members_text.
  induction (map_to_list o) as [|[k x] ms IH]; [done|].
  simpl. by rewrite IH.
Qed.

Lemma vsize_arr l : vsize (VArr l) = S (esize l).
Proof. done. Qed.

Lemma vsize_obj o : vsize (VObj o) = S (msize (map_to_list o)).
Proof.
  simpl. f_equal. rewrite map_fold_foldr. unfold msize.
  induction (map_to_list o) as [|[k x] ms IH]; [done|].
  simpl. by rewrite IH.
Qed.

Lemma vsize_pos v : 1 ≤ vsize v.
Proof. destruct v; simpl; lia. Qed.

Lemma object_of_members_to_list (o : gmap string value) :
  object_of_members (map_to_list o) = VObj o.
Proof.
  unfold object_of_members. f_equal.
  rewrite <- (list_to_map_to_list o) at 2.
  apply list_to_map_proper.
  - rewrite fmap_reverse, reverse_Permutation. apply NoDup_fst_map_to_list.
  - apply reverse_Permutation.
Qed.

Lemma concat_cons2 (sep x y : string) (l : list string) :
  String.concat sep (x :: y :: l) = x +:+ sep +:+ String.concat sep (y :: l).
Proof. done. Qed.

Lemma parse_elements_more f s x r :
  parse_value f s = Some (x, String "," r) →
  parse_elements (S f) s = prod_map (cons x) id <$> parse_elements f r.
Proof. intros H. simpl. by rewrite H. Qed.

Lemma parse_elements_last f s x r :
  parse_value f s = Some (x, String "]" r) →
  parse_elements (S f) s = Some ([x], r).
Proof. intros H. simpl. by rewrite H. Qed.

Lemma parse_members_more f t k r2 x r4 :
  parse_chars t = Some (k, String ":" r2) →
  parse_value f r2 = Some (x, String "," r4) →
  parse_members (S f) (String quote t)
  = prod_map (cons (k, x)) id <$> parse_members f r4.
Proof. intros H1 H2. simpl. rewrite H1. simpl. by rewrite H2. Qed.

Lemma parse_members_last f t k r2 x r4 :
  parse_chars t = Some (k, String ":" r2) →
  parse_value f r2 = Some (x, String "}" r4) →
  parse_members (S f) (String quote t) = Some ([(k, x)], r4).
Proof. intros H1 H2. simpl. rewrite H1. simpl. by rewrite H2. Qed.

Lemma parse_value_arr f s c r :
  skip_ws s = String c r → Ascii.eqb c "]" = false →
  parse_value (S f) (String "[" s) = prod_map VArr id <$> parse_elements f s.
Proof. intros H1 H2. simpl. by rewrite H1, H2. Qed.

Lemma parse_value_obj f t :
  parse_value (S f) (String "{" (String quote t))
  = prod_map object_of_members id <$> parse_members f (String quote t).
Proof. done. Qed.

Section induction_step.
Variable fuel0 : nat.
Hypothesis IH : ∀ f, f < fuel0 → ∀ v rest,
  vsize v ≤ f → delimited rest = true →
  parse_value f (stringify v +:+ rest) = Some (v, rest).

Lemma parse_elements_stringify l : ∀ f rest,
  l ≠ [] → f < fuel0 → esize l ≤ f →
  parse_elements f (String.concat "," (stringify <$> l) +:+ String "]" rest)
  = Some (l, rest).
Proof.
  induction l as [|x l IHl]; [done|]. intros f rest _ Hf Hsz.
  destruct f as [|f]; [simpl in Hsz; lia|].
  unfold esize in Hsz. simpl in Hsz. fold (esize l) in Hsz.
  destruct l as [|y l].
  - apply parse_elements_last. simpl. apply IH; (done || lia).
  - rewrite !fmap_cons, concat_cons2. norm_app.
    erewrite parse_elements_more; last (apply IH; (done || lia)).
    rewrite <- fmap_cons, IHl by (done || lia). done.
Qed.

Lemma parse_members_stringify ms : ∀ f rest,
  ms ≠ [] → f < fuel0 → msize ms ≤ f →
  parse_members f
    (String.concat "," (members_text ms) +:+ String "}" rest)
  = Some (ms, rest).
Proof.
  induction ms as [|[k x] ms IHms]; [done|]. intros f rest _ Hf Hsz.
  destruct f as [|f]; [simpl in Hsz; lia|].
  unfold msize in Hsz. simpl in Hsz. fold (msize ms) in Hsz.
  unfold members_text in *.
  destruct ms as [|[k' y] ms].
  - simpl String.concat. unfold member_text. simpl fst; simpl snd.
    rewrite !string_app_assoc, quoted_app.
    eapply parse_members_last; [apply parse_chars_escape|].
    norm_app. apply IH; (done || lia).
  - rewrite !fmap_cons, concat_cons2. unfold member_text at 1.
    simpl fst; simpl snd.
    rewrite !string_app_assoc, quoted_app.
    erewrite parse_members_more;
      [|apply parse_chars_escape|norm_app; apply IH; (done || lia)].
    pose proof (IHms f rest ltac:(done) ltac:(lia) ltac:(lia)) as Hm.
    rewrite fmap_cons in Hm. simpl fst in Hm; simpl snd in Hm.
    rewrite Hm. done.
Qed.
End induction_step.

Lemma parse_value_stringify fuel : ∀ v rest,
  vsize v ≤ fuel → delimited rest = true →
  parse_value fuel (stringify v +:+ rest) = Some (v, rest).
Proof.
  induction (lt_wf fuel) as [fuel _ IH]. intros v rest Hsz Hrest.
  destruct fuel as [|fuel]; [pose proof (vsize_pos v); lia|].
  destruct v as [|[]|n|s|l|o].
  - reflexivity.
  - reflexivity.
  - reflexivity.
  - destruct (pretty_Z_head n rest) as (c & t & Hh & Hc).
    pose proof (parse_number_pretty n rest (delimited_no_digit _ Hrest)
                  (delimited_no_fraction _ Hrest)) as Hp.
    simpl stringify. rewrite Hh in Hp |- *.
    apply number_start_dispatch in Hc as (H1 & H2 & H3 & H4 & H5 & H6 & H7).
    simpl. rewrite H1, H2, H3, H4, H5, H6, H7, Hp. done.
  - simpl stringify. rewrite quoted_app. simpl.
    by rewrite parse_chars_escape.
  - rewrite stringify_arr. rewrite vsize_arr in Hsz.
    destruct l as [|x l]; [done|].
    pose proof (parse_elements_stringify (S fuel) IH (x :: l) fuel rest)
      as He.
    assert (∃ p, parse_value fuel
              (String.concat "," (stringify <$> x :: l) +:+ String "]" rest)
              = Some p) as [p Hp].
    { unfold esize in Hsz. simpl in Hsz. destruct l as [|y l].
      - simpl. rewrite IH; [eauto|lia|lia|done].
      - rewrite !fmap_cons, concat_cons2. norm_app.
        rewrite IH; [eauto|lia|lia|done]. }
    apply parse_value_Some_head in Hp as (c & r & Hc & Hne).
    erewrite parse_value_arr by done.
    rewrite He by (done || lia). done.
  - rewrite stringify_obj. rewrite vsize_obj in Hsz.
    rewrite <- (object_of_members_to_list o).
    destruct (map_to_list o) as [|[k x] ms] eqn:Hms; [done|].
    pose proof (parse_members_stringify (S fuel) IH ((k, x) :: ms) fuel rest)
      as He.
    assert (∃ t, String.concat "," (members_text ((k, x) :: ms))
                 +:+ String "}" rest = String quote t) as [t Ht].
    { unfold members_text. destruct ms as [|[k' y] ms].
      - simpl String.concat. unfold member_text.
        rewrite !string_app_assoc, quoted_app. eauto.
      - rewrite !fmap_cons, concat_cons2. unfold member_text at 1.
        rewrite !string_app_assoc, quoted_app. eauto. }
    rewrite Ht, parse_value_obj, <- Ht, He by (done || lia). done.
Qed.

(** The text of a value is at least as long as the fuel its parse needs. *)
Lemma concat_length (ts : list string) :
  foldr (λ t n, S (String.length t + n)) 0 ts
  ≤ S (String.length (String.concat "," ts)).
Proof.
  induction ts as [|t ts IHts]; [simpl; lia|].
  destruct ts as [|u ts]; [simpl; lia|].
  rewrite concat_cons2, !string_app_length. simpl in *. lia.
Qed.

Lemma foldr_size_mono {A} (f : A → nat) (g : A → string) (l : list A) :
  (∀ x, x ∈ l → f x ≤ String.length (g x)) →
  foldr (λ x n, S (f x + n)) 0 l
  ≤ foldr (λ t n, S (String.length t + n)) 0 (g <$> l).
Proof.
  induction l as [|x l IHl]; intros Hl; [done|].
  simpl. apply le_n_S, Nat.add_le_mono; [apply Hl; left|].
  apply IHl. intros y Hy. apply Hl. by right.
Qed.

Lemma concat_length_elems (l : list value) :
  (∀ x, x ∈ l → vsize x ≤ String.length (stringify x)) →
  esize l ≤ S (String.length (String.concat "," (stringify <$> l))).
Proof.
  intros Hl. etrans; [|apply concat_length]. by apply foldr_size_mono.
Qed.

Lemma quoted_length (k : string) : 2 ≤ String.length (quoted k).
Proof. unfold quoted. simpl. rewrite string_app_length. simpl. lia. Qed.

Lemma member_text_length (k text : string) :
  String.length text ≤ String.length (member_text k text).
Proof. unfold member_text. rewrite !string_app_length. lia. Qed.

Lemma concat_length_members (ms : list (string * value)) :
  (∀ kx, kx ∈ ms → vsize kx.2 ≤ String.length (stringify kx.2)) →
  msize ms ≤ S (String.length (String.concat "," (members_text ms))).
Proof.
  intros Hl. etrans; [|apply concat_length].
  apply (foldr_size_mono (λ kx, vsize kx.2)). intros kx Hkx.
  etrans; [by apply Hl|]. apply member_text_length.
Qed.

Lemma esize_elem (l : list value) (x : value) : x ∈ l → vsize x < esize l.
Proof.
  induction 1 as [x l|x y l _ IH]; unfold esize; simpl; fold (esize l); lia.
Qed.

Lemma msize_elem (ms : list (string * value)) kx :
  kx ∈ ms → vsize kx.2 < msize ms.
Proof.
  induction 1 as [x l|x y l _ IH]; unfold msize; simpl; fold (msize l); lia.
Qed.

Lemma vsize_le_length (v : value) : vsize v ≤ String.length (stringify v).
Proof.
  remember (vsize v) as n eqn:Hn.
  revert v Hn. induction (lt_wf n) as [n _ IH]. intros v ->.
  destruct v as [|[]|z|s|l|o]; try (simpl; lia).
  - destruct (pretty_Z_head z "") as (c & t & Hh & _).
    simpl. replace (pretty z) with (pretty z +:+ "")
      by (clear; induction (pretty z) as [|? ? IHs]; [done|];
          by rewrite string_app_cons, IHs).
    rewrite Hh. simpl. lia.
  - assert (Hc : esize l
                 ≤ S (String.length (String.concat "," (stringify <$> l)))).
    { apply concat_length_elems. intros x Hx. eapply IH; [|done].
      rewrite vsize_arr. pose proof (esize_elem l x Hx). lia. }
    rewrite vsize_arr. etrans; [apply le_n_S, Hc|].
    simpl stringify. rewrite !string_app_length. simpl. lia.
  - assert (Hc : msize (map_to_list o)
                 ≤ S (String.length
                        (String.concat "," (members_text (map_to_list o))))).
    { apply concat_length_members. intros kx Hx. eapply IH; [|done].
      rewrite vsize_obj. pose proof (msize_elem _ kx Hx). lia. }
    rewrite vsize_obj. etrans; [apply le_n_S, Hc|].
    pose proof (stringify_obj o "") as Ht.
    apply (f_equal String.length) in Ht.
    rewrite string_app_length in Ht. simpl String.length in Ht at 2 3.
    rewrite string_app_length in Ht. simpl String.length in Ht at 3. lia.
Qed.

Lemma parse_stringify (v : value) : parse (stringify v) = Some v.
Proof.
  unfold parse.
  pose proof (parse_value_stringify (String.length (stringify v)) v ""
                (vsize_le_length v) eq_refl) as H.
  replace (stringify v +:+ "") with (stringify v) in H
    by (clear; induction (stringify v) as [|? ? IHs]; [done|];
        by rewrite string_app_cons, <- IHs).
  by rewrite H.
Qed.

Lemma stringify_nonempty (v : value) : stringify v ≠ "".
Proof.
  intros E. pose proof (vsize_le_length v) as H. rewrite E in H.
  pose proof (vsize_pos v). simpl in H. lia.
Qed.

End RefJSONFacts.

Lemma ref_json_laws : JSONLaws ref_json.
Proof.
  split.
  - intros v. simpl. by rewrite RefJSONFacts.parse_stringify.
  - apply RefJSONFacts.stringify_nonempty.
Qed.

Section auth.

Lemma validateUser_Some pid password users u :
  validateUser pid password users = Some u →
  u ∈ users ∧ credentials_match pid password u.
Proof.
  unfold validateUser. intros Hf. apply find_some in Hf as [Hin Hb].
  apply andb_prop in Hb as [H1 H2].
  apply String.eqb_eq in H1, H2.
  split; [by apply list_elem_of_In | by split].
Qed.

Lemma validateUser_None pid password users :
  validateUser pid password users = None →
  ∀ u, u ∈ users → ¬ credentials_match pid password u.
Proof.
  unfold validateUser. intros Hf u Hin [H1 H2].
  apply list_elem_of_In in Hin.
  pose proof (find_none _ _ Hf u Hin) as Hb. simpl in Hb.
  rewrite H1, H2, !String.eqb_refl in Hb. discriminate.
Qed.

End auth.

(** C5. [validateUser] returns a directory entry exactly when some entry has
    the same trimmed pid and the same password, untrimmed; the entry it
    returns is such an entry.  On the README directory the right credentials
    give the senator's record, a wrong password gives none, and a pid typed
    with blanks around it still matches. *)
Theorem validateUser_spec :
  (∀ pid password users,
     (∀ u, validateUser pid password users = Some u →
           u ∈ users ∧ trim (User.pid u) = trim pid
           ∧ User.password u = password) ∧
     ((∃ u, validateUser pid password users = Some u) ↔
      (∃ u, u ∈ users ∧ trim (User.pid u) = trim pid
            ∧ User.password u = password)) ∧
     (validateUser pid password users = None ↔
      ¬ ∃ u, u ∈ users ∧ trim (User.pid u) = trim pid
             ∧ User.password u = password)) ∧
  validateUser "12345678" "senator1" directory
    = Some (User.mk "12345678" "senator1" "senator") ∧
  validateUser "12345678" "wrong" directory = None ∧
  validateUser "  12345678 " "senator1" directory
    = Some (User.mk "12345678" "senator1" "senator") ∧
  validateUser "12345678" " senator1" directory = None.
Proof.
  split; [|by repeat split].
  intros pid password users.
  assert (Hsound : ∀ u, validateUser pid password users = Some u →
            u ∈ users ∧ trim (User.pid u) = trim pid
            ∧ User.password u = password).
  { intros u Hu. by apply validateUser_Some in Hu as [? [? ?]]. }
  assert (Hiff : (∃ u, validateUser pid password users = Some u) ↔
      (∃ u, u ∈ users ∧ trim (User.pid u) = trim pid
            ∧ User.password u = password)).
  { split.
    - intros [u Hu]. exists u. by apply Hsound.
    - intros (u & Hin & H1 & H2).
      destruct (validateUser pid password users) as [w|] eqn:Hv; [by exists w|].
      exfalso. by apply (validateUser_None _ _ _ Hv u Hin). }
  split; [done|]. split; [done|].
  rewrite <- Hiff. split.
  - intros Hn [u Hu]. congruence.
  - intros Hn. destruct (validateUser pid password users) eqn:Hv; [|done].
    exfalso. apply Hn. eauto.
Qed.

(** ** The override store *)

Section store.
Context `{J : JSON}.

Lemma string_truthy_true s : s ≠ "" → string_truthy s = true.
Proof.
  intros Hs. unfold string_truthy.
  destruct (String.eqb s "") eqn:E; [|done].
  by apply String.eqb_eq in E.
Qed.

Lemma getItem_setItem ls key item : getItem (setItem ls key item) key = Some item.
Proof. apply lookup_insert_eq. Qed.

Lemma getItem_setItem_ne ls key key' item :
  key ≠ key' → getItem (setItem ls key item) key' = getItem ls key'.
Proof. intros. by apply lookup_insert_ne. Qed.

(** The readers never throw. *)
Lemma getWithOverride_total key ls F :
  ∃ v, getWithOverride key ls F = Normal v.
Proof.
  unfold getWithOverride. destruct (getItem ls key) as [b|]; simpl; [|eauto].
  destruct (string_truthy b); simpl; [|eauto].
  destruct (JSON_parse b); simpl; eauto.
Qed.

Lemma getSubmissions_total ls : ∃ v, getSubmissions ls = Normal v.
Proof.
  unfold getSubmissions.
  destruct (getItem ls _) as [b|]; simpl; [|eauto].
  destruct (string_truthy b); simpl; [|eauto].
  destruct (JSON_parse b); simpl; eauto.
Qed.

Lemma getWithOverride_fallback key ls F :
  no_usable_override key ls → getWithOverride key ls F = Normal F.
Proof.
  unfold getWithOverride. intros [-> | (b & e & -> & Hb)]; [done|].
  destruct (string_truthy b); [|done]. by rewrite Hb.
Qed.

Lemma getSubmissions_fallback ls :
  no_usable_override GOV_STORAGE_KEYS.SUBMISSIONS ls →
  getSubmissions ls = Normal (VArr []).
Proof.
  unfold getSubmissions. intros [-> | (b & e & -> & Hb)]; [done|].
  destruct (string_truthy b); [|done]. by rewrite Hb.
Qed.

Context {L : JSONLaws J}.

Lemma getWithOverride_written key ls X F :
  getWithOverride key (setItem ls key (JSON_stringify X)) F = Normal X.
Proof.
  unfold getWithOverride. rewrite getItem_setItem.
  rewrite string_truthy_true by apply JSON_stringify_nonempty.
  by rewrite JSON_parse_stringify.
Qed.

Lemma getSubmissions_written ls X :
  getSubmissions
    (setItem ls GOV_STORAGE_KEYS.SUBMISSIONS (JSON_stringify X)) = Normal X.
Proof.
  unfold getSubmissions. rewrite getItem_setItem.
  rewrite string_truthy_true by apply JSON_stringify_nonempty.
  by rewrite JSON_parse_stringify.
Qed.

Lemma saveSubmission_array ls C s :
  getSubmissions ls = Normal (VArr C) →
  saveSubmission s ls
  = Normal (setItem ls GOV_STORAGE_KEYS.SUBMISSIONS
              (JSON_stringify (VArr (C ++ [s])))).
Proof. unfold saveSubmission. by intros ->. Qed.

End store.

(** C1. Override precedence.  After a write of [X] the reader of the same
    entity type returns exactly [X], whatever fallback it is given: for
    meetings, for assignments, and for the submissions collection, both when
    it is written whole (as the import does) and when [saveSubmission]
    appends to it. *)
Theorem override_precedence {J : JSON} {L : JSONLaws J} (ls : localStorage) (X F : value) :
  getMeetingsWithOverride (saveMeetingsOverride X ls) F = Normal X ∧
  getAssignmentsWithOverride (saveAssignmentsOverride X ls) F = Normal X ∧
  getSubmissions (setItem ls GOV_STORAGE_KEYS.SUBMISSIONS (JSON_stringify X))
    = Normal X ∧
  (∀ C s, getSubmissions ls = Normal (VArr C) →
     ∃ ls', saveSubmission s ls = Normal ls' ∧
            getSubmissions ls' = Normal (VArr (C ++ [s]))).
Proof.
  split; [apply getWithOverride_written|].
  split; [apply getWithOverride_written|].
  split; [apply getSubmissions_written|].
  intros C s HC. eexists. split; [by apply saveSubmission_array|].
  apply getSubmissions_written.
Qed.

Lemma override_precedence_witness :
  getMeetingsWithOverride (J := ref_json)
    (saveMeetingsOverride (J := ref_json) (VArr [VObj sample_entry]) ∅)
    (VArr [])
  = Normal (VArr [VObj sample_entry]).
Proof.
  exact (proj1 (override_precedence (L := ref_json_laws) ∅
                  (VArr [VObj sample_entry]) (VArr []))).
Defined.

(** C2. Fallback and lenient recovery.  When nothing was ever written for an
    entity type, or what is stored for it does not parse, the reader returns
    the fallback it was given, unchanged, as a normal result: the caller's
    [F] for meetings and assignments, the built-in empty list for
    submissions.  Whatever the store holds, no reader throws. *)
Theorem read_falls_back_without_override `{J : JSON} (ls : localStorage)
    (F : value) :
  (no_usable_override GOV_STORAGE_KEYS.MEETINGS_OVERRIDE ls →
   getMeetingsWithOverride ls F = Normal F) ∧
  (no_usable_override GOV_STORAGE_KEYS.ASSIGNMENTS_OVERRIDE ls →
   getAssignmentsWithOverride ls F = Normal F) ∧
  (no_usable_override GOV_STORAGE_KEYS.SUBMISSIONS ls →
   getSubmissions ls = Normal (VArr [])) ∧
  (∃ v, getMeetingsWithOverride ls F = Normal v) ∧
  (∃ v, getAssignmentsWithOverride ls F = Normal v) ∧
  (∃ v, getSubmissions ls = Normal v).
Proof.
  split; [apply getWithOverride_fallback|].
  split; [apply getWithOverride_fallback|].
  split; [apply getSubmissions_fallback|].
  split; [apply getWithOverride_total|].
  split; [apply getWithOverride_total|].
  apply getSubmissions_total.
Qed.

Lemma read_falls_back_without_override_witness :
  no_usable_override (J := ref_json) GOV_STORAGE_KEYS.MEETINGS_OVERRIDE
    corrupt_store ∧
  getMeetingsWithOverride (J := ref_json) corrupt_store
    (VArr [VObj sample_entry])
  = Normal (VArr [VObj sample_entry]).
Proof.
  assert (H : no_usable_override (J := ref_json)
                GOV_STORAGE_KEYS.MEETINGS_OVERRIDE corrupt_store).
  { right. exists "{oops", SyntaxError. split; reflexivity. }
  split; [exact H|].
  exact (proj1 (read_falls_back_without_override (J := ref_json)
                  corrupt_store (VArr [VObj sample_entry])) H).
Defined.

(** C7. Append-only record.  When the persisted collection is [C],
    [saveSubmission s] succeeds and leaves [C] with [s] appended at the end:
    every earlier record keeps its position, the length grows by one, the
    other storage keys are untouched, and recording [s] a second time stores
    it a second time. *)
Theorem saveSubmission_appends {J : JSON} {L : JSONLaws J} (ls : localStorage)
    (C : list value) (s : value) :
  getSubmissions ls = Normal (VArr C) →
  ∃ ls1 ls2,
    saveSubmission s ls = Normal ls1 ∧
    getSubmissions ls1 = Normal (VArr (C ++ [s])) ∧
    (∀ i x, C !! i = Some x → (C ++ [s]) !! i = Some x) ∧
    (C ++ [s]) !! List.length C = Some s ∧
    List.length (C ++ [s]) = S (List.length C) ∧
    (∀ key, key ≠ GOV_STORAGE_KEYS.SUBMISSIONS →
            getItem ls1 key = getItem ls key) ∧
    saveSubmission s ls1 = Normal ls2 ∧
    getSubmissions ls2 = Normal (VArr (C ++ [s; s])).
Proof.
  intros HC.
  pose proof (saveSubmission_array ls C s HC) as H1.
  set (ls1 := setItem ls GOV_STORAGE_KEYS.SUBMISSIONS
                (JSON_stringify (VArr (C ++ [s])))) in *.
  assert (Hr1 : getSubmissions ls1 = Normal (VArr (C ++ [s])))
    by apply getSubmissions_written.
  pose proof (saveSubmission_array ls1 _ s Hr1) as H2.
  eexists ls1, _. split; [done|]. split; [done|].
  split; [intros i x Hi; by apply lookup_app_l_Some|].
  split; [by rewrite list_lookup_middle|].
  split; [rewrite length_app; simpl; lia|].
  split; [intros key Hk; by apply getItem_setItem_ne|].
  split; [exact H2|].
  rewrite getSubmissions_written. by rewrite <- app_assoc.
Qed.

Lemma saveSubmission_appends_witness :
  getSubmissions (J := ref_json) ∅ = Normal (VArr []) ∧
  ∃ ls1,
    saveSubmission (J := ref_json) (VObj sample_entry) ∅ = Normal ls1 ∧
    getSubmissions (J := ref_json) ls1 = Normal (VArr [VObj sample_entry]).
Proof.
  assert (H : getSubmissions (J := ref_json) ∅ = Normal (VArr []))
    by reflexivity.
  split; [exact H|].
  destruct (saveSubmission_appends (L := ref_json_laws) ∅ []
              (VObj sample_entry) H)
    as (ls1 & ls2 & H1 & H2 & _).
  exists ls1. split; [exact H1 | exact H2].
Defined.

(** ** Import of submissions *)

Section import_facts.

Lemma strict_equals_refl (v : option value) :
  primitive v → strict_equals v v = true.
Proof.
  destruct v as [[|b|n|s|l|o]|]; simpl; try done.
  - intros _. by destruct b.
  - intros _. apply Z.eqb_refl.
  - intros _. apply String.eqb_refl.
Qed.

Lemma Array_some_app (f : value → completion bool) (M X : list value) :
  Array_some f (M ++ X)
  = Array_some f M ≫= λ b : bool, if b then Normal true else Array_some f X.
Proof.
  induction M as [|m M IH]; [done|]. simpl.
  destruct (f m) as [[]|e]; simpl; [done| |done]. exact IH.
Qed.

Lemma has_required_fields_true (s : value) :
  has_required_fields s = Normal true →
  ∃ o, s = VObj o ∧ truthy (o !! "pid") = true
       ∧ truthy (o !! "meetingName") = true
       ∧ truthy (o !! "timestamp") = true.
Proof.
  unfold has_required_fields. destruct s as [|b|n|t|l|o]; try done.
  simpl. intros H. exists o.
  destruct (truthy (o !! "pid")); [|done].
  destruct (truthy (o !! "meetingName")); [|done].
  destruct (truthy (o !! "timestamp")); [|done]. done.
Qed.

Lemma has_required_fields_obj (o : gmap string value) :
  has_required_fields (VObj o)
  = Normal (truthy (o !! "pid") && truthy (o !! "meetingName")
            && truthy (o !! "timestamp")).
Proof.
  unfold has_required_fields. simpl.
  destruct (truthy (o !! "pid")); [|done].
  by destruct (truthy (o !! "meetingName")).
Qed.

Lemma is_duplicate_obj (o m : gmap string value) :
  is_duplicate (VObj o) (VObj m)
  = Normal (strict_equals (m !! "pid") (o !! "pid")
            && strict_equals (m !! "meetingId") (o !! "meetingId")
            && strict_equals (m !! "timestamp") (o !! "timestamp")).
Proof.
  unfold is_duplicate. simpl.
  destruct (strict_equals (m !! "pid") (o !! "pid")); [|done].
  by destruct (strict_equals (m !! "meetingId") (o !! "meetingId")).
Qed.

(** The duplicate test looks at the key triple of the candidate only. *)
Lemma is_duplicate_triple (o o' : gmap string value) (m : value) :
  key_triple o = key_triple o' →
  is_duplicate (VObj o) m = is_duplicate (VObj o') m.
Proof.
  unfold key_triple, is_duplicate. intros [= H1 H2 H3]. simpl.
  by rewrite H1, H2, H3.
Qed.

Lemma Array_some_ext (f g : value → completion bool) (M : list value) :
  (∀ m, f m = g m) → Array_some f M = Array_some g M.
Proof.
  intros Hfg. induction M as [|m M IH]; [done|]. simpl.
  rewrite Hfg. destruct (g m) as [[]|]; simpl; auto.
Qed.

Lemma is_duplicate_same_triple (o m : gmap string value) :
  flat_keys (VObj o) → key_triple m = key_triple o →
  is_duplicate (VObj o) (VObj m) = Normal true.
Proof.
  intros (Hp & Hi & Ht) [= H1 H2 H3]. rewrite is_duplicate_obj.
  by rewrite H1, H2, H3, !strict_equals_refl.
Qed.

(** An entry whose key triple is already in a collection of records is a
    duplicate. *)
Lemma Array_some_duplicate (o : gmap string value)
    (objs : list (gmap string value)) :
  flat_keys (VObj o) → key_triple o ∈ key_triple <$> objs →
  Array_some (is_duplicate (VObj o)) (VObj <$> objs) = Normal true.
Proof.
  intros Hflat. induction objs as [|m objs IH]; simpl.
  { by intros ?%elem_of_nil. }
  intros [Hm|Hin]%elem_of_cons.
  - by rewrite is_duplicate_same_triple.
  - rewrite is_duplicate_obj. simpl.
    destruct (_ && _); [done|]. by apply IH.
Qed.

Lemma import_entry_cases (M : list value) (s : value) (M' : list value) :
  import_entry M s = Normal M' →
  (M' = M ∧
   (has_required_fields s = Normal false ∨
    has_required_fields s = Normal true
    ∧ Array_some (is_duplicate s) M = Normal true)) ∨
  (M' = M ++ [s] ∧ has_required_fields s = Normal true
   ∧ Array_some (is_duplicate s) M = Normal false).
Proof.
  unfold import_entry.
  destruct (has_required_fields s) as [[]|e]; simpl; [| |done].
  - destruct (Array_some (is_duplicate s) M) as [[]|e]; simpl; [| |done].
    + intros [= <-]. left. auto.
    + intros [= <-]. right. auto.
  - intros [= <-]. left. auto.
Qed.

Lemma import_entries_extends (L M M' : list value) :
  import_entries M L = Normal M' →
  ∃ A, M' = M ++ A ∧
       Forall (λ s, s ∈ L ∧ has_required_fields s = Normal true) A.
Proof.
  revert M. induction L as [|s L IH]; intros M; simpl.
  { intros [= <-]. exists []. by rewrite app_nil_r. }
  destruct (import_entry M s) as [M1|e] eqn:H1; simpl; [|done].
  intros H. apply IH in H as (A & -> & HA).
  assert (HA' : Forall (λ x, x ∈ s :: L
                             ∧ has_required_fields x = Normal true) A).
  { eapply Forall_impl; [exact HA|]. intros x [? ?]. split; [by right|done]. }
  apply import_entry_cases in H1 as [[-> _]|(-> & Hok & _)].
  - by exists A.
  - exists (s :: A). split; [by rewrite <- app_assoc|].
    constructor; [split; [by left|done] | done].
Qed.

(** Once an entry has been through the import, going through it again
    changes nothing, whatever was appended in between. *)
Lemma import_entry_again (M M' E : list value) (s : value) :
  flat_keys s → import_entry M s = Normal M' →
  import_entry (M' ++ E) s = Normal (M' ++ E).
Proof.
  intros Hflat H.
  apply import_entry_cases in H as [[-> [Hno|[Hok Hdup]]]|(-> & Hok & Hdup)];
    unfold import_entry.
  - by rewrite Hno.
  - rewrite Hok. simpl. rewrite Array_some_app, Hdup. done.
  - rewrite Hok. simpl.
    rewrite <- app_assoc, Array_some_app, Hdup. simpl.
    apply has_required_fields_true in Hok as (o & -> & _).
    rewrite is_duplicate_same_triple by done. done.
Qed.

Lemma import_entries_again (L M M' : list value) :
  Forall flat_keys L → import_entries M L = Normal M' →
  ∀ E, import_entries (M' ++ E) L = Normal (M' ++ E).
Proof.
  revert M. induction L as [|s L IH]; intros M HL; simpl; [done|].
  apply Forall_cons in HL as [Hs HL].
  destruct (import_entry M s) as [M1|e] eqn:H1; simpl; [|done].
  intros H E.
  destruct (import_entries_extends _ _ _ H) as (A & -> & _).
  rewrite <- app_assoc.
  rewrite (import_entry_again M M1 (A ++ E) s Hs H1). simpl.
  rewrite app_assoc. by eapply IH.
Qed.

End import_facts.

Section import_store.
Context {J : JSON} {L : JSONLaws J}.

Lemma importSubmissions_twice (result : string) (ls : localStorage) :
  (∀ imported, JSON_parse result = Normal (VArr imported) →
               Forall flat_keys imported) →
  (importSubmissions result (importSubmissions result ls).1).1
  = (importSubmissions result ls).1.
Proof.
  intros Hflat. unfold importSubmissions at 2 3.
  destruct (import_merge result ls) as [[imported merged]|e] eqn:H1; simpl.
  2:{ unfold importSubmissions. by rewrite H1. }
  unfold import_merge in H1.
  destruct (JSON_parse result) as [[| | | |imported'|]|] eqn:Hp;
    simpl in H1; try done.
  destruct (getSubmissions ls) as [existing|] eqn:Hg; simpl in H1; [|done].
  destruct (spread existing) as [M|] eqn:Hs; simpl in H1; [|done].
  destruct (import_entries M imported') as [M1|] eqn:Hi; simpl in H1;
    [|done].
  injection H1 as <- <-.
  unfold importSubmissions, import_merge. rewrite Hp. simpl.
  rewrite getSubmissions_written. simpl.
  pose proof (import_entries_again imported' M M1 (Hflat _ eq_refl) Hi [])
    as Hagain.
  rewrite app_nil_r in Hagain. rewrite Hagain. simpl.
  unfold setItem. by rewrite insert_insert_eq.
Qed.

End import_store.

Lemma key_triple_Submission (s : Submission.t) :
  key_triple (Submission_fields s)
  = (Some (VStr (Submission.pid s)), VStr <$> Submission.meetingId s,
     Some (VStr (Submission.timestamp s))).
Proof.
  destruct s as [pid cn mn md mi ts ac nt an ad].
  destruct cn, mn, md, mi, an, ad; reflexivity.
Qed.

Lemma Submission_flat_keys (s : Submission.t) :
  flat_keys (Submission_to_value s).
Proof.
  pose proof (key_triple_Submission s) as H. unfold key_triple in H.
  injection H as H1 H2 H3. unfold Submission_to_value, flat_keys.
  rewrite H1, H2, H3. by destruct (Submission.meetingId s).
Qed.

Lemma key_triple_Submission_key (s m : Submission.t) :
  Submission_key s = Submission_key m →
  key_triple (Submission_fields s) = key_triple (Submission_fields m).
Proof.
  unfold Submission_key. intros [= H1 H2 H3].
  by rewrite !key_triple_Submission, H1, H2, H3.
Qed.

(** C3. Import idempotence.  Importing a list of submissions a second time
    leaves the store exactly as the first import left it, whatever the store
    held before, so the submissions collection read back is the same.  The
    reason is the duplicate rule: a candidate whose (pid, meetingId,
    timestamp) triple already occurs in the collection is dropped, not
    appended. *)
Theorem import_idempotent {J : JSON} {L : JSONLaws J}
    (candidates : list Submission.t) (ls : localStorage) :
  let file := JSON_stringify (VArr (Submission_to_value <$> candidates)) in
  let once := (importSubmissions file ls).1 in
  let twice := (importSubmissions file once).1 in
  twice = once ∧ getSubmissions twice = getSubmissions once ∧
  (∀ (s : Submission.t) (existing : list Submission.t),
     Submission_key s ∈ Submission_key <$> existing →
     import_entry (Submission_to_value <$> existing) (Submission_to_value s)
     = Normal (Submission_to_value <$> existing)).
Proof.
  intros file once twice.
  assert (Htwice : twice = once).
  { apply importSubmissions_twice. intros imported. unfold file.
    rewrite JSON_parse_stringify. intros [= <-].
    apply Forall_fmap, Forall_forall. intros s _.
    apply Submission_flat_keys. }
  split; [done|]. split; [by rewrite Htwice|].
  intros s existing Hin.
  replace (Submission_to_value <$> existing)
    with (VObj <$> (Submission_fields <$> existing))
    by (by rewrite <- list_fmap_compose).
  unfold import_entry, Submission_to_value.
  rewrite has_required_fields_obj.
  destruct (_ && _); simpl; [|done].
  assert (Hdup : Array_some (is_duplicate (VObj (Submission_fields s)))
                   (VObj <$> (Submission_fields <$> existing))
                 = Normal true).
  { apply Array_some_duplicate; [apply Submission_flat_keys|].
    apply list_elem_of_fmap in Hin as (m & Hm & Hin).
    apply list_elem_of_fmap. exists (Submission_fields m).
    split; [by apply key_triple_Submission_key|].
    by apply list_elem_of_fmap_2. }
  by rewrite Hdup.
Qed.

Lemma import_idempotent_witness :
  (importSubmissions (J := ref_json) sample_export
     (importSubmissions (J := ref_json) sample_export ∅).1).1
  = (importSubmissions (J := ref_json) sample_export ∅).1.
Proof.
  exact (proj1 (import_idempotent (L := ref_json_laws)
                  [sample_submission; sample_submission] ∅)).
Defined.

(** C10. Validation of import entries.  An entry whose pid, meetingName or
    timestamp is absent, null or the empty string is skipped whatever its
    other fields are, and nothing a whole import appends lacks one of them.
    An entry that only lacks meetingId passes the test and is appended to a
    collection that has no duplicate of it; a later entry that also lacks
    meetingId and has the same pid and timestamp is then dropped as its
    duplicate. *)
Theorem import_entry_validation (M : list value) (o : gmap string value) :
  (∀ k, k ∈ ["pid"; "meetingName"; "timestamp"] →
        o !! k = None ∨ o !! k = Some VNull ∨ o !! k = Some (VStr "") →
        has_required_fields (VObj o) = Normal false ∧
        import_entry M (VObj o) = Normal M) ∧
  (∀ imported M', import_entries M imported = Normal M' →
     ∃ A, M' = M ++ A ∧
          Forall (λ s, s ∈ imported
                       ∧ has_required_fields s = Normal true) A) ∧
  (truthy (o !! "pid") = true → truthy (o !! "meetingName") = true →
   truthy (o !! "timestamp") = true → o !! "meetingId" = None →
   has_required_fields (VObj o) = Normal true ∧
   import_entry [] (VObj o) = Normal [VObj o] ∧
   (Array_some (is_duplicate (VObj o)) M = Normal false →
    import_entry M (VObj o) = Normal (M ++ [VObj o])) ∧
   (∀ o' M1,
      flat_keys (VObj o) →
      has_required_fields (VObj o') = Normal true →
      o' !! "meetingId" = None → o' !! "pid" = o !! "pid" →
      o' !! "timestamp" = o !! "timestamp" →
      import_entry M (VObj o) = Normal M1 →
      import_entry M1 (VObj o') = Normal M1)).
Proof.
  split; [|split].
  - intros k Hk Hfalsy.
    assert (Hreq : has_required_fields (VObj o) = Normal false).
    { rewrite has_required_fields_obj. f_equal.
      repeat (apply elem_of_cons in Hk as [->|Hk]);
        [| | |by apply elem_of_nil in Hk];
        destruct Hfalsy as [-> | [-> | ->]]; simpl;
        rewrite ?andb_false_r; done. }
    split; [done|]. unfold import_entry. by rewrite Hreq.
  - intros imported M'. apply import_entries_extends.
  - intros Hp Hn Ht Hid.
    assert (Hreq : has_required_fields (VObj o) = Normal true).
    { rewrite has_required_fields_obj. by rewrite Hp, Hn, Ht. }
    split; [done|]. split; [|split].
    + unfold import_entry. by rewrite Hreq.
    + intros Hdup. unfold import_entry. by rewrite Hreq, Hdup.
    + intros o' M1 Hflat Hreq' Hid' Hpid Hts H1.
      assert (Htriple : key_triple o' = key_triple o).
      { unfold key_triple. by rewrite Hid, Hid', Hpid, Hts. }
      pose proof (import_entry_again M M1 [] (VObj o) Hflat H1) as Hagain.
      rewrite app_nil_r in Hagain. unfold import_entry in Hagain |- *.
      rewrite Hreq in Hagain. rewrite Hreq'. simpl in *.
      rewrite (Array_some_ext _ (is_duplicate (VObj o)))
        by (intros m; by apply is_duplicate_triple).
      destruct (Array_some (is_duplicate (VObj o)) M1) as [[]|]; simpl in *;
        [done| |done].
      injection Hagain as Hagain.
      apply (f_equal length) in Hagain. rewrite length_app in Hagain.
      simpl in Hagain. lia.
Qed.

Lemma import_entry_validation_witness :
  (has_required_fields (VObj no_pid_entry) = Normal false ∧
   import_entry [VObj sample_entry] (VObj no_pid_entry)
   = Normal [VObj sample_entry]) ∧
  (has_required_fields (VObj no_meetingId_entry) = Normal true ∧
   import_entry [] (VObj no_meetingId_entry)
   = Normal [VObj no_meetingId_entry]) ∧
  import_entry [VObj sample_entry; VObj no_meetingId_entry]
    (VObj no_meetingId_entry)
  = Normal [VObj sample_entry; VObj no_meetingId_entry].
Proof.
  pose proof (import_entry_validation [VObj sample_entry] no_pid_entry)
    as (Hskip & _ & _).
  pose proof (import_entry_validation [] no_meetingId_entry)
    as (_ & _ & Hpass).
  pose proof (import_entry_validation [VObj sample_entry] no_meetingId_entry)
    as (_ & _ & Hdup).
  split; [|split].
  - apply (Hskip "pid"); [by left | right; left; reflexivity].
  - destruct Hpass as (H1 & H2 & _); [reflexivity..|]. by split.
  - destruct Hdup as (_ & _ & _ & H); [reflexivity..|].
    apply (H no_meetingId_entry); [by repeat split | reflexivity..].
Defined.

(** C4, at the input where it fails.  The alert reports the number of
    entries in the file as the imported count: for a file holding the same
    valid submission twice, imported into an empty store, it says
    "Imported 2" while one entry was appended and the total is 1.  The
    total it reports is the length of the merged collection. *)
Theorem import_alert_counts_file_entries :
  (importSubmissions (J := ref_json) sample_file ∅).2
  = "Imported 2 submissions. Total: 1" ∧
  getSubmissions (J := ref_json)
    (importSubmissions (J := ref_json) sample_file ∅).1
  = Normal (VArr [VObj sample_entry]) ∧
  (∀ (J : JSON) (result : string) (ls : localStorage),
     match import_merge result ls with
     | Normal (imported, merged) =>
         (importSubmissions result ls).2
         = import_alert (length imported) (length merged)
     | Throw _ => importSubmissions result ls = (ls, invalid_file_alert)
     end).
Proof.
  split; [by vm_compute|]. split; [by vm_compute|].
  intros J result ls. unfold importSubmissions.
  by destruct (import_merge result ls) as [[imported merged]|e].
Qed.

(** ** The attachment policy *)

(** C6. Attachment size boundary and rejection atomicity.  The limit is
    2,097,152 bytes.  A submission with a file of at most that size (so also
    of exactly that size) is accepted: the handler starts the read, and when
    the read completes the submission, with the file's name and data, is
    appended to the persisted collection and confirmed.  With a file of
    2,097,153 bytes or more the handler puts up the "too large" notice, which
    is removed after four seconds, starts no read and returns with the store
    as it was. *)
Theorem attachment_size_boundary {J : JSON} {L : JSONLaws J}
    (session : Session.t) (meeting : Meeting.t) (attendance : bool)
    (notes now : string) (file : File.t) (result : string)
    (ls : localStorage) (C : list value) :
  getSubmissions ls = Normal (VArr C) →
  MAX_ATTACHMENT_BYTES = 2097152%Z ∧
  ((File.size file ≤ 2097152)%Z →
   let submission := new_submission session meeting attendance notes now in
   let recorded :=
     Submission_to_value (with_attachment submission file result) in
   handleSubmission session meeting attendance notes now (Some file) ls
   = Normal (SubmitOutcome ls [] (Some (submission, file))) ∧
   ∃ ls',
     reader_onload submission file result ls
     = Normal (ls', [Notice "alert alert-success"
                       "Submission received. Thank you!" 5000]) ∧
     getSubmissions ls' = Normal (VArr (C ++ [recorded]))) ∧
  ((2097153 ≤ File.size file)%Z →
   handleSubmission session meeting attendance notes now (Some file) ls
   = Normal (SubmitOutcome ls
               [Notice "alert alert-info"
                  "File too large. Maximum size is 2MB." 4000]
               None)).
Proof.
  intros HC. split; [done|]. unfold handleSubmission, MAX_ATTACHMENT_BYTES.
  split.
  - intros Hsize. simpl.
    assert ((File.size file >? 2 * 1024 * 1024)%Z = false) as -> by lia.
    split; [done|].
    unfold reader_onload, saveAndConfirm.
    rewrite (saveSubmission_array ls C _ HC). simpl.
    eexists. split; [done|]. apply getSubmissions_written.
  - intros Hsize.
    by assert ((File.size file >? 2 * 1024 * 1024)%Z = true) as -> by lia.
Qed.

Lemma attachment_size_boundary_witness :
  getSubmissions (J := ref_json) ∅ = Normal (VArr []) ∧
  handleSubmission (J := ref_json) sample_session sample_meeting true
    "notes" "2025-02-27T15:30:00.000Z"
    (Some (File.mk "minutes.pdf" 2097152)) ∅
  = Normal (SubmitOutcome ∅ []
              (Some (new_submission sample_session sample_meeting true
                       "notes" "2025-02-27T15:30:00.000Z",
                     File.mk "minutes.pdf" 2097152))) ∧
  handleSubmission (J := ref_json) sample_session sample_meeting true
    "notes" "2025-02-27T15:30:00.000Z"
    (Some (File.mk "minutes.pdf" 2097153)) ∅
  = Normal (SubmitOutcome ∅
              [Notice "alert alert-info"
                 "File too large. Maximum size is 2MB." 4000]
              None).
Proof.
  assert (H : getSubmissions (J := ref_json) ∅ = Normal (VArr []))
    by reflexivity.
  split; [exact H|]. split.
  - refine (proj1 (proj1 (proj2 (attachment_size_boundary
              (L := ref_json_laws) sample_session sample_meeting true
              "notes" "2025-02-27T15:30:00.000Z"
              (File.mk "minutes.pdf" 2097152) "data:" ∅ [] H)) _)).
    simpl. lia.
  - refine (proj2 (proj2 (attachment_size_boundary
              (L := ref_json_laws) sample_session sample_meeting true
              "notes" "2025-02-27T15:30:00.000Z"
              (File.mk "minutes.pdf" 2097153) "data:" ∅ [] H)) _).
    simpl. lia.
Defined.

(** ** Meeting ids *)

Section meeting_id_facts.
Import RefJSONFacts.

Lemma string_app_nil_r (s : string) : s +:+ "" = s.
Proof.
  induction s as [|c s IH]; [done|]. by rewrite string_app_cons, IH.
Qed.

Lemma isDigit_pretty_N_char (d : N) :
  (d < 10)%N → isDigit (pretty_N_char d) = true.
Proof.
  intros Hd. unfold isDigit. by rewrite digit_value_pretty_N_char.
Qed.

Lemma strip_pretty_N_go (x : N) (s : string) :
  strip_non_digits (pretty_N_go x s) = pretty_N_go x (strip_non_digits s).
Proof.
  revert s. induction (N.lt_wf_0 x) as [x _ IH]; intros s.
  destruct (decide (x = 0)%N) as [->|Hx]; [by rewrite !pretty_N_go_0|].
  rewrite (pretty_N_go_step x s), (pretty_N_go_step x (strip_non_digits s))
    by lia.
  rewrite IH by (apply N.div_lt; lia). simpl.
  by rewrite isDigit_pretty_N_char by (apply N.mod_lt; lia).
Qed.

Lemma strip_pretty_N (n : N) : strip_non_digits (pretty n) = pretty n.
Proof.
  unfold pretty, pretty_N. destruct (decide (n = 0)%N); [done|].
  by rewrite strip_pretty_N_go.
Qed.

Lemma digit_dispatch (c : ascii) :
  isDigit c = true →
  isWhiteSpace c = false ∧ Ascii.eqb c "-" = false ∧ Ascii.eqb c "+" = false.
Proof.
  destruct c as [[] [] [] [] [] [] [] []]; vm_compute; intros H;
    try discriminate H; by repeat split.
Qed.

Lemma parse_digits_pretty_N (n : N) : parse_digits 0 (pretty n) = (n, "").
Proof.
  unfold pretty, pretty_N. destruct (decide (n = 0)%N) as [->|Hn]; [done|].
  destruct (parse_digits_pretty_N_go n) as [k Hk]. rewrite Hk. simpl.
  f_equal; lia.
Qed.

(** A string that starts with a digit is read from its first character. *)
Lemma parseInt_mathInt_digits (s : string) :
  starts_with_digit s = true →
  parseInt_mathInt s = Some (Z.of_N (parse_digits 0 s).1).
Proof.
  destruct s as [|c t]; [done|]. intros Hc. simpl in Hc.
  destruct (digit_dispatch c Hc) as (Hws & Hm & Hp).
  unfold parseInt_mathInt. simpl trimStart. rewrite Hws, Hm, Hp.
  simpl starts_with_digit. by rewrite Hc.
Qed.

Lemma pretty_N_starts_with_digit (n : N) : starts_with_digit (pretty n) = true.
Proof.
  destruct (pretty_N_head n "") as (c & t & d & Hh & Hc).
  rewrite string_app_nil_r in Hh. rewrite Hh. simpl. unfold isDigit.
  by rewrite Hc.
Qed.

Lemma parseInt_mathInt_pretty_N (n : N) :
  parseInt_mathInt (pretty n) = Some (Z.of_N n).
Proof.
  rewrite parseInt_mathInt_digits by apply pretty_N_starts_with_digit.
  by rewrite parse_digits_pretty_N.
Qed.

Lemma strip_non_digits_head (s : string) :
  strip_non_digits s = "" ∨ starts_with_digit (strip_non_digits s) = true.
Proof.
  induction s as [|c s IH]; [by left|]. simpl.
  destruct (isDigit c) eqn:Hc; [|done]. right. done.
Qed.

(** The integers the code reads out of ids are not negative. *)
Lemma parseInt_mathInt_nonneg (s : string) (z : Z) :
  parseInt_mathInt (strip_non_digits s) = Some z → (0 ≤ z)%Z.
Proof.
  destruct (strip_non_digits_head s) as [->|Hd]; [done|].
  rewrite parseInt_mathInt_digits by done. intros [= <-]. lia.
Qed.

Lemma id_suffixes_cons (m : Meeting.t) (ms : list Meeting.t) :
  id_suffixes (m :: ms)
  = match parseInt_mathInt (strip_non_digits (default "" (Meeting.id m))) with
    | Some z => if (z =? 0)%Z then id_suffixes ms else z :: id_suffixes ms
    | None => id_suffixes ms
    end.
Proof.
  unfold id_suffixes. cbn [omap list_omap].
  destruct (parseInt_mathInt _) as [z|]; [|done]. simpl.
  by destruct (z =? 0)%Z.
Qed.

Lemma id_suffixes_pos (meetings : list Meeting.t) (z : Z) :
  z ∈ id_suffixes meetings → (0 < z)%Z.
Proof.
  induction meetings as [|m ms IH]; [by intros ?%elem_of_nil|].
  rewrite id_suffixes_cons.
  destruct (parseInt_mathInt _) as [n|] eqn:Hn; [|done].
  apply parseInt_mathInt_nonneg in Hn.
  destruct (n =? 0)%Z eqn:E; [done|].
  intros [->|Hin]%elem_of_cons; [lia|by apply IH].
Qed.

Lemma foldr_max_swap (l : list Z) (x y : Z) :
  Z.max y (foldr Z.max x l) = Z.max x (foldr Z.max y l).
Proof. induction l as [|a l IH]; simpl; lia. Qed.

Lemma max_suffix_cons (x : Z) (l : list Z) :
  max_suffix (x :: l) = match l with [] => x | _ => Z.max x (max_suffix l) end.
Proof. destruct l as [|y l]; [done|]. simpl. apply foldr_max_swap. Qed.

Lemma max_suffix_ge (l : list Z) (z : Z) : z ∈ l → (z ≤ max_suffix l)%Z.
Proof.
  induction l as [|x l IH]; [by intros ?%elem_of_nil|].
  rewrite max_suffix_cons. intros [->|Hin]%elem_of_cons.
  - destruct l; lia.
  - destruct l as [|y l]; [by apply elem_of_nil in Hin|].
    specialize (IH Hin). lia.
Qed.

Lemma max_suffix_elem (l : list Z) : l ≠ [] → max_suffix l ∈ l.
Proof.
  induction l as [|x l IH]; [done|]. intros _. rewrite max_suffix_cons.
  destruct l as [|y l]; [by left|].
  specialize (IH ltac:(done)).
  destruct (Z.max_spec x (max_suffix (y :: l))) as [[_ ->]|[_ ->]];
    [by right | by left].
Qed.

Lemma next_suffix_pos (meetings : list Meeting.t) : (0 < next_suffix meetings)%Z.
Proof.
  unfold next_suffix. destruct (id_suffixes meetings) as [|x l] eqn:E;
    [simpl; lia|].
  pose proof (max_suffix_elem (x :: l) ltac:(done)) as Hin.
  rewrite <- E in Hin. apply id_suffixes_pos in Hin. rewrite E in Hin. lia.
Qed.

Lemma next_suffix_gt (meetings : list Meeting.t) (z : Z) :
  z ∈ id_suffixes meetings → (z < next_suffix meetings)%Z.
Proof.
  intros Hin. unfold next_suffix. pose proof (max_suffix_ge _ _ Hin). lia.
Qed.

(** *** Below 2^53 the Numbers of the code are the integers *)

Lemma nearest_double_safe (z : Z) : (z < 2 ^ 53)%Z → nearest_double z = z.
Proof.
  intros Hz. unfold nearest_double.
  by rewrite (proj2 (Z.ltb_lt _ _) Hz).
Qed.

Lemma to_Number_safe (z : Z) : (0 ≤ z < 2 ^ 53)%Z → to_Number z = Finite z.
Proof.
  intros [H0 Hz]. unfold to_Number.
  rewrite Z.abs_eq, nearest_double_safe by done.
  assert (Hbig : (2 ^ 53 < 2 ^ 1024)%Z) by (by apply Z.pow_lt_mono_r).
  rewrite (proj2 (Z.leb_gt _ _)) by lia.
  f_equal. destruct z; simpl; lia.
Qed.

Lemma Number_toString_safe (z : Z) :
  (0 ≤ z ≤ 2 ^ 53)%Z → Number_toString (Finite z) = pretty (Z.to_N z).
Proof.
  intros [H0 Hz]. unfold Number_toString.
  rewrite (proj2 (Z.ltb_ge _ _)) by done.
  rewrite Z.abs_eq by done.
  by rewrite (proj2 (Z.leb_le _ _)) by done.
Qed.

Lemma meeting_ids_cons (m : Meeting.t) (ms : list Meeting.t) :
  meeting_ids (m :: ms)
  = let n := parseInt (strip_non_digits (default "" (Meeting.id m))) in
    if Boolean_number n then n :: meeting_ids ms else meeting_ids ms.
Proof.
  unfold meeting_ids. rewrite fmap_cons. simpl.
  destruct (Boolean_number _) eqn:Hb.
  - by rewrite filter_cons_True.
  - rewrite filter_cons_False; [done|]. by rewrite Hb.
Qed.

(** When every integer suffix is a safe integer, the Numbers the code
    works with are the suffixes themselves. *)
Lemma meeting_ids_safe (meetings : list Meeting.t) :
  Forall (λ z, (z < MAX_SAFE_INTEGER)%Z) (id_suffixes meetings) →
  meeting_ids meetings = Finite <$> id_suffixes meetings.
Proof.
  unfold MAX_SAFE_INTEGER.
  induction meetings as [|m ms IH]; [done|].
  rewrite meeting_ids_cons, id_suffixes_cons. unfold parseInt. simpl.
  destruct (parseInt_mathInt _) as [z|] eqn:Hz; simpl; [|done].
  apply parseInt_mathInt_nonneg in Hz.
  destruct (z =? 0)%Z eqn:E.
  - apply Z.eqb_eq in E as ->. done.
  - intros [Hlt Hrest]%Forall_cons. apply Z.eqb_neq in E.
    rewrite to_Number_safe by lia. simpl.
    rewrite (proj2 (Z.eqb_neq _ _)) by done. simpl.
    by rewrite IH.
Qed.

Lemma Math_max_Finite (l : list Z) :
  l ≠ [] → Math_max (Finite <$> l) = Finite (max_suffix l).
Proof.
  induction l as [|x l IH]; [done|]. intros _.
  rewrite max_suffix_cons, fmap_cons.
  change (Math_max (Finite x :: (Finite <$> l)))
    with (number_max (Finite x) (Math_max (Finite <$> l))).
  destruct l as [|y l]; [done|]. by rewrite IH.
Qed.

(** So the generated id is "m" and one plus the largest suffix. *)
Lemma generateMeetingId_eq (meetings : list Meeting.t) :
  Forall (λ z, (z < MAX_SAFE_INTEGER)%Z) (id_suffixes meetings) →
  generateMeetingId meetings
  = id_of_suffix (Z.to_N (next_suffix meetings)).
Proof.
  intros Hsafe. unfold generateMeetingId, next_suffix, id_of_suffix.
  rewrite (meeting_ids_safe _ Hsafe).
  destruct (id_suffixes meetings) as [|x l] eqn:E; [done|].
  rewrite fmap_cons, <- (fmap_cons Finite x l).
  rewrite Math_max_Finite by done.
  pose proof (max_suffix_elem (x :: l) ltac:(done)) as Hin.
  assert (Hlt : (max_suffix (x :: l) < MAX_SAFE_INTEGER)%Z)
    by (by apply (proj1 (Forall_forall _ _) Hsafe)).
  assert (Hpos : (0 < max_suffix (x :: l))%Z).
  { apply (id_suffixes_pos meetings). by rewrite E. }
  unfold MAX_SAFE_INTEGER in Hlt. unfold number_add.
  rewrite to_Number_safe by lia.
  by rewrite Number_toString_safe by lia.
Qed.

Lemma id_of_suffix_number (n : N) :
  parseInt_mathInt (strip_non_digits (id_of_suffix n)) = Some (Z.of_N n).
Proof.
  unfold id_of_suffix.
  change (strip_non_digits ("m" +:+ pretty n))
    with (strip_non_digits (pretty n)).
  by rewrite strip_pretty_N, parseInt_mathInt_pretty_N.
Qed.

(** An id that spelt the next suffix would have raised the maximum. *)
Lemma id_of_next_suffix_fresh (meetings : list Meeting.t) :
  Some (id_of_suffix (Z.to_N (next_suffix meetings)))
  ∉ (Meeting.id <$> meetings).
Proof.
  pose proof (next_suffix_pos meetings) as Hpos.
  intros (m & Hid & Hm)%list_elem_of_fmap.
  assert (Hin : next_suffix meetings ∈ id_suffixes meetings).
  { unfold id_suffixes. apply list_elem_of_omap. exists m. split; [done|].
    rewrite <- Hid. change (default "" (Some ?x)) with x.
    rewrite id_of_suffix_number. simpl.
    rewrite Z2N.id by lia.
    destruct (next_suffix meetings =? 0)%Z eqn:E; [lia|done]. }
  apply next_suffix_gt in Hin. lia.
Qed.

Lemma generateMeetingId_fresh (meetings : list Meeting.t) :
  Forall (λ z, (z < MAX_SAFE_INTEGER)%Z) (id_suffixes meetings) →
  Some (generateMeetingId meetings) ∉ (Meeting.id <$> meetings).
Proof.
  intros Hsafe. rewrite (generateMeetingId_eq _ Hsafe).
  apply id_of_next_suffix_fresh.
Qed.

Lemma id_suffixes_of_suffixes (meetings : list Meeting.t) (ns : list N) :
  Meeting.id <$> meetings = (Some ∘ id_of_suffix) <$> ns →
  id_suffixes meetings
  = omap (λ n, if (Z.of_N n =? 0)%Z then None else Some (Z.of_N n)) ns.
Proof.
  revert ns. induction meetings as [|m ms IH]; intros [|n ns] H;
    try done.
  injection H as Hm Hms. rewrite id_suffixes_cons, Hm.
  change (default "" (Some ?x)) with x.
  rewrite id_of_suffix_number, (IH ns Hms). cbn [omap list_omap].
  by destruct (Z.of_N n =? 0)%Z.
Qed.

Lemma max_suffix_suffixes (ns : list N) :
  max_suffix
    (omap (λ n, if (Z.of_N n =? 0)%Z then None else Some (Z.of_N n)) ns)
  = Z.of_N (foldr N.max 0%N ns).
Proof.
  set (f := λ n : N, if (Z.of_N n =? 0)%Z then None else Some (Z.of_N n)).
  induction ns as [|n ns IH]; [done|].
  change (omap f (n :: ns))
    with (match f n with Some z => z :: omap f ns | None => omap f ns end).
  change (foldr N.max 0%N (n :: ns)) with (N.max n (foldr N.max 0%N ns)).
  unfold f at 1. destruct (Z.of_N n =? 0)%Z eqn:E.
  - rewrite IH. lia.
  - rewrite max_suffix_cons. destruct (omap f ns) as [|y l]; simpl in *; lia.
Qed.

End meeting_id_facts.

(** X23. Meeting ids below 2^53.  The code reads the integer suffixes of
    the ids into Numbers.  For a meeting list whose suffixes are all below
    [Number.MAX_SAFE_INTEGER] the generated id is "m" followed by one plus
    the largest suffix ("m1" when no id has one), it is not the id of any
    meeting in the list, and "Add New Meeting" therefore keeps ids
    distinct; for the ids "m1" and "m3" the result is "m4". *)
Theorem generateMeetingId_next_unused {J : JSON} (meetings : list Meeting.t)
    (today : string) (ls : localStorage) :
  Forall (λ z, (z < MAX_SAFE_INTEGER)%Z) (id_suffixes meetings) →
  generateMeetingId meetings
  = "m" +:+ pretty (Z.to_N (max_suffix (id_suffixes meetings) + 1)) ∧
  (Some (generateMeetingId meetings) ∉ (Meeting.id <$> meetings)) ∧
  (∀ ns : list N,
     Meeting.id <$> meetings = (Some ∘ id_of_suffix) <$> ns →
     generateMeetingId meetings = id_of_suffix (foldr N.max 0%N ns + 1)) ∧
  (NoDup (Meeting.id <$> meetings) →
   NoDup (Meeting.id <$> (addMeeting today meetings ls).1)) ∧
  generateMeetingId
    [Meeting.mk (Some "m1") None None None None None;
     Meeting.mk (Some "m3") None None None None None] = "m4".
Proof.
  intros Hsafe. split; [apply (generateMeetingId_eq _ Hsafe)|].
  split; [apply (generateMeetingId_fresh _ Hsafe)|]. split; [|split].
  - intros ns Hns. rewrite (generateMeetingId_eq _ Hsafe). f_equal.
    unfold next_suffix. rewrite (id_suffixes_of_suffixes _ _ Hns).
    rewrite max_suffix_suffixes. lia.
  - intros Hnd. unfold addMeeting. simpl. rewrite fmap_app. simpl.
    apply NoDup_app. split; [done|]. split; [|apply NoDup_singleton].
    intros x Hx ->%list_elem_of_singleton.
    by apply (generateMeetingId_fresh meetings Hsafe).
  - by vm_compute.
Qed.

Lemma generateMeetingId_next_unused_witness :
  Forall (λ z, (z < MAX_SAFE_INTEGER)%Z)
    (id_suffixes
       [sample_meeting;
        Meeting.mk (Some "m3") None None None None None]) ∧
  Some (generateMeetingId
          [sample_meeting; Meeting.mk (Some "m3") None None None None None])
  ∉ (Meeting.id
     <$> [sample_meeting; Meeting.mk (Some "m3") None None None None None]).
Proof.
  assert (H : Forall (λ z, (z < MAX_SAFE_INTEGER)%Z)
                (id_suffixes
                   [sample_meeting;
                    Meeting.mk (Some "m3") None None None None None])).
  { repeat constructor. }
  split; [exact H|].
  exact (proj1 (proj2 (generateMeetingId_next_unused (J := ref_json)
                  [sample_meeting;
                   Meeting.mk (Some "m3") None None None None None]
                  "2025-03-01" ∅ H))).
Defined.

(** C8. Meeting id generation: the id is not always unused.  2^53 is a
    double and 2^53 + 1 is not, so the sum [max + 1] is rounded back to
    2^53: for the ids "m1" and "m9007199254740992" the generated id is the
    second of them again, an id of the list, and not "m" followed by one
    plus the largest suffix. *)
Theorem generateMeetingId_repeats_an_id :
  let meetings :=
    [Meeting.mk (Some "m1") None None None None None;
     Meeting.mk (Some "m9007199254740992") None None None None None] in
  generateMeetingId meetings = "m9007199254740992" ∧
  Some (generateMeetingId meetings) ∈ (Meeting.id <$> meetings) ∧
  generateMeetingId meetings
  ≠ "m" +:+ pretty (Z.to_N (max_suffix (id_suffixes meetings) + 1)).
Proof.
  assert (H : generateMeetingId
                [Meeting.mk (Some "m1") None None None None None;
                 Meeting.mk (Some "m9007199254740992") None None None None
                   None]
              = "m9007199254740992") by (by vm_compute).
  simpl. rewrite H. split; [done|]. split.
  - right. by left.
  - by vm_compute.
Qed.

(** ** Committee assignments *)

Section assignment_facts.
Context {J : JSON}.

Lemma sort_NoDup (l : list string) : NoDup l → NoDup (sort l).
Proof. unfold sort. by rewrite merge_sort_Permutation. Qed.

Lemma sort_elem_of (l : list string) (x : string) : x ∈ sort l ↔ x ∈ l.
Proof. unfold sort. by rewrite merge_sort_Permutation. Qed.

Lemma sort_Sorted (l : list string) : Sorted String.le (sort l).
Proof. apply Sorted_merge_sort, _. Qed.

(** Whatever algorithm the host uses for [sort], the result is this one:
    there is one sorted arrangement of a list of strings. *)
Lemma sort_unique (l l' : list string) :
  Sorted String.le l' → l' ≡ₚ l → l' = sort l.
Proof.
  intros Hs Hp.
  refine (Sorted_unique_strong String.le l' (sort l) _ Hs (sort_Sorted l) _).
  - intros x1 x2 _ _ H1 H2. by apply (anti_symm String.le).
  - unfold sort. by rewrite merge_sort_Permutation.
Qed.

Lemma assignments_ok_insert (l : list Assignment.t) (idx : nat)
    (a : Assignment.t) (cs : list string) :
  assignments_ok l → l !! idx = Some a → NoDup cs →
  assignments_ok (<[idx := Assignment.mk (Assignment.pid a) (Some cs)]> l).
Proof.
  intros [Hpids Hcs] Hidx Hnd. split.
  - rewrite list_fmap_insert. simpl.
    rewrite list_insert_id; [done|]. by rewrite list_lookup_fmap, Hidx.
  - by apply Forall_insert.
Qed.

Lemma assignments_ok_delete (l : list Assignment.t) (idx : nat) :
  assignments_ok l → assignments_ok (delete idx l).
Proof.
  intros [Hpids Hcs]. split.
  - rewrite list_fmap_delete.
    eapply sublist_NoDup; [exact Hpids | apply sublist_delete].
  - by apply Forall_delete.
Qed.

Lemma assignments_ok_snoc (l : list Assignment.t) (pid committee : string) :
  assignments_ok l → list_find (λ a, Assignment.pid a = pid) l = None →
  assignments_ok (l ++ [Assignment.mk pid (Some [committee])]).
Proof.
  intros [Hpids Hcs] Hnone. split.
  - rewrite fmap_app. simpl. apply NoDup_app.
    split; [done|]. split; [|apply NoDup_singleton].
    intros x (a & -> & Ha)%list_elem_of_fmap Heq%list_elem_of_singleton.
    apply list_find_None in Hnone.
    by apply (proj1 (Forall_forall _ _) Hnone a).
  - apply Forall_app. split; [done|].
    apply Forall_singleton. simpl. apply NoDup_singleton.
Qed.

Lemma assignments_ok_committees (l : list Assignment.t) (idx : nat)
    (a : Assignment.t) :
  assignments_ok l → l !! idx = Some a →
  NoDup (default [] (Assignment.committees a)).
Proof.
  intros [_ Hcs] Hidx.
  by apply (proj1 (Forall_lookup _ _) Hcs idx a).
Qed.

Lemma addAssignment_ok (pidInput committeeInput : string)
    (l : list Assignment.t) (ls : localStorage) :
  assignments_ok l →
  assignments_ok (addAssignment pidInput committeeInput l ls).1.
Proof.
  intros Hok. unfold addAssignment.
  destruct (negb _ || negb _); [done|]. simpl.
  destruct (list_find _ l) as [[idx a]|] eqn:Hfind.
  - apply list_find_Some in Hfind as (Hidx & Hpid & _).
    case_bool_decide as Hin; [done|].
    apply assignments_ok_insert; [done..|].
    apply sort_NoDup, NoDup_app.
    split; [by eapply assignments_ok_committees|].
    split; [|apply NoDup_singleton].
    by intros x Hx ->%list_elem_of_singleton.
  - by apply assignments_ok_snoc.
Qed.

Lemma removeAssignment_ok (pidInput committeeInput : string)
    (l : list Assignment.t) (ls : localStorage) :
  assignments_ok l →
  assignments_ok (removeAssignment pidInput committeeInput l ls).1.
Proof.
  intros Hok. unfold removeAssignment.
  destruct (negb _ || negb _); [done|].
  destruct (list_find _ l) as [[idx a]|] eqn:Hfind; [|done].
  apply list_find_Some in Hfind as (Hidx & Hpid & _). simpl.
  destruct (filter _ _) as [|c cs] eqn:Hf.
  - by apply assignments_ok_delete.
  - apply assignments_ok_insert; [done..|]. rewrite <- Hf.
    apply NoDup_filter. by eapply assignments_ok_committees.
Qed.

Lemma list_find_insert_same (l : list Assignment.t) (pid : string)
    (idx : nat) (a : Assignment.t) (cs : option (list string)) :
  list_find (λ a, Assignment.pid a = pid) l = Some (idx, a) →
  list_find (λ a, Assignment.pid a = pid)
    (<[idx := Assignment.mk (Assignment.pid a) cs]> l)
  = Some (idx, Assignment.mk (Assignment.pid a) cs).
Proof.
  intros (Hidx & Hpid & Hbefore)%list_find_Some. apply list_find_Some.
  split; [|split].
  - apply list_lookup_insert_eq. by eapply lookup_lt_Some.
  - done.
  - intros j y Hj Hlt. rewrite list_lookup_insert_ne in Hj by lia.
    by eapply Hbefore.
Qed.

Lemma list_find_snoc (l : list Assignment.t) (pid : string)
    (cs : option (list string)) :
  list_find (λ a, Assignment.pid a = pid) l = None →
  list_find (λ a, Assignment.pid a = pid) (l ++ [Assignment.mk pid cs])
  = Some (length l, Assignment.mk pid cs).
Proof.
  intros Hnone. apply list_find_app_Some. right.
  split; [done|]. split; [done|].
  rewrite Nat.sub_diag. apply list_find_Some.
  split; [done|]. split; [done|]. intros j y _ Hj. lia.
Qed.

Lemma string_truthy_false (s : string) : string_truthy s = false → s = "".
Proof.
  unfold string_truthy. destruct (String.eqb_spec s ""); [done|done].
Qed.

End assignment_facts.

(** C9. The committee-assignment invariant.  On a collection with one record
    per pid and no committee twice in a record, "Add Assignment" and "Remove
    Assignment" leave a collection of that kind.  Adding a pair that is
    already there leaves the collection as it was; adding a committee the
    senator did not have puts it in the senator's list and leaves that list
    sorted. *)
Theorem assignment_edits_keep_invariant {J : JSON}
    (pidInput committeeInput : string) (assignments : list Assignment.t)
    (ls : localStorage) :
  assignments_ok assignments →
  let pid := trim pidInput in
  let committee := trim committeeInput in
  let added := (addAssignment pidInput committeeInput assignments ls).1 in
  let removed :=
    (removeAssignment pidInput committeeInput assignments ls).1 in
  assignments_ok added ∧ assignments_ok removed ∧
  (pid ≠ "" → committee ≠ "" →
   (committee ∈ committees_of pid assignments → added = assignments) ∧
   (committee ∉ committees_of pid assignments →
    committee ∈ committees_of pid added
    ∧ Sorted String.le (committees_of pid added))).
Proof.
  intros Hok pid committee added removed.
  split; [by apply addAssignment_ok|].
  split; [by apply removeAssignment_ok|].
  intros Hpid Hcommittee. subst added. unfold addAssignment, committees_of.
  fold pid committee.
  rewrite !string_truthy_true by done. simpl.
  destruct (list_find _ assignments) as [[idx a]|] eqn:Hfind.
  - split.
    + intros Hin. by rewrite bool_decide_eq_true_2.
    + intros Hnin. rewrite bool_decide_eq_false_2 by done.
      rewrite (list_find_insert_same _ _ _ _ _ Hfind). simpl.
      split; [|apply sort_Sorted].
      apply sort_elem_of, elem_of_app. right. by left.
  - split; [by intros ?%elem_of_nil|]. intros _.
    rewrite (list_find_snoc _ _ _ Hfind). simpl.
    split; [by left | repeat constructor].
Qed.

Lemma assignment_edits_keep_invariant_witness :
  assignments_ok sample_assignments ∧
  assignments_ok
    (addAssignment (J := ref_json) " 12345678 " "Commission on Research"
       sample_assignments ∅).1 ∧
  assignments_ok
    (removeAssignment (J := ref_json) " 12345678 " "Commission on Research"
       sample_assignments ∅).1.
Proof.
  assert (H : assignments_ok sample_assignments).
  { split.
    - apply (bool_decide_unpack _). by vm_compute.
    - apply (bool_decide_unpack _). by vm_compute. }
  pose proof (assignment_edits_keep_invariant (J := ref_json)
                " 12345678 " "Commission on Research" sample_assignments ∅ H)
    as (Ha & Hr & _).
  split; [exact H|]. split; [exact Ha | exact Hr].
Defined.

(** ** The base path *)

Section base_path_facts.
Import RefJSONFacts.

Lemma split_slash_nonempty (s : string) : split_slash s ≠ [].
Proof.
  induction s as [|c s IH]; [done|]. simpl.
  destruct (Ascii.eqb c "/"); [done|]. by destruct (split_slash s).
Qed.

(** Splitting distributes over a separator. *)
Lemma split_slash_app (a b : string) :
  split_slash (a +:+ String "/" b) = split_slash a ++ split_slash b.
Proof.
  induction a as [|c a IH]; [done|].
  rewrite string_app_cons. simpl. rewrite IH.
  destruct (Ascii.eqb c "/"); [done|].
  pose proof (split_slash_nonempty a). by destruct (split_slash a).
Qed.

Lemma split_slash_no_slash (s : string) :
  no_slash s = true → split_slash s = [s].
Proof.
  induction s as [|c s IH]; [done|]. simpl.
  destruct (Ascii.eqb c "/"); [done|]. simpl. intros H. by rewrite IH.
Qed.

Lemma split_slash_parts (s : string) :
  Forall (λ part, no_slash part = true) (split_slash s).
Proof.
  induction s as [|c s IH]; [by repeat constructor|]. simpl.
  destruct (Ascii.eqb c "/") eqn:Hc; [by constructor|].
  destruct (split_slash s) as [|part parts].
  - constructor; [|done]. simpl. by rewrite Hc.
  - apply Forall_cons in IH as [H1 H2]. constructor; [|done].
    simpl. by rewrite Hc.
Qed.

Lemma split_slash_concat (parts : list string) :
  parts ≠ [] → Forall (λ part, no_slash part = true) parts →
  split_slash (String.concat "/" parts) = parts.
Proof.
  induction parts as [|part parts IH]; [done|]. intros _ Hparts.
  apply Forall_cons in Hparts as [Hpart Hparts].
  destruct parts as [|part' parts].
  - simpl. by apply split_slash_no_slash.
  - rewrite concat_cons2, string_app_cons, string_app_nil_l.
    rewrite split_slash_app, split_slash_no_slash by done.
    by rewrite IH.
Qed.

Lemma getBasePath_parts (pathname : string) :
  getBasePath pathname
  = match base_parts pathname with
    | [] => ""
    | _ => "/" +:+ String.concat "/" (base_parts pathname)
    end.
Proof. done. Qed.

Lemma base_parts_segments (pathname : string) :
  Forall is_segment (base_parts pathname).
Proof.
  unfold base_parts.
  set (parts := filter _ _).
  assert (Hparts : Forall is_segment parts).
  { apply Forall_forall. intros part [Hne Hin]%list_elem_of_filter.
    split.
    - intros ->. done.
    - by apply (proj1 (Forall_forall _ _) (split_slash_parts pathname)). }
  destruct (last parts) as [l|]; [|done].
  destruct (_ && _); [|done].
  rewrite removelast_firstn_len. by apply Forall_take.
Qed.

End base_path_facts.

Section base_path_stable.
Import RefJSONFacts.

Lemma filter_all {A} (P : A → Prop) `{∀ x, Decision (P x)} (l : list A) :
  Forall P l → filter P l = l.
Proof.
  induction 1 as [|x l Hx _ IH]; [done|].
  by rewrite filter_cons_True, IH.
Qed.

Lemma split_slash_leading (s : string) :
  split_slash (String "/" s) = "" :: split_slash s.
Proof. done. Qed.

Lemma is_segment_truthy (s : string) : is_segment s → string_truthy s = true.
Proof. intros [Hne _]. by apply string_truthy_true. Qed.

Lemma base_parts_file (parts : list string) (file : string) :
  Forall is_segment parts → is_segment file → includes_dot file = true →
  base_parts (match parts with
              | [] => ""
              | _ => "/" +:+ String.concat "/" parts
              end +:+ "/" +:+ file) = parts.
Proof.
  intros Hparts Hfile Hdot. unfold base_parts.
  assert (Hsplit : filter (λ part, string_truthy part = true)
            (split_slash (match parts with
                          | [] => ""
                          | _ => "/" +:+ String.concat "/" parts
                          end +:+ "/" +:+ file)) = parts ++ [file]).
  { destruct parts as [|part parts].
    - rewrite string_app_nil_l, string_app_cons, string_app_nil_l.
      rewrite split_slash_leading, split_slash_no_slash by apply Hfile.
      rewrite filter_cons_False by done.
      rewrite filter_cons_True by by apply is_segment_truthy. done.
    - rewrite !string_app_assoc, !string_app_cons, !string_app_nil_l.
      rewrite split_slash_leading, split_slash_app.
      rewrite split_slash_concat; [|done|].
      2:{ eapply Forall_impl; [exact Hparts|]. by intros ? [_ ?]. }
      rewrite split_slash_no_slash by apply Hfile.
      rewrite filter_cons_False by done.
      apply filter_all, Forall_app. split.
      + eapply Forall_impl; [exact Hparts|]. apply is_segment_truthy.
      + constructor; [by apply is_segment_truthy|done]. }
  rewrite Hsplit, last_snoc, (is_segment_truthy _ Hfile), Hdot. simpl.
  apply removelast_last.
Qed.

Lemma base_parts_trailing_slash (pathname : string) :
  base_parts (pathname +:+ "/") = base_parts pathname.
Proof.
  unfold base_parts. rewrite split_slash_app, filter_app.
  simpl (split_slash ""). rewrite filter_cons_False by done.
  by rewrite filter_nil, app_nil_r.
Qed.

End base_path_stable.

Section base_path_segments.
Import RefJSONFacts.

(** Joining the parts of a split gives the string back: the parts are
    the segments of the path. *)
Lemma concat_split_slash (s : string) :
  String.concat "/" (split_slash s) = s.
Proof.
  induction s as [|c s IH]; [done|]. simpl.
  pose proof (split_slash_nonempty s) as Hne.
  destruct (Ascii.eqb_spec c "/") as [->|Hc].
  - destruct (split_slash s) as [|part parts]; [done|].
    by rewrite concat_cons2, string_app_nil_l, IH.
  - destruct (split_slash s) as [|part [|part' parts]]; [done|..].
    + simpl in *. by rewrite IH.
    + rewrite concat_cons2, string_app_cons.
      by rewrite concat_cons2 in IH; rewrite IH.
Qed.

Lemma filter_truthy (parts : list string) :
  filter (λ part, string_truthy part = true) parts
  = filter (λ part, part ≠ "") parts.
Proof.
  apply list_filter_iff. intros part. unfold string_truthy.
  by destruct (String.eqb_spec part "").
Qed.

Lemma segments_concat (parts : list string) :
  Forall (λ part, no_slash part = true) parts →
  filter (λ part, string_truthy part = true)
    (split_slash (String.concat "/" parts))
  = filter (λ part, part ≠ "") parts.
Proof.
  intros Hparts. destruct parts as [|part parts]; [done|].
  by rewrite split_slash_concat, filter_truthy.
Qed.

Lemma segments_under (dirs : list string) :
  Forall is_segment dirs →
  filter (λ part, string_truthy part = true)
    (split_slash (match dirs with
                  | [] => ""
                  | _ => "/" +:+ String.concat "/" dirs
                  end))
  = dirs.
Proof.
  intros Hdirs. destruct dirs as [|dir dirs]; [done|].
  rewrite string_app_cons, string_app_nil_l, split_slash_leading.
  rewrite split_slash_concat; [|done|].
  2:{ eapply Forall_impl; [exact Hdirs|]. by intros ? [_ ?]. }
  rewrite filter_cons_False by done.
  apply filter_all. eapply Forall_impl; [exact Hdirs|].
  apply is_segment_truthy.
Qed.

(** The base path is a function of the non-empty segments. *)
Lemma getBasePath_segments (pathname pathname' : string) :
  filter (λ part, string_truthy part = true) (split_slash pathname)
  = filter (λ part, string_truthy part = true) (split_slash pathname') →
  getBasePath pathname = getBasePath pathname'.
Proof. unfold getBasePath. by intros ->. Qed.

Lemma base_parts_directory (dirs : list string) (l : string) :
  Forall is_segment dirs → last dirs = Some l → includes_dot l = false →
  base_parts (match dirs with
              | [] => ""
              | _ => "/" +:+ String.concat "/" dirs
              end) = dirs.
Proof.
  intros Hdirs Hlast Hdot. unfold base_parts.
  rewrite (segments_under _ Hdirs), Hlast, Hdot.
  by rewrite andb_false_r.
Qed.

End base_path_segments.

(** X1. The base path.  The page's path is its segments joined by slashes.
    Empty segments (a leading, a doubled or a trailing slash) do not count.
    Of the others the last one is dropped when it has a dot (the file) and
    kept when it has none (a directory), and the base path is a slash and
    the remaining segments joined by slashes, or the empty string when none
    remains.  So for directories [dirs] the page [dirs/file] has the base
    path [dirs]; the base path never ends in a slash; and a page the code
    redirects to, a file name appended to the base path, has the same base
    path again. *)
Theorem getBasePath_stable (pathname file : string) (dirs : list string) :
  is_segment file → includes_dot file = true → Forall is_segment dirs →
  let under := λ ds : list string,
    match ds with
    | [] => ""
    | _ => "/" +:+ String.concat "/" ds
    end in
  getBasePath (under dirs +:+ "/" +:+ file) = under dirs ∧
  (∀ l, last dirs = Some l → includes_dot l = false →
        getBasePath (under dirs) = under dirs) ∧
  getBasePath "" = "" ∧
  (∀ parts, Forall (λ part, no_slash part = true) parts →
            filter (λ part, part ≠ "") parts = dirs →
            getBasePath (String.concat "/" parts)
            = getBasePath (under dirs)) ∧
  (∃ parts, Forall (λ part, no_slash part = true) parts
            ∧ String.concat "/" parts = pathname) ∧
  (getBasePath pathname = "" ∨
   ∃ parts, parts ≠ [] ∧ Forall is_segment parts ∧
            getBasePath pathname = "/" +:+ String.concat "/" parts) ∧
  getBasePath (pathname +:+ "/") = getBasePath pathname ∧
  getBasePath (getBasePath pathname +:+ "/" +:+ file) = getBasePath pathname.
Proof.
  intros Hfile Hdot Hdirs under.
  split; [|split; [|split; [done|split; [|split; [|split; [|split]]]]]].
  - rewrite getBasePath_parts. subst under. cbv beta.
    rewrite (base_parts_file dirs file Hdirs Hfile Hdot).
    by destruct dirs.
  - intros l Hlast Hl. rewrite getBasePath_parts. subst under. cbv beta.
    rewrite (base_parts_directory dirs l Hdirs Hlast Hl).
    by destruct dirs.
  - intros parts Hparts Hfilter. apply getBasePath_segments.
    subst under. cbv beta.
    by rewrite (segments_concat _ Hparts), (segments_under _ Hdirs).
  - exists (split_slash pathname).
    split; [apply split_slash_parts|apply concat_split_slash].
  - rewrite getBasePath_parts.
    destruct (base_parts pathname) as [|part parts] eqn:E; [by left|].
    right. exists (part :: parts). split; [done|].
    split; [|done]. rewrite <- E. apply base_parts_segments.
  - by rewrite !getBasePath_parts, base_parts_trailing_slash.
  - rewrite (getBasePath_parts (_ +:+ _)), (getBasePath_parts pathname).
    by rewrite base_parts_file by (done || apply base_parts_segments).
Qed.

Lemma getBasePath_stable_witness :
  is_segment "admin.html" ∧ includes_dot "admin.html" = true ∧
  Forall is_segment ["sharedgovernance"; "site"] ∧
  getBasePath "/sharedgovernance/site/admin.html" = "/sharedgovernance/site".
Proof.
  assert (H : is_segment "admin.html") by (by split).
  assert (Hdirs : Forall is_segment ["sharedgovernance"; "site"])
    by (by repeat constructor).
  split; [exact H|]. split; [reflexivity|]. split; [exact Hdirs|].
  exact (proj1 (getBasePath_stable "/sharedgovernance/index.html"
                  "admin.html" ["sharedgovernance"; "site"] H eq_refl Hdirs)).
Defined.

(** ** Sessions *)

Section session_facts.
Context {J : JSON}.

Lemma getSession_total (ls : localStorage) : ∃ v, getSession ls = Normal v.
Proof.
  unfold getSession. destruct (getItem ls _) as [b|]; simpl; [|eauto].
  destruct (string_truthy b); simpl; [|eauto].
  destruct (JSON_parse b); simpl; eauto.
Qed.

Lemma getSession_anonymous (ls : localStorage) :
  no_usable_override GOV_STORAGE_KEYS.SESSION ls →
  getSession ls = Normal VNull.
Proof.
  unfold getSession. intros [-> | (b & e & -> & Hb)]; [done|].
  destruct (string_truthy b); [|done]. by rewrite Hb.
Qed.

Lemma getSession_clearSession (ls : localStorage) :
  getSession (clearSession ls) = Normal VNull.
Proof.
  unfold getSession, clearSession, getItem, removeItem.
  by rewrite lookup_delete_eq.
Qed.

Lemma requireAuth_no_session (required : option string) (pathname : string)
    (ls : localStorage) :
  getSession ls = Normal VNull →
  requireAuth required pathname ls
  = Normal (Redirected (getBasePath pathname +:+ "/index.html")).
Proof. unfold requireAuth. by intros ->. Qed.

Lemma get_truthy (v : value) (k : string) :
  truthy (Some v) = true → ∃ r, get v k = Normal r.
Proof. destruct v; simpl; eauto. done. Qed.

Lemma requireAuth_total (required : option string) (pathname : string)
    (ls : localStorage) :
  ∃ r, requireAuth required pathname ls = Normal r.
Proof.
  unfold requireAuth. destruct (getSession_total ls) as [s ->].
  unfold mbind at 1, completion_bind at 1. cbv beta iota.
  destruct (truthy (Some s)) eqn:Hs; simpl; [|eauto].
  destruct (get_truthy s "role" Hs) as [role ->]. simpl.
  destruct required as [r|]; [|eauto].
  destruct (string_truthy r && _); [|eauto].
  destruct (strict_equals role (Some (VStr "admin"))); eauto.
Qed.

Lemma requireAuth_Authorized (required pathname : string)
    (ls : localStorage) (s : value) :
  required ≠ "" →
  requireAuth (Some required) pathname ls = Normal (Authorized s) →
  getSession ls = Normal s ∧ truthy (Some s) = true
  ∧ get s "role" = Normal (Some (VStr required)).
Proof.
  intros Hreq. unfold requireAuth.
  destruct (getSession ls) as [s'|] eqn:Hg; [|done].
  unfold mbind at 1, completion_bind at 1. cbv beta iota.
  destruct (truthy (Some s')) eqn:Hs; simpl negb; cbv iota; [|done].
  destruct (get_truthy s' "role" Hs) as [role Hrole]. rewrite Hrole.
  unfold mbind, completion_bind. cbv beta iota.
  rewrite (string_truthy_true _ Hreq).
  destruct (strict_equals role (Some (VStr required))) eqn:Heq;
    simpl negb; simpl andb; cbv iota.
  - intros [= <-]. split; [done|]. split; [done|].
    destruct role as [[| | |r| |]|]; simpl in Heq; try done.
    apply String.eqb_eq in Heq. by subst.
  - destruct (strict_equals role (Some (VStr "admin"))); intros [=].
Qed.

Context {L : JSONLaws J}.

Lemma getSession_createSession (user : User.t) (now : Z)
    (ls : localStorage) :
  getSession (createSession user now ls) = Normal (session_of user now).
Proof.
  unfold getSession, createSession. rewrite getItem_setItem.
  rewrite string_truthy_true by apply JSON_stringify_nonempty.
  by rewrite JSON_parse_stringify.
Qed.

Lemma requireAuth_createSession (required : option string)
    (pathname : string) (user : User.t) (now : Z) (ls : localStorage) :
  requireAuth required pathname (createSession user now ls)
  = Normal
      (match required with
       | Some r =>
           if string_truthy r && negb (String.eqb (User.role user) r)
           then Redirected
                  (getBasePath pathname
                   +:+ (if String.eqb (User.role user) "admin"
                        then "/admin.html" else "/dashboard.html"))
           else Authorized (session_of user now)
       | None => Authorized (session_of user now)
       end).
Proof.
  unfold requireAuth. rewrite getSession_createSession. simpl.
  assert (Hrole : session_of user now
                  = VObj {[ "pid" := VStr (User.pid user);
                            "role" := VStr (User.role user);
                            "timestamp" := VNum now ]}) by done.
  assert (Hget : ({[ "pid" := VStr (User.pid user);
                     "role" := VStr (User.role user);
                     "timestamp" := VNum now ]} : gmap string value)
                 !! "role" = Some (VStr (User.role user))) by done.
  unfold session_of at 1 2 3. rewrite Hget. simpl.
  destruct required as [r|]; [|done].
  destruct (string_truthy r); simpl; [|done].
  destruct (String.eqb (User.role user) r); simpl; [done|].
  by destruct (String.eqb (User.role user) "admin").
Qed.

End session_facts.

(** X2. Login round trip.  After [createSession], [getSession] returns the
    session of that user: the user's pid and role and the time of the login.
    A second login replaces the first record, and no other storage key is
    touched. *)
Theorem createSession_getSession {J : JSON} {L : JSONLaws J}
    (user user' : User.t) (now now' : Z) (ls : localStorage) :
  getSession (createSession user now ls) = Normal (session_of user now) ∧
  getSession (createSession user' now' (createSession user now ls))
  = Normal (session_of user' now') ∧
  (∀ key, key ≠ GOV_STORAGE_KEYS.SESSION →
          getItem (createSession user now ls) key = getItem ls key).
Proof.
  split; [apply getSession_createSession|].
  split; [apply getSession_createSession|].
  intros key Hkey. unfold createSession. by apply getItem_setItem_ne.
Qed.

Lemma createSession_getSession_witness :
  getSession (J := ref_json)
    (createSession (J := ref_json) (User.mk "12345678" "senator1" "senator")
       1740670200000 ∅)
  = Normal (session_of (User.mk "12345678" "senator1" "senator")
              1740670200000).
Proof.
  exact (proj1 (createSession_getSession (L := ref_json_laws)
                  (User.mk "12345678" "senator1" "senator")
                  (User.mk "admin001" "admin123" "admin")
                  1740670200000 1740670200001 ∅)).
Defined.

(** X3. Logout.  After [clearSession] there is no session: [getSession]
    returns null and every guarded page, whatever role it asks for, sends
    the visitor to the login page under the base path.  Logging out removes
    the session record only: submissions and the admin's overrides stay. *)
Theorem clearSession_logs_out {J : JSON} (ls : localStorage)
    (required : option string) (pathname : string) (F : value) :
  getSession (clearSession ls) = Normal VNull ∧
  requireAuth required pathname (clearSession ls)
  = Normal (Redirected (getBasePath pathname +:+ "/index.html")) ∧
  getSubmissions (clearSession ls) = getSubmissions ls ∧
  getMeetingsWithOverride (clearSession ls) F
  = getMeetingsWithOverride ls F ∧
  getAssignmentsWithOverride (clearSession ls) F
  = getAssignmentsWithOverride ls F.
Proof.
  split; [apply getSession_clearSession|].
  split; [apply requireAuth_no_session, getSession_clearSession|].
  unfold getSubmissions, getMeetingsWithOverride, getAssignmentsWithOverride,
    getWithOverride, clearSession, removeItem, getItem.
  by rewrite !lookup_delete_ne.
Qed.

(** X4. A broken session is no session.  When the session record is missing
    or does not parse, [getSession] returns null and a guarded page
    redirects to the login page; and whatever localStorage holds, neither
    [getSession] nor [requireAuth] throws. *)
Theorem requireAuth_lenient {J : JSON} (ls : localStorage)
    (required : option string) (pathname : string) :
  (no_usable_override GOV_STORAGE_KEYS.SESSION ls →
   getSession ls = Normal VNull ∧
   requireAuth required pathname ls
   = Normal (Redirected (getBasePath pathname +:+ "/index.html"))) ∧
  (∃ v, getSession ls = Normal v) ∧
  (∃ r, requireAuth required pathname ls = Normal r).
Proof.
  split; [|split; [apply getSession_total | apply requireAuth_total]].
  intros H%getSession_anonymous. split; [done|].
  by apply requireAuth_no_session.
Qed.

Lemma requireAuth_lenient_witness :
  no_usable_override (J := ref_json) GOV_STORAGE_KEYS.SESSION
    {[ GOV_STORAGE_KEYS.SESSION := "{pid:" ]} ∧
  requireAuth (J := ref_json) (Some "admin") "/sharedgovernance/admin.html"
    {[ GOV_STORAGE_KEYS.SESSION := "{pid:" ]}
  = Normal (Redirected "/sharedgovernance/index.html").
Proof.
  assert (H : no_usable_override (J := ref_json) GOV_STORAGE_KEYS.SESSION
                {[ GOV_STORAGE_KEYS.SESSION := "{pid:" ]}).
  { right. exists "{pid:", SyntaxError. split; reflexivity. }
  split; [exact H|].
  exact (proj2 (proj1 (requireAuth_lenient (J := ref_json)
                         {[ GOV_STORAGE_KEYS.SESSION := "{pid:" ]}
                         (Some "admin") "/sharedgovernance/admin.html") H)).
Defined.

(** X5. The role gate.  A guarded page that asks for a role gets a session
    only if the stored session carries exactly that role.  Right after a
    login, the page for the user's own role gets the session; a page for
    another role gets none and the visitor is sent to the user's own
    dashboard (admin.html for an admin, dashboard.html for everyone else);
    a page that asks for no role gets the session. *)
Theorem requireAuth_role_gate {J : JSON} {L : JSONLaws J}
    (required pathname : string) (user : User.t) (now : Z)
    (ls : localStorage) :
  required ≠ "" →
  (∀ ls' s, requireAuth (Some required) pathname ls' = Normal (Authorized s) →
            getSession ls' = Normal s
            ∧ get s "role" = Normal (Some (VStr required))) ∧
  (User.role user = required →
   requireAuth (Some required) pathname (createSession user now ls)
   = Normal (Authorized (session_of user now))) ∧
  (User.role user ≠ required →
   requireAuth (Some required) pathname (createSession user now ls)
   = Normal (Redirected
               (getBasePath pathname
                +:+ (if String.eqb (User.role user) "admin"
                     then "/admin.html" else "/dashboard.html")))) ∧
  requireAuth None pathname (createSession user now ls)
  = Normal (Authorized (session_of user now)).
Proof.
  intros Hreq. split; [|split; [|split]].
  - intros ls' s H.
    by apply requireAuth_Authorized in H as (? & _ & ?).
  - intros Hrole. rewrite requireAuth_createSession.
    rewrite (string_truthy_true _ Hreq), Hrole, String.eqb_refl. done.
  - intros Hrole. rewrite requireAuth_createSession.
    rewrite (string_truthy_true _ Hreq).
    by destruct (String.eqb_spec (User.role user) required).
  - by rewrite requireAuth_createSession.
Qed.

Lemma requireAuth_role_gate_witness :
  "admin" ≠ "" ∧
  requireAuth (J := ref_json) (Some "admin") "/sharedgovernance/admin.html"
    (createSession (J := ref_json) (User.mk "12345678" "senator1" "senator")
       1740670200000 ∅)
  = Normal (Redirected "/sharedgovernance/dashboard.html").
Proof.
  assert (H : "admin" ≠ "") by done.
  split; [exact H|].
  refine (proj1 (proj2 (proj2 (requireAuth_role_gate (L := ref_json_laws)
            "admin" "/sharedgovernance/admin.html"
            (User.mk "12345678" "senator1" "senator") 1740670200000 ∅ H)))
            _).
  done.
Defined.

(** ** What a senator sees *)

Section dashboard_facts.
Context {J : JSON}.

Lemma getAssignedCommittees_committees_of (pid : string)
    (assignments : list Assignment.t) :
  getAssignedCommittees pid assignments = committees_of pid assignments.
Proof.
  unfold getAssignedCommittees, committees_of.
  induction assignments as [|a l IH]; [done|]. simpl.
  destruct (String.eqb_spec (Assignment.pid a) pid) as [Heq|Hne].
  - by rewrite decide_True.
  - rewrite decide_False by done.
    destruct (list_find _ l) as [[i x]|]; simpl in *; done.
Qed.

Lemma find_insert_other {A} (f : A → bool) (l : list A) (idx : nat)
    (a a' : A) :
  l !! idx = Some a → f a = false → f a' = false →
  find f (<[idx := a']> l) = find f l.
Proof.
  revert idx. induction l as [|x l IH]; intros [|idx]; simpl; try done.
  - intros [= ->] Ha Ha'. by rewrite Ha, Ha'.
  - intros Hidx Ha Ha'. destruct (f x); [done|]. by eapply IH.
Qed.

Lemma find_delete_other {A} (f : A → bool) (l : list A) (idx : nat) (a : A) :
  l !! idx = Some a → f a = false → find f (delete idx l) = find f l.
Proof.
  revert idx. induction l as [|x l IH]; intros [|idx]; simpl; try done.
  - intros [= ->] Ha. by rewrite Ha.
  - intros Hidx Ha. destruct (f x); [done|]. by eapply IH.
Qed.

Lemma find_snoc_other {A} (f : A → bool) (l : list A) (a : A) :
  f a = false → find f (l ++ [a]) = find f l.
Proof.
  intros Ha. induction l as [|x l IH]; simpl; [by rewrite Ha|].
  by destruct (f x).
Qed.

(** An edit for one senator leaves every other senator's committees as they
    were. *)
Lemma addAssignment_other (pidInput committeeInput other : string)
    (l : list Assignment.t) (ls : localStorage) :
  other ≠ trim pidInput →
  getAssignedCommittees other (addAssignment pidInput committeeInput l ls).1
  = getAssignedCommittees other l.
Proof.
  intros Hother. unfold addAssignment.
  destruct (negb _ || negb _); [done|]. simpl.
  unfold getAssignedCommittees.
  destruct (list_find _ l) as [[idx a]|] eqn:Hfind.
  - apply list_find_Some in Hfind as (Hidx & Hpid & _).
    case_bool_decide; [done|].
    erewrite find_insert_other; [done|exact Hidx|..]; simpl;
      rewrite Hpid; by apply String.eqb_neq.
  - rewrite find_snoc_other; [done|]. simpl. by apply String.eqb_neq.
Qed.

Lemma removeAssignment_other (pidInput committeeInput other : string)
    (l : list Assignment.t) (ls : localStorage) :
  other ≠ trim pidInput →
  getAssignedCommittees other
    (removeAssignment pidInput committeeInput l ls).1
  = getAssignedCommittees other l.
Proof.
  intros Hother. unfold removeAssignment.
  destruct (negb _ || negb _); [done|].
  destruct (list_find _ l) as [[idx a]|] eqn:Hfind; [|done].
  apply list_find_Some in Hfind as (Hidx & Hpid & _). simpl.
  unfold getAssignedCommittees.
  destruct (filter _ _) as [|c cs].
  - erewrite find_delete_other; [done|exact Hidx|].
    rewrite Hpid. by apply String.eqb_neq.
  - erewrite find_insert_other; [done|exact Hidx|..]; simpl;
      rewrite Hpid; by apply String.eqb_neq.
Qed.

Lemma addAssignment_member (pidInput committeeInput : string)
    (l : list Assignment.t) (ls : localStorage) :
  trim pidInput ≠ "" → trim committeeInput ≠ "" →
  trim committeeInput
  ∈ getAssignedCommittees (trim pidInput)
      (addAssignment pidInput committeeInput l ls).1.
Proof.
  intros Hpid Hcommittee. rewrite getAssignedCommittees_committees_of.
  unfold addAssignment, committees_of.
  rewrite !string_truthy_true by done. simpl.
  destruct (list_find _ l) as [[idx a]|] eqn:Hfind.
  - case_bool_decide as Hin.
    + by rewrite Hfind.
    + rewrite (list_find_insert_same _ _ _ _ _ Hfind). simpl.
      apply sort_elem_of, elem_of_app. right. by left.
  - rewrite (list_find_snoc _ _ _ Hfind). simpl. by left.
Qed.

Lemma list_find_delete_unique (l : list Assignment.t) (pid : string)
    (idx : nat) (a : Assignment.t) :
  NoDup (Assignment.pid <$> l) →
  list_find (λ a, Assignment.pid a = pid) l = Some (idx, a) →
  list_find (λ a, Assignment.pid a = pid) (delete idx l) = None.
Proof.
  intros Hnd (Hidx & Hpid & _)%list_find_Some.
  apply list_find_None, Forall_forall. intros x Hx Hxpid.
  apply list_elem_of_lookup in Hx as [j Hj].
  rewrite list_lookup_delete in Hj.
  assert (Hi : (Assignment.pid <$> l) !! idx = Some pid)
    by (by rewrite list_lookup_fmap, Hidx; simpl; rewrite Hpid).
  case_decide as Hlt.
  - assert (Hj' : (Assignment.pid <$> l) !! j = Some pid)
      by (by rewrite list_lookup_fmap, Hj; simpl; rewrite Hxpid).
    pose proof (NoDup_lookup _ _ _ _ Hnd Hi Hj'). lia.
  - assert (Hj' : (Assignment.pid <$> l) !! (S j) = Some pid)
      by (by rewrite list_lookup_fmap, Hj; simpl; rewrite Hxpid).
    pose proof (NoDup_lookup _ _ _ _ Hnd Hi Hj'). lia.
Qed.

Lemma removeAssignment_committees (pidInput committeeInput : string)
    (l : list Assignment.t) (ls : localStorage) :
  assignments_ok l → trim pidInput ≠ "" → trim committeeInput ≠ "" →
  getAssignedCommittees (trim pidInput)
    (removeAssignment pidInput committeeInput l ls).1
  = filter (λ c, c ≠ trim committeeInput)
      (getAssignedCommittees (trim pidInput) l).
Proof.
  intros [Hnd _] Hpid Hcommittee. rewrite !getAssignedCommittees_committees_of.
  unfold removeAssignment, committees_of.
  rewrite !string_truthy_true by done. simpl.
  destruct (list_find _ l) as [[idx a]|] eqn:Hfind; simpl.
  - destruct (filter _ (default [] _)) as [|c cs] eqn:Hf.
    + by rewrite (list_find_delete_unique _ _ _ _ Hnd Hfind).
    + by rewrite (list_find_insert_same _ _ _ _ _ Hfind).
  - by rewrite Hfind.
Qed.

End dashboard_facts.

Section assignment_effects.
Context {J : JSON}.

Lemma StronglySorted_filter {A} (R : relation A) (P : A → Prop)
    `{∀ x, Decision (P x)} (l : list A) :
  StronglySorted R l → StronglySorted R (filter P l).
Proof.
  induction 1 as [|x l Hl IH Hx]; [constructor|].
  destruct (decide (P x)).
  - rewrite filter_cons_True by done. constructor; [done|].
    apply Forall_forall. intros y [_ Hy]%list_elem_of_filter.
    by apply (proj1 (Forall_forall _ _) Hx).
  - by rewrite filter_cons_False.
Qed.

Lemma filter_sort_snoc (cs : list string) (c : string) :
  c ∉ cs → filter (λ x, x ≠ c) (sort (cs ++ [c])) = sort cs.
Proof.
  intros Hnin. apply sort_unique.
  - apply StronglySorted_Sorted, StronglySorted_filter.
    apply Sorted_StronglySorted; [apply _|apply sort_Sorted].
  - unfold sort at 1. rewrite merge_sort_Permutation, filter_app.
    rewrite filter_cons_False, filter_nil, app_nil_r by (by intros []).
    apply reflexive_eq, filter_all, Forall_forall.
    by intros x Hx ->.
Qed.

Lemma filter_none {A} (P : A → Prop) `{∀ x, Decision (P x)} (l : list A) :
  Forall (λ x, ¬ P x) l → filter P l = [].
Proof.
  induction 1 as [|x l Hx _ IH]; [done|].
  by rewrite filter_cons_False.
Qed.

Lemma addAssignment_committees (pidInput committeeInput : string)
    (l : list Assignment.t) (ls : localStorage) :
  trim pidInput ≠ "" → trim committeeInput ≠ "" →
  let cs := getAssignedCommittees (trim pidInput) l in
  getAssignedCommittees (trim pidInput)
    (addAssignment pidInput committeeInput l ls).1
  = if bool_decide (trim committeeInput ∈ cs) then cs
    else sort (cs ++ [trim committeeInput]).
Proof.
  intros Hpid Hcommittee. simpl. rewrite !getAssignedCommittees_committees_of.
  unfold addAssignment, committees_of.
  rewrite !string_truthy_true by done. simpl.
  destruct (list_find _ l) as [[idx a]|] eqn:Hfind.
  - case_bool_decide as Hin.
    + by rewrite Hfind.
    + by rewrite (list_find_insert_same _ _ _ _ _ Hfind).
  - rewrite (list_find_snoc _ _ _ Hfind). simpl.
    apply sort_unique; [repeat constructor|done].
Qed.

Lemma filterMeetingsByCommittees_elem (meetings : list Meeting.t)
    (committees : list string) (m : Meeting.t) :
  m ∈ filterMeetingsByCommittees meetings committees
  ↔ m ∈ meetings ∧ ∃ c, Meeting.committee m = Some c ∧ c ∈ committees.
Proof.
  unfold filterMeetingsByCommittees. rewrite list_elem_of_filter.
  unfold includes. destruct (Meeting.committee m) as [c|].
  - rewrite bool_decide_eq_true. split.
    + intros [Hc Hm]. split; [done|]. by exists c.
    + intros [Hm (c' & [= <-] & Hc)]. done.
  - split; [by intros [? _]|]. by intros [_ (c' & ? & _)].
Qed.

Lemma getAssignedCommittees_unknown (pid : string)
    (assignments : list Assignment.t) :
  pid ∉ (Assignment.pid <$> assignments) →
  getAssignedCommittees pid assignments = [].
Proof.
  intros Hnin. rewrite getAssignedCommittees_committees_of.
  unfold committees_of.
  destruct (list_find _ assignments) as [[idx a]|] eqn:Hfind; [|done].
  apply list_find_Some in Hfind as (Hidx & Hpid & _).
  destruct Hnin. apply list_elem_of_fmap. exists a.
  split; [done|]. by eapply list_elem_of_lookup_2.
Qed.

Lemma getAssignedCommittees_first (pid : string)
    (before after : list Assignment.t) (a : Assignment.t) :
  pid ∉ (Assignment.pid <$> before) → Assignment.pid a = pid →
  getAssignedCommittees pid (before ++ a :: after)
  = default [] (Assignment.committees a).
Proof.
  intros Hnin Hpid. unfold getAssignedCommittees.
  induction before as [|b before IH]; simpl.
  - by rewrite Hpid, String.eqb_refl.
  - rewrite fmap_cons, not_elem_of_cons in Hnin. destruct Hnin as [Hb Hnin].
    destruct (String.eqb_spec (Assignment.pid b) pid); [done|]. by apply IH.
Qed.

End assignment_effects.

(** X6. What the dashboard shows.  The meetings shown to a senator are
    those of the meeting list, in its order, whose committee is one of the
    senator's assigned committees; a meeting without a committee is never
    shown; the senator's committees are those of the first assignment
    record with the senator's pid, and a senator without a record sees no
    meeting. *)
Theorem dashboard_visibility (pid : string)
    (assignments : list Assignment.t) (meetings : list Meeting.t) :
  let committees := getAssignedCommittees pid assignments in
  let shown := filterMeetingsByCommittees meetings committees in
  shown `sublist_of` meetings ∧
  (∀ m, m ∈ shown
        ↔ m ∈ meetings ∧ ∃ c, Meeting.committee m = Some c ∧ c ∈ committees) ∧
  (∀ before a after,
     assignments = before ++ a :: after →
     pid ∉ (Assignment.pid <$> before) → Assignment.pid a = pid →
     committees = default [] (Assignment.committees a)) ∧
  (pid ∉ (Assignment.pid <$> assignments) → committees = [] ∧ shown = []).
Proof.
  simpl. split; [apply sublist_filter|].
  split; [apply filterMeetingsByCommittees_elem|]. split.
  - intros before a after -> Hnin Hpid.
    by apply getAssignedCommittees_first.
  - intros Hnin. rewrite getAssignedCommittees_unknown by done.
    split; [done|]. unfold filterMeetingsByCommittees.
    apply filter_none, Forall_forall. intros m _. unfold includes.
    destruct (Meeting.committee m); [|done].
    rewrite bool_decide_eq_false_2 by apply not_elem_of_nil. done.
Qed.

(** X7. Assigning a committee.  With both input boxes non-blank, "Add
    Assignment" makes every meeting of the committee visible on the
    senator's dashboard, takes none of the senator's meetings away, leaves
    the committees of every other senator as they were, and writes the new
    list as the assignments override: the next read returns it whatever the
    data file holds. *)
Theorem addAssignment_shows_meetings {J : JSON} {L : JSONLaws J}
    (pidInput committeeInput : string) (assignments : list Assignment.t)
    (ls : localStorage) (meetings : list Meeting.t) (fromFile : value) :
  trim pidInput ≠ "" → trim committeeInput ≠ "" →
  let pid := trim pidInput in
  let committee := trim committeeInput in
  let added := addAssignment pidInput committeeInput assignments ls in
  let shown := λ l,
    filterMeetingsByCommittees meetings (getAssignedCommittees pid l) in
  (∀ m, m ∈ meetings → Meeting.committee m = Some committee →
        m ∈ shown added.1) ∧
  (∀ m, m ∈ shown assignments → m ∈ shown added.1) ∧
  (∀ other, other ≠ pid →
     getAssignedCommittees other added.1
     = getAssignedCommittees other assignments) ∧
  getAssignmentsWithOverride added.2 fromFile
  = Normal (VArr (Assignment_to_value <$> added.1)).
Proof.
  intros Hpid Hcommittee pid committee added shown. subst shown. simpl.
  split; [|split; [|split]].
  - intros m Hm Hc. apply filterMeetingsByCommittees_elem.
    split; [done|]. exists committee. split; [done|].
    by apply addAssignment_member.
  - intros m (Hm & c & Hc & Hin)%filterMeetingsByCommittees_elem.
    apply filterMeetingsByCommittees_elem. split; [done|].
    exists c. split; [done|]. subst added pid.
    rewrite addAssignment_committees by done.
    case_bool_decide; [done|].
    apply sort_elem_of, elem_of_app. by left.
  - intros other Hother. by apply addAssignment_other.
  - subst added. unfold addAssignment. fold pid committee.
    rewrite !string_truthy_true by done. simpl.
    apply getWithOverride_written.
Qed.

Lemma addAssignment_shows_meetings_witness :
  sample_meeting
  ∈ filterMeetingsByCommittees [sample_meeting]
      (getAssignedCommittees "12345678"
         (addAssignment (J := ref_json) " 12345678 "
            "Commission on Faculty Affairs" sample_assignments ∅).1).
Proof.
  assert (H1 : trim " 12345678 " ≠ "") by done.
  assert (H2 : trim "Commission on Faculty Affairs" ≠ "") by done.
  refine (proj1 (addAssignment_shows_meetings (L := ref_json_laws)
            " 12345678 " "Commission on Faculty Affairs" sample_assignments
            ∅ [sample_meeting] VNull H1 H2) sample_meeting _ _).
  - by left.
  - reflexivity.
Defined.

(** X8. Withdrawing a committee.  On a collection with one record per pid,
    and with both input boxes non-blank, "Remove Assignment" leaves the
    senator exactly the other committees, in their order; the senator's
    dashboard loses the meetings of that committee and no other; every
    other senator keeps the same committees; and a senator left without a
    committee is left without a record. *)
Theorem removeAssignment_hides_meetings {J : JSON}
    (pidInput committeeInput : string) (assignments : list Assignment.t)
    (ls : localStorage) (meetings : list Meeting.t) :
  assignments_ok assignments →
  trim pidInput ≠ "" → trim committeeInput ≠ "" →
  let pid := trim pidInput in
  let committee := trim committeeInput in
  let removed := (removeAssignment pidInput committeeInput assignments ls).1 in
  let shown := λ l,
    filterMeetingsByCommittees meetings (getAssignedCommittees pid l) in
  getAssignedCommittees pid removed
  = filter (λ c, c ≠ committee) (getAssignedCommittees pid assignments) ∧
  (∀ m, m ∈ shown removed
        ↔ m ∈ shown assignments ∧ Meeting.committee m ≠ Some committee) ∧
  (∀ other, other ≠ pid →
     getAssignedCommittees other removed
     = getAssignedCommittees other assignments) ∧
  (pid ∈ (Assignment.pid <$> removed) →
   getAssignedCommittees pid removed ≠ []).
Proof.
  intros Hok Hpid Hcommittee pid committee removed shown. subst shown. simpl.
  assert (Hcs : getAssignedCommittees pid removed
                = filter (λ c, c ≠ committee)
                    (getAssignedCommittees pid assignments))
    by (by apply removeAssignment_committees).
  split; [done|]. split; [|split].
  - intros m. rewrite !filterMeetingsByCommittees_elem, Hcs. split.
    + intros (Hm & c & Hc & [Hne Hin]%list_elem_of_filter).
      split; [|by rewrite Hc; intros [=]].
      split; [done|]. by exists c.
    + intros [(Hm & c & Hc & Hin) Hne]. split; [done|]. exists c.
      split; [done|]. apply list_elem_of_filter. split; [|done].
      intros ->. by destruct Hne.
  - intros other Hother. by apply removeAssignment_other.
  - subst removed. rewrite getAssignedCommittees_committees_of.
    unfold removeAssignment, committees_of. fold pid committee.
    rewrite !string_truthy_true by done. simpl.
    destruct (list_find _ assignments) as [[idx a]|] eqn:Hfind; simpl.
    + destruct (filter _ (default [] _)) as [|c cs] eqn:Hf.
      * intros (x & Hx & Hin)%list_elem_of_fmap.
        pose proof (list_find_delete_unique _ _ _ _ (proj1 Hok) Hfind)
          as Hnone.
        apply list_find_None in Hnone.
        by destruct (proj1 (Forall_forall _ _) Hnone x Hin).
      * by rewrite (list_find_insert_same _ _ _ _ _ Hfind).
    + intros (x & Hx & Hin)%list_elem_of_fmap.
      apply list_find_None in Hfind.
      by destruct (proj1 (Forall_forall _ _) Hfind x Hin).
Qed.

Lemma removeAssignment_hides_meetings_witness :
  assignments_ok sample_assignments ∧
  getAssignedCommittees "12345678"
    (removeAssignment (J := ref_json) "12345678 "
       "Academic Affairs Committee" sample_assignments ∅).1
  = ["Student Life Committee"].
Proof.
  assert (H : assignments_ok sample_assignments).
  { split.
    - apply (bool_decide_unpack _). by vm_compute.
    - apply (bool_decide_unpack _). by vm_compute. }
  assert (H1 : trim "12345678 " ≠ "") by done.
  assert (H2 : trim "Academic Affairs Committee" ≠ "") by done.
  split; [exact H|].
  exact (proj1 (removeAssignment_hides_meetings (J := ref_json)
           "12345678 " "Academic Affairs Committee" sample_assignments ∅ []
           H H1 H2)).
Defined.

(** X9. Assigning and withdrawing again.  On a collection with one record
    per pid, adding a committee the senator does not have and then removing
    it gives every senator the committees held before; the senator's own
    list comes back sorted, which is the only trace the two edits leave in
    what the dashboard reads. *)
Theorem add_then_remove_assignment {J : JSON}
    (pidInput committeeInput : string) (assignments : list Assignment.t)
    (ls ls' : localStorage) :
  assignments_ok assignments →
  trim pidInput ≠ "" → trim committeeInput ≠ "" →
  trim committeeInput ∉ getAssignedCommittees (trim pidInput) assignments →
  let added := (addAssignment pidInput committeeInput assignments ls).1 in
  let removed := (removeAssignment pidInput committeeInput added ls').1 in
  getAssignedCommittees (trim pidInput) removed
  = sort (getAssignedCommittees (trim pidInput) assignments) ∧
  (Sorted String.le (getAssignedCommittees (trim pidInput) assignments) →
   getAssignedCommittees (trim pidInput) removed
   = getAssignedCommittees (trim pidInput) assignments) ∧
  (∀ other, other ≠ trim pidInput →
     getAssignedCommittees other removed
     = getAssignedCommittees other assignments).
Proof.
  intros Hok Hpid Hcommittee Hnin added removed.
  assert (Heq : getAssignedCommittees (trim pidInput) removed
                = sort (getAssignedCommittees (trim pidInput) assignments)).
  { subst removed added.
    rewrite removeAssignment_committees
      by (done || by apply addAssignment_ok).
    rewrite addAssignment_committees by done. simpl.
    rewrite bool_decide_eq_false_2 by done.
    by apply filter_sort_snoc. }
  split; [done|]. split.
  - intros Hsorted. rewrite Heq. symmetry. by apply sort_unique.
  - intros other Hother. subst removed added.
    rewrite removeAssignment_other by done.
    by apply addAssignment_other.
Qed.

Lemma add_then_remove_assignment_witness :
  getAssignedCommittees "12345678"
    (removeAssignment (J := ref_json) "12345678" "Commission on Research"
       (addAssignment (J := ref_json) "12345678" "Commission on Research"
          sample_assignments ∅).1 ∅).1
  = getAssignedCommittees "12345678" sample_assignments.
Proof.
  assert (H : assignments_ok sample_assignments).
  { split.
    - apply (bool_decide_unpack _). by vm_compute.
    - apply (bool_decide_unpack _). by vm_compute. }
  assert (H1 : trim "12345678" ≠ "") by done.
  assert (H2 : trim "Commission on Research" ≠ "") by done.
  assert (H3 : trim "Commission on Research"
               ∉ getAssignedCommittees (trim "12345678") sample_assignments).
  { apply (bool_decide_unpack _). by vm_compute. }
  refine (proj1 (proj2 (add_then_remove_assignment (J := ref_json)
            "12345678" "Commission on Research" sample_assignments ∅ ∅
            H H1 H2 H3)) _).
  apply (bool_decide_unpack _). by vm_compute.
Defined.

(** X10. Edits that do nothing.  With a blank pid or a blank committee
    (empty or white space only) neither handler changes the list or the
    store; and "Remove Assignment" for a pid that has no record changes
    neither, so no override is written either. *)
Theorem assignment_edit_ignored {J : JSON}
    (pidInput committeeInput : string) (assignments : list Assignment.t)
    (ls : localStorage) :
  trim pidInput = "" ∨ trim committeeInput = ""
  ∨ trim pidInput ∉ (Assignment.pid <$> assignments) →
  removeAssignment pidInput committeeInput assignments ls = (assignments, ls)
  ∧ (trim pidInput = "" ∨ trim committeeInput = "" →
     addAssignment pidInput committeeInput assignments ls
     = (assignments, ls)).
Proof.
  intros H. split.
  - unfold removeAssignment.
    destruct (string_truthy (trim pidInput)) eqn:Hp; [|done].
    destruct (string_truthy (trim committeeInput)) eqn:Hc; [|done]. simpl.
    destruct H as [H|[H|H]].
    + by rewrite H in Hp.
    + by rewrite H in Hc.
    + destruct (list_find _ assignments) as [[idx a]|] eqn:Hfind; [|done].
      apply list_find_Some in Hfind as (Hidx & Hpid & _).
      destruct H. apply list_elem_of_fmap. exists a.
      split; [done|]. by eapply list_elem_of_lookup_2.
  - intros [H'|H']; unfold addAssignment; rewrite H'; simpl; [done|].
    by rewrite orb_true_r.
Qed.

Lemma assignment_edit_ignored_witness :
  removeAssignment (J := ref_json) "   " "Commission on Research"
    sample_assignments ∅
  = (sample_assignments, ∅).
Proof.
  assert (H : trim "   " = "" ∨ trim "Commission on Research" = ""
              ∨ trim "   " ∉ (Assignment.pid <$> sample_assignments))
    by (by left).
  exact (proj1 (assignment_edit_ignored (J := ref_json) "   "
                  "Commission on Research" sample_assignments ∅ H)).
Defined.

(** ** The meeting editor *)

Section meeting_editor_facts.
Context {J : JSON}.

Lemma set_meeting_field_id (field : meeting_field) (v : string)
    (m : Meeting.t) :
  Meeting.id (set_meeting_field field v m) = Meeting.id m.
Proof. by destruct field. Qed.

Lemma get_set_meeting_field (field : meeting_field) (v : string)
    (m : Meeting.t) :
  get_meeting_field field (set_meeting_field field v m) = Some v.
Proof. by destruct field. Qed.

Lemma get_set_meeting_field_ne (field f : meeting_field) (v : string)
    (m : Meeting.t) :
  f ≠ field →
  get_meeting_field f (set_meeting_field field v m) = get_meeting_field f m.
Proof. by destruct field, f. Qed.

Lemma list_find_id_None (id : string) (meetings : list Meeting.t) :
  list_find (λ m : Meeting.t, Meeting.id m = Some id) meetings = None
  ↔ Some id ∉ (Meeting.id <$> meetings).
Proof.
  rewrite list_find_None, Forall_forall. split.
  - intros H (m & Hid & Hm)%list_elem_of_fmap. by apply (H m).
  - intros H m Hm Hid. apply H, list_elem_of_fmap. by exists m.
Qed.

Lemma deleteMeeting_absent (id : string) (meetings : list Meeting.t)
    (ls : localStorage) :
  Some id ∉ (Meeting.id <$> meetings) →
  (deleteMeeting id meetings ls).1 = meetings.
Proof.
  intros Hnin. simpl. apply filter_all, Forall_forall.
  intros m Hm Hid. apply Hnin, list_elem_of_fmap. by exists m.
Qed.

End meeting_editor_facts.

(** X11. Removing a meeting.  The "Remove" button of a row keeps the
    meetings whose id differs from the row's, in their order, so that every
    meeting that shares the id goes with it; ids that were distinct stay
    distinct; the remaining list is written as the meetings override even
    when no meeting had the id, and the next read returns it whatever the
    data file holds. *)
Theorem deleteMeeting_effect {J : JSON} {L : JSONLaws J} (id : string)
    (meetings : list Meeting.t) (ls : localStorage) (fromFile : value) :
  let deleted := deleteMeeting id meetings ls in
  deleted.1 `sublist_of` meetings ∧
  (∀ m, m ∈ deleted.1 ↔ m ∈ meetings ∧ Meeting.id m ≠ Some id) ∧
  (Some id ∉ (Meeting.id <$> deleted.1)) ∧
  (NoDup (Meeting.id <$> meetings) → NoDup (Meeting.id <$> deleted.1)) ∧
  (Some id ∉ (Meeting.id <$> meetings) → deleted.1 = meetings) ∧
  getMeetingsWithOverride deleted.2 fromFile
  = Normal (VArr (Meeting_to_value <$> deleted.1)).
Proof.
  simpl. split; [apply sublist_filter|].
  split; [|split; [|split; [|split]]].
  - intros m. rewrite list_elem_of_filter. tauto.
  - intros (m & Hid & [Hne _]%list_elem_of_filter)%list_elem_of_fmap.
    by destruct Hne.
  - intros Hnd. eapply sublist_NoDup; [exact Hnd|].
    apply fmap_sublist, sublist_filter.
  - apply (deleteMeeting_absent id meetings ls).
  - apply getWithOverride_written.
Qed.

Lemma deleteMeeting_effect_witness :
  (deleteMeeting (J := ref_json) "m1" [sample_meeting] ∅).1 = [] ∧
  getMeetingsWithOverride (J := ref_json)
    (deleteMeeting (J := ref_json) "m1" [sample_meeting] ∅).2 VNull
  = Normal (VArr []).
Proof.
  split; [reflexivity|].
  exact (proj2 (proj2 (proj2 (proj2 (proj2
           (deleteMeeting_effect (L := ref_json_laws) "m1" [sample_meeting]
              ∅ VNull)))))).
Defined.

(** X12. A meeting added and removed again.  For a meeting list whose id
    numbers are below [Number.MAX_SAFE_INTEGER], "Add New Meeting" appends
    one meeting, named "New Meeting", dated today, with empty time and
    location, under the generated id and in the committee of the first
    meeting of the list ("New Committee" when the list is empty or that
    committee is missing or empty); pressing "Remove" on the new row gives
    back the list as it was before the two clicks. *)
Theorem addMeeting_then_deleteMeeting {J : JSON} (today : string)
    (meetings : list Meeting.t) (ls ls' : localStorage) :
  Forall (λ z, (z < MAX_SAFE_INTEGER)%Z) (id_suffixes meetings) →
  let added := (addMeeting today meetings ls).1 in
  let committee :=
    match head meetings ≫= Meeting.committee with
    | Some c => if decide (c = "") then "New Committee" else c
    | None => "New Committee"
    end in
  added
  = meetings ++ [Meeting.mk (Some (generateMeetingId meetings))
                   (Some committee) (Some "New Meeting") (Some today)
                   (Some "") (Some "")] ∧
  (deleteMeeting (generateMeetingId meetings) added ls').1 = meetings.
Proof.
  intros Hsafe added committee. subst added committee.
  assert (Hadd : (addMeeting today meetings ls).1
    = meetings ++ [Meeting.mk (Some (generateMeetingId meetings))
        (Some match head meetings ≫= Meeting.committee with
              | Some c => if decide (c = "") then "New Committee" else c
              | None => "New Committee"
              end) (Some "New Meeting") (Some today) (Some "") (Some "")]).
  { unfold addMeeting. simpl. do 3 f_equal.
    destruct meetings as [|m ms]; [done|]. simpl.
    destruct (Meeting.committee m) as [c|]; [|done]. simpl.
    unfold string_truthy. destruct (String.eqb_spec c "") as [->|Hne].
    - done.
    - by rewrite decide_False. }
  split; [exact Hadd|]. rewrite Hadd. simpl.
  rewrite filter_app, filter_cons_False, filter_nil, app_nil_r
    by (by intros []).
  apply filter_all, Forall_forall. intros m Hm Hid.
  apply (generateMeetingId_fresh meetings Hsafe), list_elem_of_fmap.
  by exists m.
Qed.

Lemma addMeeting_then_deleteMeeting_witness :
  (deleteMeeting (J := ref_json) (generateMeetingId [sample_meeting])
     (addMeeting (J := ref_json) "2025-03-01" [sample_meeting] ∅).1 ∅).1
  = [sample_meeting].
Proof.
  assert (H : Forall (λ z, (z < MAX_SAFE_INTEGER)%Z)
                (id_suffixes [sample_meeting])).
  { apply (bool_decide_unpack _). by vm_compute. }
  exact (proj2 (addMeeting_then_deleteMeeting (J := ref_json) "2025-03-01"
                  [sample_meeting] ∅ ∅ H)).
Defined.

(** X13. Editing a meeting in place.  An inline edit changes one field of
    the first meeting that has the row's id and nothing else: the list
    keeps its length and every meeting its id and its other fields, and
    meetings with another id are untouched; the edited field then reads
    back the typed value and the list is written as the meetings override.
    When no meeting has the id, neither the list nor the store changes. *)
Theorem editMeeting_effect {J : JSON} {L : JSONLaws J} (id : string)
    (field : meeting_field) (v : string) (meetings : list Meeting.t)
    (ls : localStorage) (fromFile : value) :
  let edited := editMeeting id field v meetings ls in
  Meeting.id <$> edited.1 = Meeting.id <$> meetings ∧
  (∀ i m, meetings !! i = Some m →
     ∃ m', edited.1 !! i = Some m' ∧
           (∀ f, f ≠ field → get_meeting_field f m' = get_meeting_field f m) ∧
           (Meeting.id m ≠ Some id → m' = m)) ∧
  (Some id ∈ (Meeting.id <$> meetings) →
   (∃ i m, (∀ j m', j < i → meetings !! j = Some m' →
              Meeting.id m' ≠ Some id) ∧
           meetings !! i = Some m ∧ Meeting.id m = Some id ∧
           edited.1 = <[i := set_meeting_field field v m]> meetings ∧
           get_meeting_field field (set_meeting_field field v m) = Some v) ∧
   getMeetingsWithOverride edited.2 fromFile
   = Normal (VArr (Meeting_to_value <$> edited.1))) ∧
  (Some id ∉ (Meeting.id <$> meetings) → edited = (meetings, ls)).
Proof.
  simpl. unfold editMeeting.
  destruct (list_find _ meetings) as [[idx meeting]|] eqn:Hfind.
  - pose proof Hfind as (Hidx & Hid & Hbefore)%list_find_Some. simpl.
    split; [|split; [|split]].
    + rewrite list_fmap_insert, set_meeting_field_id.
      apply list_insert_id. by rewrite list_lookup_fmap, Hidx.
    + intros i m Hi. destruct (decide (i = idx)) as [->|Hne].
      * exists (set_meeting_field field v meeting).
        rewrite list_lookup_insert_eq by (by eapply lookup_lt_Some).
        assert (m = meeting) as -> by congruence.
        split; [done|]. split; [|done].
        intros f Hf. by apply get_set_meeting_field_ne.
      * exists m. by rewrite list_lookup_insert_ne.
    + intros _. split; [|apply getWithOverride_written].
      exists idx, meeting. split; [|split; [done|split; [done|split]]].
      * intros j m' Hj Hm'. by eapply Hbefore.
      * done.
      * apply get_set_meeting_field.
    + intros Hnin. apply list_find_id_None in Hnin. congruence.
  - simpl. split; [done|]. split; [|split; [|done]].
    + intros i m Hi. by exists m.
    + intros Hin. by apply list_find_id_None in Hfind.
Qed.

Lemma editMeeting_effect_witness :
  Meeting.id
  <$> (editMeeting (J := ref_json) "m1" field_time "2:00 PM"
         [sample_meeting] ∅).1
  = [Some "m1"].
Proof.
  exact (proj1 (editMeeting_effect (L := ref_json_laws) "m1" field_time
                  "2:00 PM" [sample_meeting] ∅ VNull)).
Defined.

(** ** The import as a whole *)

Section import_typed_facts.

Lemma import_entries_null (M imported : list value) :
  VNull ∈ imported → ∃ e, import_entries M imported = Throw e.
Proof.
  revert M. induction imported as [|s rest IH]; intros M.
  { by intros ?%elem_of_nil. }
  intros Hin. simpl.
  destruct (import_entry M s) as [M'|e] eqn:Hs; [|by exists e]. simpl.
  apply elem_of_cons in Hin as [<-|Hin]; [done|]. by apply IH.
Qed.

Lemma is_duplicate_Submission (s m : Submission.t) :
  is_duplicate (Submission_to_value s) (Submission_to_value m)
  = Normal (bool_decide (Submission_key m = Submission_key s)).
Proof.
  unfold Submission_to_value. rewrite is_duplicate_obj.
  pose proof (key_triple_Submission s) as Hs.
  pose proof (key_triple_Submission m) as Hm.
  unfold key_triple in Hs, Hm.
  injection Hs as -> -> ->. injection Hm as -> -> ->.
  unfold Submission_key. f_equal.
  assert (Hi : strict_equals (VStr <$> Submission.meetingId m)
                 (VStr <$> Submission.meetingId s)
               = bool_decide (Submission.meetingId m
                              = Submission.meetingId s)).
  { destruct (Submission.meetingId m) as [x|],
      (Submission.meetingId s) as [y|]; try done.
    change (String.eqb x y = bool_decide (Some x = Some y)).
    destruct (String.eqb_spec x y) as [->|Hne]; symmetry.
    - by apply bool_decide_eq_true_2.
    - apply bool_decide_eq_false_2. by intros [=]. }
  rewrite Hi.
  change (strict_equals (Some (VStr ?x)) (Some (VStr ?y)))
    with (String.eqb x y).
  destruct (String.eqb_spec (Submission.pid m) (Submission.pid s))
    as [Hp|Hp];
    [|symmetry; apply bool_decide_eq_false_2; by intros [=]].
  case_bool_decide as Hmi;
    [|symmetry; apply bool_decide_eq_false_2; by intros [=]].
  destruct (String.eqb_spec (Submission.timestamp m)
              (Submission.timestamp s)) as [Ht|Ht]; symmetry.
  - apply bool_decide_eq_true_2. by rewrite Hp, Hmi, Ht.
  - apply bool_decide_eq_false_2. by intros [=].
Qed.

Lemma Array_some_Submission (s : Submission.t)
    (existing : list Submission.t) :
  Array_some (is_duplicate (Submission_to_value s))
    (Submission_to_value <$> existing)
  = Normal (bool_decide (Submission_key s ∈ Submission_key <$> existing)).
Proof.
  induction existing as [|m existing IH].
  { done. }
  rewrite !fmap_cons. cbn [Array_some].
  rewrite is_duplicate_Submission.
  unfold mbind, completion_bind. cbv beta iota.
  destruct (decide (Submission_key m = Submission_key s)) as [Hm|Hm].
  - rewrite (bool_decide_eq_true_2 _ Hm). f_equal. symmetry.
    apply bool_decide_eq_true_2. rewrite Hm. by left.
  - rewrite (bool_decide_eq_false_2 _ Hm), IH. f_equal.
    apply bool_decide_ext. rewrite elem_of_cons.
    split; [by right|]. by intros [?|?].
Qed.

Lemma has_required_fields_bool (s : Submission.t) :
  ∃ b, has_required_fields (Submission_to_value s) = Normal b.
Proof. unfold Submission_to_value. rewrite has_required_fields_obj. eauto. Qed.

Lemma import_entry_Submission (existing : list Submission.t)
    (s : Submission.t) :
  (has_required_fields (Submission_to_value s) = Normal true
   ∧ (Submission_key s ∉ (Submission_key <$> existing))
   ∧ import_entry (Submission_to_value <$> existing) (Submission_to_value s)
     = Normal (Submission_to_value <$> (existing ++ [s]))) ∨
  ((has_required_fields (Submission_to_value s) = Normal true →
    Submission_key s ∈ Submission_key <$> existing)
   ∧ import_entry (Submission_to_value <$> existing) (Submission_to_value s)
     = Normal (Submission_to_value <$> existing)).
Proof.
  unfold import_entry.
  destruct (has_required_fields_bool s) as [[] Hb]; rewrite Hb; simpl.
  - rewrite Array_some_Submission. simpl. case_bool_decide as Hdup.
    + right. by split.
    + left. split; [done|]. split; [done|]. by rewrite fmap_app.
  - right. by split.
Qed.

Lemma import_entries_Submission (candidates existing : list Submission.t) :
  ∃ added,
    import_entries (Submission_to_value <$> existing)
      (Submission_to_value <$> candidates)
    = Normal (Submission_to_value <$> (existing ++ added)) ∧
    added `sublist_of` candidates ∧
    Forall (λ s, has_required_fields (Submission_to_value s) = Normal true
                 ∧ Submission_key s ∉ (Submission_key <$> existing)) added ∧
    NoDup (Submission_key <$> added) ∧
    (∀ s, s ∈ candidates →
          has_required_fields (Submission_to_value s) = Normal true →
          Submission_key s ∈ Submission_key <$> (existing ++ added)).
Proof.
  revert existing. induction candidates as [|s rest IH]; intros existing.
  { exists []. rewrite app_nil_r. split; [done|]. split; [done|].
    split; [done|]. split; [constructor|]. by intros s ?%elem_of_nil. }
  rewrite fmap_cons. cbn [import_entries].
  destruct (import_entry_Submission existing s)
    as [(Hok & Hnew & Hs)|[Hdup Hs]]; rewrite Hs;
    unfold mbind, completion_bind; cbv beta iota.
  - destruct (IH (existing ++ [s]))
      as (added & Himp & Hsub & Hall & Hnd & Hin).
    exists (s :: added). rewrite Himp, <- app_assoc.
    split; [done|]. split; [by constructor|].
    assert (Hs' : Submission_key s ∉ (Submission_key <$> added)).
    { intros (x & Hx & Hxin)%list_elem_of_fmap.
      destruct (proj1 (Forall_forall _ _) Hall x Hxin) as [_ Hnin].
      apply Hnin. rewrite fmap_app, elem_of_app. right.
      rewrite <- Hx. by left. }
    split; [|split].
    + constructor; [done|]. apply Forall_forall. intros x Hx.
      destruct (proj1 (Forall_forall _ _) Hall x Hx) as [Hxok Hnin].
      split; [done|]. intros Hxe. apply Hnin.
      rewrite fmap_app, elem_of_app. by left.
    + rewrite fmap_cons. by constructor.
    + intros x [->|Hx]%elem_of_cons Hxok.
      * rewrite fmap_app, elem_of_app. right. rewrite fmap_cons. by left.
      * specialize (Hin x Hx Hxok). by rewrite <- app_assoc in Hin.
  - destruct (IH existing) as (added & Himp & Hsub & Hall & Hnd & Hin).
    exists added. rewrite Himp. split; [done|].
    split; [by apply sublist_cons|].
    split; [done|]. split; [done|].
    intros x [->|Hx]%elem_of_cons Hxok.
    + rewrite fmap_app, elem_of_app. left. by apply Hdup.
    + by apply Hin.
Qed.

End import_typed_facts.

(** X14. An import is all or nothing.  When the chosen file is not JSON,
    is JSON but not an array, or is an array with a [null] among its
    entries, the store is left exactly as it was (no entry of the file is
    kept, not even the valid ones before the [null]) and the alert is the
    invalid-file message. *)
Theorem importSubmissions_all_or_nothing {J : JSON} (result : string)
    (ls : localStorage) :
  (∃ e, JSON_parse result = Throw e)
  ∨ (∃ v, JSON_parse result = Normal v ∧ isArray v = false)
  ∨ (∃ imported, JSON_parse result = Normal (VArr imported)
                 ∧ VNull ∈ imported) →
  importSubmissions result ls = (ls, invalid_file_alert).
Proof.
  unfold importSubmissions, import_merge.
  intros [[e ->]|[(v & -> & Hv)|(imported & -> & Hnull)]]; simpl.
  - done.
  - by destruct v.
  - destruct (getSubmissions ls) as [existing|e]; simpl; [|done].
    destruct (spread existing) as [merged|e]; simpl; [|done].
    by destruct (import_entries_null merged imported Hnull) as [e ->].
Qed.

Lemma importSubmissions_all_or_nothing_witness :
  importSubmissions (J := ref_json)
    (RefJSON.stringify (VArr [VObj sample_entry; VNull])) ∅
  = (∅, invalid_file_alert).
Proof.
  apply (importSubmissions_all_or_nothing (J := ref_json)).
  right. right. exists [VObj sample_entry; VNull].
  split; [|by right; left].
  apply (JSON_parse_stringify (JSONLaws := ref_json_laws)).
Defined.

(** X15. An import is a union by key.  When the store holds the records
    [existing] and the file is an export of the records [candidates], the
    store afterwards holds [existing] followed by some of the candidates,
    in the order of the file.  Each appended record passed the
    required-field test and its (pid, meetingId, timestamp) key was not in
    the store; no key is appended twice; every candidate that passes the
    test has its key in the store afterwards; so a store without duplicate
    keys stays without them. *)
Theorem importSubmissions_union_by_key {J : JSON} {L : JSONLaws J}
    (existing candidates : list Submission.t) (ls : localStorage) :
  getSubmissions ls = Normal (VArr (Submission_to_value <$> existing)) →
  let file := JSON_stringify (VArr (Submission_to_value <$> candidates)) in
  ∃ added,
    getSubmissions (importSubmissions file ls).1
    = Normal (VArr (Submission_to_value <$> (existing ++ added))) ∧
    added `sublist_of` candidates ∧
    Forall (λ s, has_required_fields (Submission_to_value s) = Normal true
                 ∧ Submission_key s ∉ (Submission_key <$> existing)) added ∧
    NoDup (Submission_key <$> added) ∧
    (∀ s, s ∈ candidates →
          has_required_fields (Submission_to_value s) = Normal true →
          Submission_key s ∈ Submission_key <$> (existing ++ added)) ∧
    (NoDup (Submission_key <$> existing) →
     NoDup (Submission_key <$> (existing ++ added))).
Proof.
  intros Hls file.
  destruct (import_entries_Submission candidates existing)
    as (added & Himp & Hsub & Hall & Hnd & Hin).
  exists added. split; [|split; [done|split; [done|split; [done|split]]]].
  - unfold importSubmissions, import_merge, file.
    rewrite JSON_parse_stringify. simpl. rewrite Hls. simpl.
    rewrite Himp. simpl. apply getSubmissions_written.
  - done.
  - intros Hex. rewrite fmap_app. apply NoDup_app.
    split; [done|]. split; [|done].
    intros k Hk (x & -> & Hx)%list_elem_of_fmap.
    by destruct (proj1 (Forall_forall _ _) Hall x Hx) as [_ Hnin].
Qed.

Lemma importSubmissions_union_by_key_witness :
  ∃ added,
    getSubmissions (J := ref_json)
      (importSubmissions (J := ref_json) sample_export
         (setItem ∅ GOV_STORAGE_KEYS.SUBMISSIONS
            (RefJSON.stringify
               (VArr (Submission_to_value <$> [sample_submission]))))).1
    = Normal (VArr (Submission_to_value <$> ([sample_submission] ++ added)))
    ∧ NoDup (Submission_key <$> ([sample_submission] ++ added)).
Proof.
  assert (H : getSubmissions (J := ref_json)
                (setItem ∅ GOV_STORAGE_KEYS.SUBMISSIONS
                   (RefJSON.stringify
                      (VArr (Submission_to_value <$> [sample_submission]))))
              = Normal (VArr (Submission_to_value <$> [sample_submission]))).
  { apply (getSubmissions_written (L := ref_json_laws)). }
  destruct (importSubmissions_union_by_key (L := ref_json_laws)
              [sample_submission] [sample_submission; sample_submission]
              _ H) as (added & Hget & _ & _ & _ & _ & Hnd).
  exists added. split; [exact Hget|].
  apply Hnd. apply NoDup_singleton.
Defined.

(** ** Submissions from the dashboard *)

Section submission_facts.
Context {J : JSON}.

Lemma saveSubmission_not_array (ls : localStorage) (v s : value) :
  getSubmissions ls = Normal v → isArray v = false →
  saveSubmission s ls = Throw TypeError.
Proof. unfold saveSubmission. intros -> Hv. by destruct v. Qed.

Lemma has_required_fields_Submission (s : Submission.t) :
  has_required_fields (Submission_to_value s)
  = Normal (string_truthy (Submission.pid s)
            && from_option string_truthy false (Submission.meetingName s)
            && string_truthy (Submission.timestamp s)).
Proof.
  unfold Submission_to_value. rewrite has_required_fields_obj.
  destruct s as [pid cn mn md mi ts ac nt an ad].
  destruct cn, mn, md, mi, an, ad; reflexivity.
Qed.

Lemma Submission_key_new_submission (session : Session.t)
    (meeting : Meeting.t) (attendance : bool) (notes now : string) :
  Submission_key (new_submission session meeting attendance notes now)
  = (Session.pid session, Meeting.id meeting, now).
Proof. done. Qed.

End submission_facts.

(** X16. A submission without a file.  When the stored collection is an
    array, the submit handler records the submission at once: it is the
    last entry of the collection read back, the entries before it are the
    old ones, nothing else in the store changes, the success notice is put
    up for five seconds and no file read is started.  When what is stored
    under the submissions key is JSON but not an array, the handler (and
    the completion of a file read as well) ends in a TypeError and records
    nothing. *)
Theorem handleSubmission_without_file {J : JSON} {L : JSONLaws J}
    (session : Session.t) (meeting : Meeting.t) (attendance : bool)
    (notes now : string) (ls : localStorage) (v : value) :
  getSubmissions ls = Normal v →
  let submission := new_submission session meeting attendance notes now in
  (∀ C, v = VArr C →
     ∃ ls',
       handleSubmission session meeting attendance notes now None ls
       = Normal (SubmitOutcome ls'
                   [Notice "alert alert-success"
                      "Submission received. Thank you!" 5000] None) ∧
       getSubmissions ls'
       = Normal (VArr (C ++ [Submission_to_value submission])) ∧
       ∀ key, key ≠ GOV_STORAGE_KEYS.SUBMISSIONS →
              getItem ls' key = getItem ls key) ∧
  (isArray v = false →
   handleSubmission session meeting attendance notes now None ls
   = Throw TypeError ∧
   ∀ file result,
     reader_onload submission file result ls = Throw TypeError).
Proof.
  intros Hv submission. split.
  - intros C ->. unfold handleSubmission, saveAndConfirm.
    rewrite (saveSubmission_array ls C _ Hv). simpl.
    eexists. split; [done|]. split; [apply getSubmissions_written|].
    intros key Hkey. by apply getItem_setItem_ne.
  - intros Harr. unfold handleSubmission, reader_onload, saveAndConfirm.
    split.
    + by rewrite (saveSubmission_not_array ls v _ Hv Harr).
    + intros file result.
      by rewrite (saveSubmission_not_array ls v _ Hv Harr).
Qed.

Lemma handleSubmission_without_file_witness :
  handleSubmission (J := ref_json) sample_session sample_meeting true
    "Quorum reached." "2025-02-27T15:30:00.000Z" None
    {[ GOV_STORAGE_KEYS.SUBMISSIONS := "{}" ]}
  = Throw TypeError.
Proof.
  assert (H : getSubmissions (J := ref_json)
                {[ GOV_STORAGE_KEYS.SUBMISSIONS := "{}" ]}
              = Normal (VObj ∅)) by (by vm_compute).
  apply (proj2 (handleSubmission_without_file (L := ref_json_laws)
                  sample_session sample_meeting true "Quorum reached."
                  "2025-02-27T15:30:00.000Z" _ _ H)).
  reflexivity.
Defined.

(** X17. Dashboard submissions and the import.  A submission recorded for
    a meeting that has no name, or an empty one, is skipped by every
    import.  One recorded by a signed-in senator for a named meeting is
    appended by an import into a collection that does not hold its (pid,
    meetingId, timestamp) key.  And the key ignores attendance, notes and
    attachment: once a collection holds a submission, a second one by the
    same senator for the same meeting with the same timestamp is dropped
    whatever else it says. *)
Theorem recorded_submission_import (session : Session.t)
    (meeting : Meeting.t) (attendance : bool) (notes now : string)
    (existing : list Submission.t) :
  let submission := new_submission session meeting attendance notes now in
  let import := λ s,
    import_entry (Submission_to_value <$> existing) (Submission_to_value s) in
  (Meeting.name meeting = None ∨ Meeting.name meeting = Some "" →
   import submission = Normal (Submission_to_value <$> existing)) ∧
  (∀ name, Session.pid session ≠ "" → now ≠ "" →
     Meeting.name meeting = Some name → name ≠ "" →
     (Session.pid session, Meeting.id meeting, now)
     ∉ (Submission_key <$> existing) →
     import submission
     = Normal (Submission_to_value <$> (existing ++ [submission]))) ∧
  (∀ attendance' notes' file result,
     submission ∈ existing →
     import (with_attachment
               (new_submission session meeting attendance' notes' now)
               file result)
     = Normal (Submission_to_value <$> existing)).
Proof.
  simpl. unfold import_entry. split; [|split].
  - intros Hname. rewrite has_required_fields_Submission. simpl.
    destruct Hname as [-> | ->]; simpl; by rewrite andb_false_r.
  - intros name Hpid Hnow Hname Hne Hkey.
    rewrite has_required_fields_Submission. simpl. rewrite Hname. simpl.
    rewrite !string_truthy_true by done. simpl.
    rewrite Array_some_Submission. simpl.
    rewrite bool_decide_eq_false_2 by done. by rewrite fmap_app.
  - intros attendance' notes' file result Hin.
    destruct (has_required_fields_bool
                (with_attachment
                   (new_submission session meeting attendance' notes' now)
                   file result)) as [[] ->]; simpl; [|done].
    rewrite Array_some_Submission. simpl.
    rewrite bool_decide_eq_true_2; [done|].
    apply list_elem_of_fmap.
    exists (new_submission session meeting attendance notes now).
    by split.
Qed.

(** ** The calendar *)

Section calendar_color_facts.

Lemma Set_values_elem {A} `{EqDecision A} (l : list A) (x : A) :
  x ∈ Set_values l ↔ x ∈ l.
Proof.
  induction l as [|a l IH]; [done|]. simpl.
  rewrite !elem_of_cons, list_elem_of_filter, IH.
  destruct (decide (x = a)) as [Heq|Hne]; [by split; left|].
  split; [intros [?|[_ ?]]; [done|by right]|].
  intros [?|?]; [done|by right].
Qed.

Lemma Set_values_NoDup {A} `{EqDecision A} (l : list A) :
  NoDup (Set_values l).
Proof.
  induction l as [|a l IH]; [constructor|]. simpl. constructor.
  - by intros [Hne _]%list_elem_of_filter.
  - by apply NoDup_filter.
Qed.

Lemma committee_names_elem (meetings : list Meeting.t) (c : string) :
  c ∈ committee_names meetings
  ↔ c ≠ "" ∧ Some c ∈ (Meeting.committee <$> meetings).
Proof.
  unfold committee_names. rewrite list_elem_of_omap, list_elem_of_fmap.
  split.
  - intros (m & Hm & Hc). destruct (Meeting.committee m) as [c'|] eqn:Hc';
      simpl in Hc; [|done].
    destruct (string_truthy c') eqn:Ht; [|done]. injection Hc as ->.
    split; [|by exists m].
    intros ->. done.
  - intros (Hne & m & Hc & Hm). exists m. split; [done|].
    rewrite <- Hc. simpl. by rewrite string_truthy_true.
Qed.

Lemma set_color_lookup (committee color key : string)
    (colorMap : gmap string string) :
  set_color committee color colorMap !! key
  = if decide (committee = key ∧ committee ≠ "__proto__") then Some color
    else colorMap !! key.
Proof.
  unfold set_color.
  destruct (String.eqb_spec committee "__proto__") as [->|Hne].
  - rewrite decide_False; [done|]. by intros [_ ?].
  - destruct (decide (committee = key)) as [->|Hk].
    + rewrite decide_True by done. apply lookup_insert_eq.
    + rewrite decide_False by (by intros [? _]). by apply lookup_insert_ne.
Qed.

Lemma assign_colors_other (committees : list string) (i : nat)
    (colorMap : gmap string string) (key : string) :
  key ∉ committees ∨ key = "__proto__" →
  assign_colors i committees colorMap !! key = colorMap !! key.
Proof.
  revert i colorMap. induction committees as [|c cs IH]; intros i colorMap H;
    [done|].
  simpl. rewrite IH, set_color_lookup.
  - rewrite decide_False; [done|]. intros [-> Hne].
    destruct H as [H|H]; [|done]. apply H. by left.
  - destruct H as [H|H]; [left|by right].
    intros Hin. apply H. by right.
Qed.

Lemma assign_colors_at (committees : list string) (i k : nat)
    (colorMap : gmap string string) (c : string) :
  NoDup committees → committees !! k = Some c → c ≠ "__proto__" →
  assign_colors i committees colorMap !! c
  = Some (default "" (palette !! ((i + k) mod length palette))).
Proof.
  revert i k colorMap.
  induction committees as [|x cs IH]; intros i k colorMap Hnd Hk Hc; [done|].
  apply NoDup_cons in Hnd as [Hx Hnd]. cbn [assign_colors].
  destruct k as [|k].
  - injection Hk as ->. rewrite assign_colors_other by (by left).
    rewrite set_color_lookup, decide_True by done.
    by rewrite Nat.add_0_r.
  - rewrite (IH (S i) k) by done. by rewrite Nat.add_succ_r.
Qed.

Lemma palette_lookup (i : nat) :
  Some (default "" (palette !! (i mod length palette)))
  = palette !! (i mod length palette).
Proof.
  assert (Hlt : i mod length palette < length palette)
    by (by apply Nat.mod_upper_bound).
  apply lookup_lt_is_Some in Hlt as [color ->]. done.
Qed.

Lemma palette_NoDup : NoDup palette.
Proof. apply (bool_decide_unpack _). by vm_compute. Qed.

End calendar_color_facts.

(** X18. Committee colors of the calendar.  The committees that get a
    color are the distinct non-empty committee names of the meetings, in
    sorted order; the committee at position i gets color i of the
    twelve-color palette, wrapping around after twelve; the name
    "__proto__" is the one name that never gets an entry.  So with at most
    twelve committees no two share a color, and the map depends on the set
    of committee names only, not on the order of the meetings. *)
Theorem buildCommitteeColorMap_colors (meetings : list Meeting.t) :
  let committees := sort (Set_values (committee_names meetings)) in
  let colorMap := buildCommitteeColorMap meetings in
  NoDup committees ∧ Sorted String.le committees ∧
  (∀ c, c ∈ committees
        ↔ c ≠ "" ∧ Some c ∈ (Meeting.committee <$> meetings)) ∧
  (∀ i c, committees !! i = Some c → c ≠ "__proto__" →
          colorMap !! c = palette !! (i mod 12)) ∧
  (∀ c, is_Some (colorMap !! c) ↔ c ∈ committees ∧ c ≠ "__proto__") ∧
  (length committees ≤ 12 →
   ∀ c c' color, colorMap !! c = Some color → colorMap !! c' = Some color →
                 c = c') ∧
  (∀ meetings', meetings' ≡ₚ meetings →
                buildCommitteeColorMap meetings' = colorMap).
Proof.
  intros committees colorMap.
  assert (Hnd : NoDup committees) by apply sort_NoDup, Set_values_NoDup.
  assert (Hat : ∀ i c, committees !! i = Some c → c ≠ "__proto__" →
                       colorMap !! c = palette !! (i mod 12)).
  { intros i c Hi Hc. unfold colorMap, buildCommitteeColorMap.
    fold committees. rewrite (assign_colors_at committees 0 i) by done.
    apply (palette_lookup i). }
  assert (Hdom : ∀ c, is_Some (colorMap !! c)
                      ↔ c ∈ committees ∧ c ≠ "__proto__").
  { intros c. split.
    - intros Hsome.
      destruct (decide (c ∈ committees ∧ c ≠ "__proto__")) as [|Hn];
        [done|].
      unfold colorMap, buildCommitteeColorMap in Hsome. fold committees in Hsome.
      rewrite assign_colors_other in Hsome.
      + by destruct Hsome.
      + destruct (decide (c = "__proto__")); [by right|left].
        intros Hin. by apply Hn.
    - intros [[i Hi]%list_elem_of_lookup Hc].
      rewrite (Hat i c Hi Hc). apply lookup_lt_is_Some.
      by apply (Nat.mod_upper_bound i 12). }
  split; [done|]. split; [apply sort_Sorted|].
  split; [|split; [done|split; [done|split]]].
  - intros c. unfold committees.
    by rewrite sort_elem_of, Set_values_elem, committee_names_elem.
  - intros Hlen c c' color Hc Hc'.
    destruct (proj1 (Hdom c) (mk_is_Some _ _ Hc))
      as [[i Hi]%list_elem_of_lookup Hp].
    destruct (proj1 (Hdom c') (mk_is_Some _ _ Hc'))
      as [[j Hj]%list_elem_of_lookup Hp'].
    pose proof (lookup_lt_Some _ _ _ Hi) as Hlti.
    pose proof (lookup_lt_Some _ _ _ Hj) as Hltj.
    rewrite (Hat i c Hi Hp), Nat.mod_small in Hc by lia.
    rewrite (Hat j c' Hj Hp'), Nat.mod_small in Hc' by lia.
    assert (i = j) as -> by exact (NoDup_lookup _ _ _ _ palette_NoDup Hc Hc').
    congruence.
  - intros meetings' Hperm. unfold colorMap, buildCommitteeColorMap.
    f_equal. apply sort_unique; [apply sort_Sorted|].
    unfold sort at 1. rewrite merge_sort_Permutation.
    apply NoDup_Permutation; [apply Set_values_NoDup..|].
    intros c. rewrite !Set_values_elem. unfold committee_names.
    by rewrite Hperm.
Qed.

Section calendar_escape_facts.
Import RefJSONFacts.

Lemma replace_char_app (c : ascii) (by_ a b : string) :
  replace_char c by_ (a +:+ b)
  = replace_char c by_ a +:+ replace_char c by_ b.
Proof.
  induction a as [|x a IH]; [done|].
  rewrite string_app_cons. simpl. rewrite IH.
  destruct (Ascii.eqb x c); [by rewrite string_app_assoc|done].
Qed.

Lemma replace_char_cons (c x : ascii) (by_ s : string) :
  replace_char c by_ (String x s)
  = replace_char c by_ (String x "") +:+ replace_char c by_ s.
Proof. apply (replace_char_app c by_ (String x "") s). Qed.

Lemma escape_html_char_replace (x : ascii) :
  replace_char "034" "&quot;"
    (replace_char ">" "&gt;"
       (replace_char "<" "&lt;" (replace_char "&" "&amp;" (String x ""))))
  = escape_html_char x.
Proof. destruct x as [[] [] [] [] [] [] [] []]; reflexivity. Qed.

(** The four replacements in a row escape each character on its own: the
    ampersands that the later replacements write are not escaped again. *)
Lemma calendarEscapeHtml_cons (x : ascii) (s : string) :
  calendarEscapeHtml (String x s) = escape_html_char x +:+ calendarEscapeHtml s.
Proof.
  assert (Hs : calendarEscapeHtml s
               = replace_char "034" "&quot;"
                   (replace_char ">" "&gt;"
                      (replace_char "<" "&lt;"
                         (replace_char "&" "&amp;" s))))
    by (by destruct s).
  rewrite Hs, <- escape_html_char_replace.
  unfold calendarEscapeHtml.
  change (negb (string_truthy (String x s))) with false. cbv iota.
  rewrite (replace_char_cons "&"), !replace_char_app. done.
Qed.

Lemma has_char_app (c : ascii) (a b : string) :
  has_char c (a +:+ b) = has_char c a || has_char c b.
Proof.
  induction a as [|x a IH]; [done|].
  rewrite string_app_cons. simpl. by rewrite IH, orb_assoc.
Qed.

Lemma escape_html_char_clean (x : ascii) :
  has_char "<" (escape_html_char x) = false
  ∧ has_char ">" (escape_html_char x) = false
  ∧ has_char "034" (escape_html_char x) = false.
Proof. destruct x as [[] [] [] [] [] [] [] []]; done. Qed.

Lemma escape_html_char_head (x : ascii) :
  (x = "&"%char ∧ escape_html_char x = "&amp;")
  ∨ (x = "<"%char ∧ escape_html_char x = "&lt;")
  ∨ (x = ">"%char ∧ escape_html_char x = "&gt;")
  ∨ (x = "034"%char ∧ escape_html_char x = "&quot;")
  ∨ (x ≠ "&"%char ∧ escape_html_char x = String x "").
Proof. destruct x as [[] [] [] [] [] [] [] []]; auto 10. Qed.

Lemma calendarEscapeHtml_inj (s t : string) :
  calendarEscapeHtml s = calendarEscapeHtml t → s = t.
Proof.
  revert t. induction s as [|x s IH]; intros [|y t].
  - done.
  - rewrite calendarEscapeHtml_cons.
    destruct (escape_html_char_head y) as [[_ ->]|[[_ ->]|[[_ ->]|[[_ ->]|[_ ->]]]]];
      by rewrite string_app_cons.
  - rewrite calendarEscapeHtml_cons.
    destruct (escape_html_char_head x) as [[_ ->]|[[_ ->]|[[_ ->]|[[_ ->]|[_ ->]]]]];
      by rewrite string_app_cons.
  - rewrite !calendarEscapeHtml_cons. intros H.
    destruct (escape_html_char_head x)
      as [[-> Hx]|[[-> Hx]|[[-> Hx]|[[-> Hx]|[Hx' Hx]]]]];
      destruct (escape_html_char_head y)
        as [[-> Hy]|[[-> Hy]|[[-> Hy]|[[-> Hy]|[Hy' Hy]]]]];
      rewrite ?Hx, ?Hy in H; rewrite ?string_app_cons, ?string_app_nil_l in H;
      simplify_eq; try done; f_equal; by apply IH.
Qed.

End calendar_escape_facts.

(** X19. Escaping for the calendar.  The four replacements of
    [calendarEscapeHtml] act on each character by itself: the ampersand,
    the two angle brackets and the double quote become their entities, every
    other character is kept, and an ampersand written by a replacement is
    not escaped a second time.  The result holds no angle bracket and no
    double quote; a text without the four characters is returned as it is;
    and two different texts never escape to the same one. *)
Theorem calendarEscapeHtml_spec (text : string) :
  (∀ c s, calendarEscapeHtml (String c s)
          = escape_html_char c +:+ calendarEscapeHtml s) ∧
  calendarEscapeHtml "" = "" ∧
  has_char "<" (calendarEscapeHtml text) = false ∧
  has_char ">" (calendarEscapeHtml text) = false ∧
  has_char "034" (calendarEscapeHtml text) = false ∧
  (has_char "&" text = false → has_char "<" text = false →
   has_char ">" text = false → has_char "034" text = false →
   calendarEscapeHtml text = text) ∧
  (∀ text', calendarEscapeHtml text = calendarEscapeHtml text' →
            text = text').
Proof.
  split; [apply calendarEscapeHtml_cons|]. split; [done|].
  assert (Hclean : has_char "<" (calendarEscapeHtml text) = false
                   ∧ has_char ">" (calendarEscapeHtml text) = false
                   ∧ has_char "034" (calendarEscapeHtml text) = false).
  { induction text as [|x s (IH1 & IH2 & IH3)]; [done|].
    rewrite calendarEscapeHtml_cons, !has_char_app, IH1, IH2, IH3.
    destruct (escape_html_char_clean x) as (-> & -> & ->). done. }
  destruct Hclean as (H1 & H2 & H3).
  split; [done|]. split; [done|]. split; [done|]. split.
  - clear H1 H2 H3. induction text as [|x s IH]; [done|]. simpl has_char.
    intros [Ha Ha']%orb_false_elim [Hl Hl']%orb_false_elim
      [Hg Hg']%orb_false_elim [Hq Hq']%orb_false_elim.
    rewrite calendarEscapeHtml_cons, IH by done.
    unfold escape_html_char. by rewrite Ha, Hl, Hg, Hq.
  - apply calendarEscapeHtml_inj.
Qed.

(** ** The submissions table *)

Section table_filter_facts.
Import RefJSONFacts.

Lemma prefix_spec (s1 s2 : string) :
  String.prefix s1 s2 = true ↔ ∃ post, s2 = s1 +:+ post.
Proof.
  revert s2. induction s1 as [|a s1 IH]; intros [|b s2]; simpl.
  { split; [|done]. intros _. by exists "". }
  { split; [|done]. intros _. by exists (String b s2). }
  { split; [done|]. by intros [post ?]. }
  destruct (Ascii.ascii_dec a b) as [->|Hne].
  - rewrite IH. split; intros [post Hpost]; exists post.
    + by rewrite string_app_cons, Hpost.
    + rewrite string_app_cons in Hpost. by injection Hpost.
  - split; [done|]. intros [post Hpost].
    rewrite string_app_cons in Hpost. by injection Hpost.
Qed.

(** [includes] finds the needle wherever it occurs. *)
Lemma String_includes_spec (hay needle : string) :
  String_includes hay needle = true
  ↔ ∃ pre post, hay = pre +:+ needle +:+ post.
Proof.
  induction hay as [|c hay IH]; cbn [String_includes];
    rewrite orb_true_iff, prefix_spec.
  - split.
    + intros [[post Hpost]|?]; [|done]. by exists "", post.
    + intros ([|c pre] & post & Hpost); [|done]. left. by exists post.
  - rewrite IH. split.
    + intros [[post Hpost]|(pre & post & Hpost)].
      * by exists "", post.
      * exists (String c pre), post. by rewrite string_app_cons, Hpost.
    + intros ([|c' pre] & post & Hpost).
      * left. by exists post.
      * right. rewrite string_app_cons in Hpost. injection Hpost as _ Hpost.
        by exists pre, post.
Qed.

Lemma toLowerCase_empty (s : string) : toLowerCase s = "" ↔ s = "".
Proof. by destruct s. Qed.

Lemma filter_step_elem (f : string) (field : Submission.t → string)
    (filtered : list Submission.t) (s : Submission.t) :
  s ∈ filter_step f field filtered
  ↔ s ∈ filtered
    ∧ (f = "" ∨ ∃ pre post,
                  toLowerCase (field s) = pre +:+ toLowerCase f +:+ post).
Proof.
  unfold filter_step, string_truthy.
  destruct (String.eqb_spec f "") as [->|Hne]; simpl.
  - split; [intros ?; split; [done|by left]|by intros [? _]].
  - rewrite list_elem_of_filter, String_includes_spec. split.
    + intros [? ?]. split; [done|by right].
    + intros [? [?|?]]; [done|by split].
Qed.

Lemma filter_step_sublist (f : string) (field : Submission.t → string)
    (filtered : list Submission.t) :
  filter_step f field filtered `sublist_of` filtered.
Proof.
  unfold filter_step. destruct (string_truthy f); [apply sublist_filter|done].
Qed.

Lemma filter_step_case (f f' : string) (field : Submission.t → string)
    (filtered : list Submission.t) :
  toLowerCase f' = toLowerCase f →
  filter_step f' field filtered = filter_step f field filtered.
Proof.
  intros Hlow. unfold filter_step. rewrite Hlow.
  assert (string_truthy f' = string_truthy f) as ->; [|done].
  unfold string_truthy.
  destruct (String.eqb_spec f' "") as [->|Hne'],
    (String.eqb_spec f "") as [->|Hne]; try done.
  - simpl in Hlow. symmetry in Hlow.
    by destruct (Hne (proj1 (toLowerCase_empty f) Hlow)).
  - simpl in Hlow. by destruct (Hne' (proj1 (toLowerCase_empty f') Hlow)).
Qed.

Lemma toLowerCase_char_idemp (c : ascii) :
  toLowerCase_char (toLowerCase_char c) = toLowerCase_char c.
Proof. destruct c as [[] [] [] [] [] [] [] []]; reflexivity. Qed.

Lemma toLowerCase_idemp (s : string) :
  toLowerCase (toLowerCase s) = toLowerCase s.
Proof.
  induction s as [|c s IH]; [done|]. simpl.
  by rewrite toLowerCase_char_idemp, IH.
Qed.

End table_filter_facts.

(** X20. The filters of the submissions table.  The rows shown are the
    submissions, in their order, that pass each of the three filters; a
    filter box left empty lets every row pass; a filled one lets a row pass
    when the lower-cased filter text occurs somewhere in the lower-cased
    field (pid, committee name or meeting name, a missing name counting as
    empty).  With the three boxes empty every submission is shown, and the
    letter case of a filter text has no effect on the rows. *)
Theorem filterSubmissions_rows (filterPid filterCommittee filterMeeting : string)
    (submissions : list Submission.t) :
  let passes := λ (f : string) (field : string),
    f = "" ∨ ∃ pre post, toLowerCase field = pre +:+ toLowerCase f +:+ post in
  let rows :=
    filterSubmissions filterPid filterCommittee filterMeeting submissions in
  rows `sublist_of` submissions ∧
  (∀ s, s ∈ rows
        ↔ s ∈ submissions
          ∧ passes filterPid (Submission.pid s)
          ∧ passes filterCommittee (default "" (Submission.committeeName s))
          ∧ passes filterMeeting (default "" (Submission.meetingName s))) ∧
  filterSubmissions "" "" "" submissions = submissions ∧
  filterSubmissions (toLowerCase filterPid) (toLowerCase filterCommittee)
    (toLowerCase filterMeeting) submissions = rows ∧
  (∀ filterPid' filterCommittee' filterMeeting',
     toLowerCase filterPid' = toLowerCase filterPid →
     toLowerCase filterCommittee' = toLowerCase filterCommittee →
     toLowerCase filterMeeting' = toLowerCase filterMeeting →
     filterSubmissions filterPid' filterCommittee' filterMeeting' submissions
     = rows).
Proof.
  simpl. unfold filterSubmissions.
  assert (Hcase : ∀ filterPid' filterCommittee' filterMeeting',
     toLowerCase filterPid' = toLowerCase filterPid →
     toLowerCase filterCommittee' = toLowerCase filterCommittee →
     toLowerCase filterMeeting' = toLowerCase filterMeeting →
     filter_step filterMeeting'
       (λ s, default "" (Submission.meetingName s))
       (filter_step filterCommittee'
          (λ s, default "" (Submission.committeeName s))
          (filter_step filterPid' Submission.pid submissions))
     = filter_step filterMeeting
         (λ s, default "" (Submission.meetingName s))
         (filter_step filterCommittee
            (λ s, default "" (Submission.committeeName s))
            (filter_step filterPid Submission.pid submissions))).
  { intros p c m Hp Hc Hm.
    by rewrite (filter_step_case _ _ _ _ Hp), (filter_step_case _ _ _ _ Hc),
      (filter_step_case _ _ _ _ Hm). }
  split; [|split; [|split; [done|split; [|done]]]].
  - etrans; [apply filter_step_sublist|].
    etrans; apply filter_step_sublist.
  - intros s. rewrite !filter_step_elem. tauto.
  - apply Hcase; apply toLowerCase_idemp.
Qed.

(** ** The four storage keys are independent *)

Section frame_facts.
Context {J : JSON}.

Lemma getWithOverride_getItem (key : string) (ls ls' : localStorage)
    (F : value) :
  getItem ls' key = getItem ls key →
  getWithOverride key ls' F = getWithOverride key ls F.
Proof. unfold getWithOverride. by intros ->. Qed.

Lemma getSubmissions_getItem (ls ls' : localStorage) :
  getItem ls' GOV_STORAGE_KEYS.SUBMISSIONS
  = getItem ls GOV_STORAGE_KEYS.SUBMISSIONS →
  getSubmissions ls' = getSubmissions ls.
Proof. unfold getSubmissions. by intros ->. Qed.

Lemma getSession_getItem (ls ls' : localStorage) :
  getItem ls' GOV_STORAGE_KEYS.SESSION
  = getItem ls GOV_STORAGE_KEYS.SESSION →
  getSession ls' = getSession ls.
Proof. unfold getSession. by intros ->. Qed.

Lemma saveSubmission_getItem (s : value) (ls ls' : localStorage)
    (key : string) :
  saveSubmission s ls = Normal ls' → key ≠ GOV_STORAGE_KEYS.SUBMISSIONS →
  getItem ls' key = getItem ls key.
Proof.
  unfold saveSubmission.
  destruct (getSubmissions ls) as [v|e]; simpl; [|done].
  destruct (push v s) as [v'|e]; simpl; [|done].
  intros [= <-] Hkey. by apply getItem_setItem_ne.
Qed.

Lemma importSubmissions_getItem (result : string) (ls : localStorage)
    (key : string) :
  key ≠ GOV_STORAGE_KEYS.SUBMISSIONS →
  getItem (importSubmissions result ls).1 key = getItem ls key.
Proof.
  intros Hkey. unfold importSubmissions.
  destruct (import_merge result ls) as [[imported merged]|e]; simpl; [|done].
  by apply getItem_setItem_ne.
Qed.

End frame_facts.

(** X21. Each writer changes what one reader returns.  Writing the
    meetings override leaves the assignments, the submissions and the
    session as they read before; writing the assignments override leaves
    the meetings, the submissions and the session; recording a submission,
    and an import whatever the file holds, leave the meetings, the
    assignments and the session. *)
Theorem writers_are_independent {J : JSON} (ls : localStorage)
    (X F s : value) (result : string) :
  (getAssignmentsWithOverride (saveMeetingsOverride X ls) F
   = getAssignmentsWithOverride ls F
   ∧ getSubmissions (saveMeetingsOverride X ls) = getSubmissions ls
   ∧ getSession (saveMeetingsOverride X ls) = getSession ls) ∧
  (getMeetingsWithOverride (saveAssignmentsOverride X ls) F
   = getMeetingsWithOverride ls F
   ∧ getSubmissions (saveAssignmentsOverride X ls) = getSubmissions ls
   ∧ getSession (saveAssignmentsOverride X ls) = getSession ls) ∧
  (∀ ls', saveSubmission s ls = Normal ls' →
     getMeetingsWithOverride ls' F = getMeetingsWithOverride ls F
     ∧ getAssignmentsWithOverride ls' F = getAssignmentsWithOverride ls F
     ∧ getSession ls' = getSession ls) ∧
  (let ls' := (importSubmissions result ls).1 in
   getMeetingsWithOverride ls' F = getMeetingsWithOverride ls F
   ∧ getAssignmentsWithOverride ls' F = getAssignmentsWithOverride ls F
   ∧ getSession ls' = getSession ls).
Proof.
  split; [|split; [|split]].
  - split; [|split].
    + by apply getWithOverride_getItem, getItem_setItem_ne.
    + by apply getSubmissions_getItem, getItem_setItem_ne.
    + by apply getSession_getItem, getItem_setItem_ne.
  - split; [|split].
    + by apply getWithOverride_getItem, getItem_setItem_ne.
    + by apply getSubmissions_getItem, getItem_setItem_ne.
    + by apply getSession_getItem, getItem_setItem_ne.
  - intros ls' Hsave. split; [|split].
    + by apply getWithOverride_getItem, (saveSubmission_getItem s).
    + by apply getWithOverride_getItem, (saveSubmission_getItem s).
    + by apply getSession_getItem, (saveSubmission_getItem s).
  - simpl. split; [|split].
    + by apply getWithOverride_getItem, importSubmissions_getItem.
    + by apply getWithOverride_getItem, importSubmissions_getItem.
    + by apply getSession_getItem, importSubmissions_getItem.
Qed.

(** ** The notes column *)

Section notes_facts.
Import RefJSONFacts.



End notes_facts.


